(** * lambda-event-to-http: the stream shim between Lambda events and HTTP middleware

    A shallow embedding of the TypeScript sources

    - [lambda-writable.ts]          (class [EventResponseBodyWriter]),
    - [event-wrapper-socket.ts]     (classes [EventWrapperSocket], [BasicTimeout]),
    - [lambda-incoming-message.ts]  (class [LambdaIncomingMessage]),
    - [lambda-response.ts]          (class [LambdaResponse]),
    - [types.ts]                    (the type guards and the validation),
    - [util.ts]                     (class [ResponseTransport], the utilities),
    - [index.ts]                    ([appify], [createRequestResponsePair]),

    together with the properties of the buffering, encoding and timer logic.

    Conventions.  A Node [Buffer] is a list of bytes.  A JavaScript string is a
    [string] whose characters are its code units; the model covers the strings
    whose code units are below 256 (ASCII and Latin-1), for which one
    character is one code unit.  Offsets, sizes and counters are natural
    numbers, timer durations and clock readings are integers; a number is
    an integer or [NaN], and stands for the runtime's up to 2^53, the
    integers it holds exactly.  A JavaScript object used as a dictionary is
    a [gmap] keyed by strings, which holds the own properties of the object;
    an object whose enumeration order matters is an association list in that
    order.

    The runtime is modelled as far as the sources call into it: [Buffer]
    with its encodings, [parseInt], [join] and [split], [URLSearchParams],
    and the timers of the event loop, which run on one thread against a
    logical clock counting milliseconds; a timer is due once its duration
    has passed since it was last started, and fires in a timer phase of the
    loop at or after that time.  Of what the inherited stream classes do
    around the methods defined here, the model has [write], which hands a
    string to [_write] as a buffer; the rest is outside the model. *)

From Stdlib Require Import ZArith NArith Lia List String Ascii Bool.
From Stdlib.Strings Require Import Byte.
From Stdlib Require Import DecimalString DecimalPos.
From stdpp Require Import base option strings list gmap fin_maps.

Local Open Scope string_scope.
Local Open Scope list_scope.

(** ** The Node runtime: buffers and string encodings *)

Module Node.

(** [Buffer]: a sequence of octets. *)
Definition Buffer : Type := list byte.

(** [Buffer.concat(list)]. *)
Definition Buffer_concat (chunks : list Buffer) : Buffer := concat chunks.

(** The character encodings [Buffer.from] and [buf.toString] accept
    ([BufferEncoding]; the aliases [utf-8], [ucs2], [binary] are merged into
    [utf8], [utf16le], [latin1]). *)
Inductive BufferEncoding : Type :=
  | utf8 | utf16le | latin1 | ascii | hex | base64 | base64url.

(** The octet with value [n mod 256]. *)
Definition octet (n : N) : byte :=
  match Byte.of_N (n mod 256) with
  | Some b => b
  | None => x00
  end.

Definition code_unit (c : Ascii.ascii) : N := N_of_ascii c.

Definition char_of_octet (b : byte) : Ascii.ascii := ascii_of_byte b.

(** UTF-8 of one code unit below 256: one octet below 128, two above. *)
Definition utf8_encode_unit (c : Ascii.ascii) : Buffer :=
  let n := code_unit c in
  if (n <? 128)%N then [octet n]
  else [octet (192 + n / 64); octet (128 + n mod 64)].

Fixpoint utf8_encode (s : string) : Buffer :=
  match s with
  | EmptyString => []
  | String c rest => utf8_encode_unit c ++ utf8_encode rest
  end.

Fixpoint latin1_encode (s : string) : Buffer :=
  match s with
  | EmptyString => []
  | String c rest => octet (code_unit c) :: latin1_encode rest
  end.

Fixpoint utf16le_encode (s : string) : Buffer :=
  match s with
  | EmptyString => []
  | String c rest => octet (code_unit c) :: x00 :: utf16le_encode rest
  end.

(** Value of a hexadecimal digit. *)
Definition hex_value (c : Ascii.ascii) : option N :=
  let n := code_unit c in
  if ((48 <=? n) && (n <=? 57))%N then Some (n - 48)%N
  else if ((97 <=? n) && (n <=? 102))%N then Some (n - 87)%N
  else if ((65 <=? n) && (n <=? 70))%N then Some (n - 55)%N
  else None.

(** [Buffer.from(s, 'hex')]: digit pairs, stopping at the first pair that is
    not hexadecimal; a trailing single digit is dropped. *)
Fixpoint hex_decode (s : string) : Buffer :=
  match s with
  | String c1 (String c2 rest) =>
      match hex_value c1, hex_value c2 with
      | Some h, Some l => octet (16 * h + l) :: hex_decode rest
      | _, _ => []
      end
  | _ => []
  end.

(** *** Base64 ([buf.toString('base64')] and [Buffer.from(s, 'base64')]) *)

(** The character of a sextet in the standard alphabet [A-Z a-z 0-9 + /]. *)
Definition b64_char (n : N) : Ascii.ascii :=
  if (n <? 26)%N then ascii_of_N (n + 65)
  else if (n <? 52)%N then ascii_of_N (n + 71)
  else if (n <? 62)%N then ascii_of_N (n - 4)
  else if (n =? 62)%N then "+"%char
  else "/"%char.

(** The sextet of a character; the decoder also accepts the URL-safe
    alphabet, [-] for 62 and [_] for 63. *)
Definition b64_value (c : Ascii.ascii) : option N :=
  let n := code_unit c in
  if ((65 <=? n) && (n <=? 90))%N then Some (n - 65)%N
  else if ((97 <=? n) && (n <=? 122))%N then Some (n - 71)%N
  else if ((48 <=? n) && (n <=? 57))%N then Some (n + 4)%N
  else if ((n =? 43) || (n =? 45))%N then Some 62%N
  else if ((n =? 47) || (n =? 95))%N then Some 63%N
  else None.

(** Encoder: three octets give four characters; a last group of one or two
    octets gives two or three characters and is padded with [=]. *)
Fixpoint b64_encode (bs : Buffer) : string :=
  match bs with
  | [] => EmptyString
  | [a] =>
      let a := Byte.to_N a in
      String (b64_char (a / 4))
        (String (b64_char ((a mod 4) * 16)) "==")
  | [a; b] =>
      let a := Byte.to_N a in
      let b := Byte.to_N b in
      String (b64_char (a / 4))
        (String (b64_char ((a mod 4) * 16 + b / 16))
           (String (b64_char ((b mod 16) * 4)) "="))
  | a :: b :: c :: rest =>
      let a := Byte.to_N a in
      let b := Byte.to_N b in
      let c := Byte.to_N c in
      String (b64_char (a / 4))
        (String (b64_char ((a mod 4) * 16 + b / 16))
           (String (b64_char ((b mod 16) * 4 + c / 64))
              (String (b64_char (c mod 64)) (b64_encode rest))))
  end%N.

(** Decoder, first pass: the sextets of the characters up to the first [=];
    characters outside the alphabet are skipped. *)
Fixpoint b64_sextets (s : string) : list N :=
  match s with
  | EmptyString => []
  | String c rest =>
      if Ascii.eqb c "="%char then []
      else match b64_value c with
           | Some v => v :: b64_sextets rest
           | None => b64_sextets rest
           end
  end.

(** Decoder, second pass: four sextets give three octets; a last group of
    two or three sextets gives one or two octets. *)
Fixpoint b64_pack (l : list N) : Buffer :=
  match l with
  | s0 :: s1 :: s2 :: s3 :: rest =>
      octet (s0 * 4 + s1 / 16) :: octet ((s1 mod 16) * 16 + s2 / 4)
        :: octet ((s2 mod 4) * 64 + s3) :: b64_pack rest
  | [s0; s1; s2] =>
      [octet (s0 * 4 + s1 / 16); octet ((s1 mod 16) * 16 + s2 / 4)]
  | [s0; s1] => [octet (s0 * 4 + s1 / 16)]
  | _ => []
  end%N.

Definition b64_decode (s : string) : Buffer := b64_pack (b64_sextets s).

(** [Buffer.from(s, encoding)]. *)
Definition Buffer_from (s : string) (encoding : BufferEncoding) : Buffer :=
  match encoding with
  | utf8 => utf8_encode s
  | utf16le => utf16le_encode s
  | latin1 | ascii => latin1_encode s
  | hex => hex_decode s
  | base64 | base64url => b64_decode s
  end.

(** [buf.toString()], the UTF-8 reading of a buffer.  Every octet below 128
    decodes to the character of the same code, which is the only case the
    callers below reach; the model reads every octet that way. *)
Definition Buffer_toString (b : Buffer) : string :=
  string_of_list_ascii (map char_of_octet b).

(** [buf.toString('base64')]. *)
Definition Buffer_toString_base64 (b : Buffer) : string := b64_encode b.

(** [buf.some(pred)]. *)
Definition Buffer_some (pred : N -> bool) (b : Buffer) : bool :=
  existsb (fun c => pred (Byte.to_N c)) b.

(** A stream chunk, [Buffer | string]. *)
Inductive Chunk : Type :=
  | ChunkBuffer (b : Buffer)
  | ChunkString (s : string).

(** [chunk.length]: octets of a buffer, code units of a string. *)
Definition Chunk_length (c : Chunk) : nat :=
  match c with
  | ChunkBuffer b => length b
  | ChunkString s => String.length s
  end.

(** [chunk.slice(start, stop)] for [0 <= start <= stop]; [stop] is clipped
    to the length. *)
Definition Buffer_slice (start stop : nat) (b : Buffer) : Buffer :=
  take (stop - start) (drop start b).

Definition String_slice (start stop : nat) (s : string) : string :=
  string_of_list_ascii (take (stop - start) (drop start (list_ascii_of_string s))).

Definition Chunk_slice (start stop : nat) (c : Chunk) : Chunk :=
  match c with
  | ChunkBuffer b => ChunkBuffer (Buffer_slice start stop b)
  | ChunkString s => ChunkString (String_slice start stop s)
  end.

(** Truthiness of a [Buffer | string] value: only the empty string is falsy. *)
Definition Chunk_truthy (c : Chunk) : bool :=
  match c with
  | ChunkBuffer _ => true
  | ChunkString s => negb (String.eqb s "")
  end.

(** JavaScript numbers, as far as the status code needs them: integers and
    [NaN].  A number holds every integer up to 2^53 in size exactly; the
    model does no rounding, and stands for the runtime within that
    range. *)
Inductive number : Type :=
  | NaN
  | Num (z : Z).

(** Truthiness of a number: [0] and [NaN] are falsy. *)
Definition number_truthy (n : number) : bool :=
  match n with
  | NaN => false
  | Num z => negb (z =? 0)%Z
  end.

(** *** [parseInt(string)] without a radix argument *)

Definition is_white_space (c : Ascii.ascii) : bool :=
  let n := code_unit c in
  ((9 <=? n) && (n <=? 13) || (n =? 32) || (n =? 160))%N.

Fixpoint trim_start (s : string) : string :=
  match s with
  | String c rest => if is_white_space c then trim_start rest else s
  | EmptyString => s
  end.

Definition digit_value (radix : N) (c : Ascii.ascii) : option N :=
  let n := code_unit c in
  let v :=
    if ((48 <=? n) && (n <=? 57))%N then Some (n - 48)%N
    else if ((97 <=? n) && (n <=? 122))%N then Some (n - 87)%N
    else if ((65 <=? n) && (n <=? 90))%N then Some (n - 55)%N
    else None in
  match v with
  | Some d => if (d <? radix)%N then Some d else None
  | None => None
  end.

(** The longest prefix of digits in the radix, read most significant first:
    [None] when the string does not start with a digit. *)
Fixpoint parse_digits (radix : N) (acc : option N) (s : string) : option N :=
  match s with
  | EmptyString => acc
  | String c rest =>
      match digit_value radix c with
      | Some d =>
          parse_digits radix
            (Some (match acc with Some a => a * radix + d | None => d end)%N)
            rest
      | None => acc
      end
  end.

(** The digits are read exactly: the result is that of the runtime for
    numerals up to 2^53, beyond which the runtime rounds. *)
Definition parseInt (input : string) : number :=
  let s := trim_start input in
  let '(negative, s) :=
    match s with
    | String "-" rest => (true, rest)
    | String "+" rest => (false, rest)
    | _ => (false, s)
    end in
  let '(radix, s) :=
    match s with
    | String "0" (String "x" rest) => (16%N, rest)
    | String "0" (String "X" rest) => (16%N, rest)
    | _ => (10%N, s)
    end in
  match parse_digits radix None s with
  | None => NaN
  | Some v => Num (if negative then - Z.of_N v else Z.of_N v)
  end.

(** *** [Array.prototype.join] and [String.prototype.split] *)

(** [list.join(sep)]. *)
Fixpoint Array_join (sep : string) (l : list string) : string :=
  match l with
  | [] => ""
  | [x] => x
  | x :: rest => x +:+ sep +:+ Array_join sep rest
  end.

(** [s.split(sep)] for a non-empty separator.  [skip] counts the characters
    of a matched separator still to be passed over, [cur] is the piece being
    collected, in reverse. *)
Fixpoint split_from (sep : string) (skip : nat) (cur : list Ascii.ascii)
    (s : string) : list string :=
  match s with
  | EmptyString => [string_of_list_ascii (rev cur)]
  | String c rest =>
      match skip with
      | S k => split_from sep k cur rest
      | O =>
          if String.prefix sep s
          then string_of_list_ascii (rev cur)
                 :: split_from sep (String.length sep - 1) [] rest
          else split_from sep 0 (c :: cur) rest
      end
  end.

Definition String_split (sep : string) (s : string) : list string :=
  split_from sep 0 [] s.

(** *** [URLSearchParams]: the [application/x-www-form-urlencoded] serializer *)

Definition hex_digit (n : N) : Ascii.ascii :=
  if (n <? 10)%N then ascii_of_N (n + 48) else ascii_of_N (n + 55).

(** One octet: alphanumerics and [* - . _] stay, the space becomes [+],
    every other octet is percent-encoded. *)
Definition urlencode_octet (b : byte) : string :=
  let n := Byte.to_N b in
  if ((48 <=? n) && (n <=? 57) || (65 <=? n) && (n <=? 90)
      || (97 <=? n) && (n <=? 122)
      || (n =? 42) || (n =? 45) || (n =? 46) || (n =? 95))%N
  then String (ascii_of_byte b) ""
  else if (n =? 32)%N then "+"
  else String "%" (String (hex_digit (n / 16)) (String (hex_digit (n mod 16)) "")).

Definition urlencode (s : string) : string :=
  String.concat "" (map urlencode_octet (utf8_encode s)).

(** [params.toString()] of the pairs appended so far, in order. *)
Definition URLSearchParams_toString (params : list (string * string)) : string :=
  Array_join "&" (map (fun kv => urlencode kv.1 +:+ "=" +:+ urlencode kv.2) params).

(** How a call completes: it returns, or it throws. *)
Inductive completion (A : Type) : Type :=
  | Returns (a : A)
  | Throws (message : string).
Arguments Returns {A} a.
Arguments Throws {A} message.

End Node.

Import Node.

(** ** [lambda-writable.ts]: the response body sink *)

Module EventResponseBodyWriter.

Record t : Type := mk {
  _writeBodyAccumulator : list Buffer;
  bytesWritten : nat;
}.

(** The constructor: an empty accumulator and a zero counter. *)
Definition new : t := {| _writeBodyAccumulator := []; bytesWritten := 0 |}.

(** [_write(chunk, encoding, callback)].  A string is pushed as
    [Buffer.from(chunk, encoding)] and counted by [chunk.length], the length
    of the string; a buffer is pushed as it is and counted by its length.
    The callback is then called without an error. *)
Definition _write (chunk : Chunk) (encoding : BufferEncoding) (w : t) : t :=
  match chunk with
  | ChunkString s =>
      {| _writeBodyAccumulator := _writeBodyAccumulator w ++ [Buffer_from s encoding];
         bytesWritten := bytesWritten w + String.length s |}
  | ChunkBuffer b =>
      {| _writeBodyAccumulator := _writeBodyAccumulator w ++ [b];
         bytesWritten := bytesWritten w + length b |}
  end.

(** [get body()]. *)
Definition body (w : t) : Buffer := Buffer_concat (_writeBodyAccumulator w).

(** A sequence of [_write] calls, first call first. *)
Definition writes (calls : list (Chunk * BufferEncoding)) (w : t) : t :=
  fold_left (fun w call => _write call.1 call.2 w) calls w.

(** [write(chunk, encoding)], inherited from [Writable], on a stream that
    is neither ended nor destroyed.  The constructor calls [super()]
    without options, so [decodeStrings] has its default: the stream turns a
    string into [Buffer.from(chunk, encoding)] before it calls [_write],
    which so gets a buffer (and 'buffer' as encoding, which it does not
    look at).  [_write] calls back at once, so that every chunk reaches
    it, in order. *)
Definition write (chunk : Chunk) (encoding : BufferEncoding) (w : t) : t :=
  match chunk with
  | ChunkString s => _write (ChunkBuffer (Buffer_from s encoding)) encoding w
  | ChunkBuffer b => _write (ChunkBuffer b) encoding w
  end.

(** A sequence of [write] calls, first call first. *)
Definition write_all (calls : list (Chunk * BufferEncoding)) (w : t) : t :=
  fold_left (fun w call => write call.1 call.2 w) calls w.

End EventResponseBodyWriter.

(** ** [event-wrapper-socket.ts]: the single-shot timer *)

(** What an endpoint lets the outside observe: the [timeout] event it
    emits and the calls of the callback given to [setTimeout].  A callback
    is known by a tag and by whether it throws; it does not call back into
    the endpoint. *)
Record TimeoutCallback : Type := {
  callback_tag : nat;
  callback_throws : bool;
}.

Inductive Signal : Type :=
  | EmitTimeout
  | CallbackCalled (tag : nat).

#[global] Instance Signal_eq_dec : EqDecision Signal.
Proof. solve_decision. Defined.

(** The runtime's timer object, as returned by the global [setTimeout]: it is
    due once [_idleTimeout] milliseconds have passed since [_idleStart]. *)
Record Timeout : Type := {
  _idleStart : Z;
  _idleTimeout : Z;
}.

Definition Timeout_due (now : Z) (h : Timeout) : bool :=
  (_idleStart h + _idleTimeout h <=? now)%Z.

(** The runtime's [setTimeout(callback, msecs)] at clock reading [now]: a
    duration that is not within 1 .. 2^31 - 1 is taken as 1. *)
Definition runtime_setTimeout (now msecs : Z) : Timeout :=
  {| _idleStart := now;
     _idleTimeout := if ((1 <=? msecs) && (msecs <=? 2147483647))%Z then msecs
                     else 1%Z |}.

(** [timeout.refresh()]: the timer starts again from the current time. *)
Definition Timeout_refresh (now : Z) (h : Timeout) : Timeout :=
  {| _idleStart := now; _idleTimeout := _idleTimeout h |}.

Module BasicTimeout.

(** [_timeout] holds the runtime timer while it is pending, [_callback] the
    wrapped callback (here: the callback handed to the endpoint's
    [setTimeout], if any). *)
Record t : Type := mk {
  _timeout : option Timeout;
  _callback : option (option TimeoutCallback);
  _timeoutMs : Z;
}.

(** [new BasicTimeout(callback, timeoutMs)] at clock reading [now]: throws
    for a duration that is not positive, otherwise starts the runtime
    timer with [setTimeout(wrapper, timeoutMs)]. *)
Definition new (now : Z) (callback : option TimeoutCallback) (timeoutMs : Z)
    : completion t :=
  if (timeoutMs <=? 0)%Z then Throws "Timeout must be greater than 0"
  else Returns {| _timeout := Some (runtime_setTimeout now timeoutMs);
                  _callback := Some callback;
                  _timeoutMs := timeoutMs |}.

(** [refresh()]: only a pending timer is restarted. *)
Definition refresh (now : Z) (b : t) : t :=
  match _timeout b with
  | Some h => {| _timeout := Some (Timeout_refresh now h);
                 _callback := _callback b;
                 _timeoutMs := _timeoutMs b |}
  | None => b
  end.

(** [cancel()]: [clearTimeout] on a pending timer, and the handle is
    dropped. *)
Definition cancel (b : t) : t :=
  match _timeout b with
  | Some _ => {| _timeout := None;
                 _callback := _callback b;
                 _timeoutMs := _timeoutMs b |}
  | None => b
  end.

(** The [finally] block of the wrapped callback, run when the timer fires. *)
Definition fired (b : t) : t :=
  {| _timeout := None; _callback := None; _timeoutMs := _timeoutMs b |}.

End BasicTimeout.

(** ** [event-wrapper-socket.ts]: the simulated duplex endpoint *)

(** What [_read] hands to [push]: a chunk, or [null] for end-of-stream. *)
Inductive Push : Type :=
  | PushChunk (c : Chunk)
  | PushNull.

Module EventWrapperSocket.

(** The fields the operations below use.  [emitted] is the record of the
    signals the endpoint has given so far, oldest first.  The address, port
    and family fields are set by the constructor and read by no operation
    here. *)
Record t : Type := mk {
  _readBody : option Chunk;
  _readOffset : nat;
  _timeout : option BasicTimeout.t;
  _writeBodyAccumulator : list Buffer;
  bytesWritten : nat;
  emitted : list Signal;
}.

Definition new (body : option Chunk) : t :=
  {| _readBody := body; _readOffset := 0; _timeout := None;
     _writeBodyAccumulator := []; bytesWritten := 0; emitted := [] |}.

Definition set_timeout (x : option BasicTimeout.t) (s : t) : t :=
  {| _readBody := _readBody s; _readOffset := _readOffset s; _timeout := x;
     _writeBodyAccumulator := _writeBodyAccumulator s;
     bytesWritten := bytesWritten s; emitted := emitted s |}.

Definition set_readOffset (offset : nat) (s : t) : t :=
  {| _readBody := _readBody s; _readOffset := offset; _timeout := _timeout s;
     _writeBodyAccumulator := _writeBodyAccumulator s;
     bytesWritten := bytesWritten s; emitted := emitted s |}.

Definition emit (signals : list Signal) (s : t) : t :=
  {| _readBody := _readBody s; _readOffset := _readOffset s;
     _timeout := _timeout s;
     _writeBodyAccumulator := _writeBodyAccumulator s;
     bytesWritten := bytesWritten s; emitted := emitted s ++ signals |}.

(** [setTimeout(timeout, callback)] at clock reading [now].  Zero only
    cancels; any other value cancels, then installs a new [BasicTimeout],
    whose constructor may throw after the cancellation has been done. *)
Definition setTimeout (now : Z) (timeout : Z) (callback : option TimeoutCallback)
    (s : t) : t * completion unit :=
  if (timeout =? 0)%Z then
    (set_timeout (BasicTimeout.cancel <$> _timeout s) s, Returns tt)
  else
    let s := set_timeout (BasicTimeout.cancel <$> _timeout s) s in
    match BasicTimeout.new now callback timeout with
    | Returns b => (set_timeout (Some b) s, Returns tt)
    | Throws message => (s, Throws message)
    end.

(** The timer's callback, run by the event loop when the timer is due: the
    closure [cb] of [setTimeout] inside the wrapper of [BasicTimeout].  [cb]
    emits [timeout], calls the callback if there is one, and clears the
    endpoint's [_timeout]; when the callback throws, that last assignment is
    not reached, and only the wrapper's [finally] block runs.  (A timer
    whose wrapped callback is gone has fired already; the constructor sets
    both fields and the [finally] block clears both.) *)
Definition timer_fires (b : BasicTimeout.t) (s : t) : t :=
  match BasicTimeout._callback b with
  | Some (Some c) =>
      let s := emit [EmitTimeout; CallbackCalled (callback_tag c)] s in
      if callback_throws c then set_timeout (Some (BasicTimeout.fired b)) s
      else set_timeout None s
  | Some None => set_timeout None (emit [EmitTimeout] s)
  | None => s
  end.

(** The event loop's timer phase at clock reading [now]: a pending timer
    that is due fires. *)
Definition run_timers (now : Z) (s : t) : t :=
  match _timeout s with
  | Some b =>
      match BasicTimeout._timeout b with
      | Some h => if Timeout_due now h then timer_fires b s else s
      | None => s
      end
  | None => s
  end.

(** [get bytesRead()]. *)
Definition bytesRead (s : t) : nat := _readOffset s.

(** [_read(size)]: the new state and what was pushed, in order. *)
Definition _read (size : nat) (s : t) : t * list Push :=
  match _readBody s with
  | None => (s, [PushNull])
  | Some body =>
      if negb (Chunk_truthy body) || (Chunk_length body <=? _readOffset s)%nat
      then (s, [PushNull])
      else
        let chunk := Chunk_slice (_readOffset s) (_readOffset s + size) body in
        let offset := _readOffset s + Chunk_length chunk in
        let s := set_readOffset offset s in
        if (Chunk_length body <=? offset)%nat
        then (s, [PushChunk chunk; PushNull])
        else (s, [PushChunk chunk])
  end.

(** [_write(chunk, encoding, callback)] at clock reading [now]: the timeout
    is refreshed, then the chunk is accumulated as in the body sink. *)
Definition _write (now : Z) (chunk : Chunk) (encoding : BufferEncoding) (s : t) : t :=
  let timer := BasicTimeout.refresh now <$> _timeout s in
  match chunk with
  | ChunkString str =>
      {| _readBody := _readBody s; _readOffset := _readOffset s;
         _timeout := timer;
         _writeBodyAccumulator := _writeBodyAccumulator s ++ [Buffer_from str encoding];
         bytesWritten := bytesWritten s + String.length str;
         emitted := emitted s |}
  | ChunkBuffer b =>
      {| _readBody := _readBody s; _readOffset := _readOffset s;
         _timeout := timer;
         _writeBodyAccumulator := _writeBodyAccumulator s ++ [b];
         bytesWritten := bytesWritten s + length b;
         emitted := emitted s |}
  end.

(** [write(chunk, encoding)] at clock reading [now], inherited from
    [Duplex], on a stream that is neither ended nor destroyed: as for the
    body sink, the constructor leaves [decodeStrings] at its default, and
    [_write] gets a string as [Buffer.from(chunk, encoding)]. *)
Definition write (now : Z) (chunk : Chunk) (encoding : BufferEncoding) (s : t) : t :=
  match chunk with
  | ChunkString str => _write now (ChunkBuffer (Buffer_from str encoding)) encoding s
  | ChunkBuffer b => _write now (ChunkBuffer b) encoding s
  end.

(** A sequence of [write] calls, each with the clock reading at which it
    is made, first call first. *)
Definition write_all (calls : list (Z * (Chunk * BufferEncoding))) (s : t) : t :=
  fold_left (fun s call => write call.1 call.2.1 call.2.2 s) calls s.

(** [_writeBufferContents()]. *)
Definition _writeBufferContents (s : t) : Buffer :=
  Buffer_concat (_writeBodyAccumulator s).

(** Is a runtime timer pending for this endpoint? *)
Definition timer_pending (s : t) : bool :=
  match _timeout s with
  | Some b => bool_decide (is_Some (BasicTimeout._timeout b))
  | None => false
  end.

(** Reading to the end: [_read(size)] is called again and again until a call
    pushes [null].  Each call is recorded with the offset it started from,
    what it pushed, and the offset it left.  The second component tells
    whether end-of-stream was reached within [fuel] calls. *)
Record ReadCall : Type := {
  start_offset : nat;
  pushed : list Push;
  end_offset : nat;
}.

Definition pushes_null (ps : list Push) : bool :=
  existsb (fun p => match p with PushNull => true | PushChunk _ => false end) ps.

Fixpoint read_to_end (fuel : nat) (size : nat) (s : t) : list ReadCall * bool :=
  match fuel with
  | O => ([], false)
  | S fuel =>
      let '(s', ps) := _read size s in
      let call := {| start_offset := bytesRead s; pushed := ps;
                     end_offset := bytesRead s' |} in
      if pushes_null ps then ([call], true)
      else let '(calls, ended) := read_to_end fuel size s' in
           (call :: calls, ended)
  end.

End EventWrapperSocket.

(** ** The endpoint in the event loop *)

(** One invocation runs on one thread: calls into the endpoint, the passing
    of time, and the timer phase of the event loop follow one another. *)
Inductive Action : Type :=
  | CallSetTimeout (timeout : Z) (callback : option TimeoutCallback)
  | CallWrite (chunk : Chunk) (encoding : BufferEncoding)
  | CallRead (size : nat)
  | Elapse (ms : nat)
  | RunTimers.

Record World : Type := {
  clock : Z;
  endpoint : EventWrapperSocket.t;
}.

Definition step (a : Action) (w : World) : World :=
  match a with
  | CallSetTimeout timeout callback =>
      {| clock := clock w;
         endpoint := (EventWrapperSocket.setTimeout (clock w) timeout callback (endpoint w)).1 |}
  | CallWrite chunk encoding =>
      {| clock := clock w;
         endpoint := EventWrapperSocket._write (clock w) chunk encoding (endpoint w) |}
  | CallRead size =>
      {| clock := clock w;
         endpoint := (EventWrapperSocket._read size (endpoint w)).1 |}
  | Elapse ms =>
      {| clock := clock w + Z.of_nat ms; endpoint := endpoint w |}
  | RunTimers =>
      {| clock := clock w;
         endpoint := EventWrapperSocket.run_timers (clock w) (endpoint w) |}
  end.

Definition run (actions : list Action) (w : World) : World :=
  fold_left (fun w a => step a w) actions w.

(** The [timeout] signals among the signals given so far. *)
Definition timeout_signals (w : World) : list Signal :=
  filter (fun e => e = EmitTimeout) (EventWrapperSocket.emitted (endpoint w)).

(** ** [types.ts]: events and version detection *)

(** A property of an object that may be missing, hold [null], or hold a
    value. *)
Inductive Field (A : Type) : Type :=
  | Absent
  | Null
  | Present (a : A).
Arguments Absent {A}.
Arguments Null {A}.
Arguments Present {A} a.

(** The properties of an event the adapters read.  [None] is a missing
    property (for [body] also [null]).  The query parameters are listed in
    the order [Object.entries] gives them; a value may be [undefined]. *)
Record APIGatewayEvent : Type := {
  version : option string;
  httpMethod : option string;
  path : option string;
  rawPath : option string;
  queryStringParameters : Field (list (string * option string));
  rawQueryString : option string;
  body : option string;
}.

Inductive ApiGatewayVersion : Type := v1 | v2.

(** Truthiness of a string property: missing and empty are falsy. *)
Definition string_truthy (s : option string) : bool :=
  match s with
  | Some s => negb (String.eqb s "")
  | None => false
  end.

Definition detectApiGatewayVersion (event : APIGatewayEvent) : ApiGatewayVersion :=
  if bool_decide (version event = Some "2.0") then v2
  else if string_truthy (httpMethod event) then v1
  else v1.

(** ** [lambda-incoming-message.ts]: the inbound request adapter *)

Module LambdaIncomingMessage.

(** The adapter is the endpoint it extends ([_socket] is the object itself)
    with the event and the URL. *)
Record t : Type := mk {
  socket : EventWrapperSocket.t;
  _event : APIGatewayEvent;
  _url : string;
}.

(** The loop over [Object.entries(queryStringParameters)]: entries whose
    value is [undefined] are not appended. *)
Definition append_params (entries : list (string * option string))
    : list (string * string) :=
  omap (fun kv => match kv.2 with
                  | Some value => Some (kv.1, value)
                  | None => None
                  end) entries.

Definition _parseUrl (event : APIGatewayEvent) : string :=
  let path :=
    match path event with
    | Some p => p
    | None => match rawPath event with
              | Some p => p
              | None => ""
              end
    end in
  let query :=
    match queryStringParameters event with
    | Present entries => URLSearchParams_toString (append_params entries)
    | _ => if string_truthy (rawQueryString event)
           then default "" (rawQueryString event)
           else ""
    end in
  if negb (String.eqb query "") then path +:+ "?" +:+ query else path.

(** The constructor: [event.body || undefined] feeds the endpoint, the URL
    is computed once. *)
Definition new (event : APIGatewayEvent) : t :=
  let body := if string_truthy (body event) then ChunkString <$> body event else None in
  {| socket := EventWrapperSocket.new body;
     _event := event;
     _url := _parseUrl event |}.

(** [setTimeout(msecs, callback)] of the adapter calls
    [this._socket.setTimeout(msecs, callback)], and [_socket] is the adapter
    itself, so the call comes back to this method: it re-enters until the
    call stack, [depth] frames deep, is used up, and the endpoint's own
    [setTimeout] is not reached. *)
Fixpoint setTimeout (depth : nat) (msecs : Z) (callback : option TimeoutCallback)
    (m : t) : t * completion unit :=
  match depth with
  | O => (m, Throws "Maximum call stack size exceeded")
  | S depth => setTimeout depth msecs callback m
  end.

(** [get url()], [set url(url)] and [get lambdaEvent()]. *)
Definition url (m : t) : string := _url m.

Definition set_url (url : string) (m : t) : t :=
  {| socket := socket m; _event := _event m; _url := url |}.

Definition lambdaEvent (m : t) : APIGatewayEvent := _event m.

End LambdaIncomingMessage.

(** ** [lambda-response.ts]: the outbound response adapter *)

(** A stored header value, as [getHeaders()] types it:
    [number | string | string[] | undefined]. *)
Inductive OutgoingHttpHeader : Type :=
  | HeaderUndefined
  | HeaderString (s : string)
  | HeaderNumber (n : Z)
  | HeaderArray (l : list string).

(** A value of the flat header map of a result. *)
Inductive HeaderValue : Type :=
  | ValueString (s : string)
  | ValueNumber (n : Z).

(** The [statusCode] property as the serializer probes it: a number, or a
    string that somehow got stored there; [None] is [undefined]. *)
Inductive StatusCode : Type :=
  | StatusNumber (n : number)
  | StatusString (s : string).

(** The result object, for both shapes: [statusCode] is [None] when the
    property holds [undefined], [cookies] is [None] when the object has no
    such property. *)
Record APIGatewayResult : Type := {
  result_statusCode : option number;
  result_body : string;
  result_headers : gmap string HeaderValue;
  result_isBase64Encoded : bool;
  result_cookies : option (list string);
}.

Module LambdaResponse.

(** The state the serializers read: the inherited [statusCode], the header
    store behind [getHeaders()], the body sink assigned as socket, and the
    bound request. *)
Record t : Type := mk {
  statusCode : option StatusCode;
  getHeaders : gmap string OutgoingHttpHeader;
  socket : EventResponseBodyWriter.t;
  req : LambdaIncomingMessage.t;
}.

(** One turn of the loop of [_makeHeaders]. *)
Definition _makeHeaders_entry (key : string) (value : OutgoingHttpHeader)
    : option HeaderValue :=
  let value :=
    if String.eqb key "set-cookie" then
      match value with
      | HeaderArray l => HeaderString (Array_join "; " l)
      | _ => value
      end
    else value in
  match value with
  | HeaderUndefined => None
  | HeaderString s => Some (ValueString s)
  | HeaderArray l => Some (ValueString (Array_join "," l))
  | HeaderNumber n => Some (ValueNumber n)
  end.

(** [_makeHeaders()]: the own properties of the object it returns.  The
    assignment [headers[key] = value] under the key [__proto__] reaches the
    setter that the object, made with [{}], inherits; the setter takes no
    string and no number, and nothing is stored. *)
Definition _makeHeaders (r : t) : gmap string HeaderValue :=
  map_fold (fun key value headers =>
              match _makeHeaders_entry key value with
              | Some v => if String.eqb key "__proto__" then headers
                          else <[key := v]> headers
              | None => headers
              end) ∅ (getHeaders r).

Definition _makeBodyResponse (r : t) : string * bool :=
  let body := EventResponseBodyWriter.body (socket r) in
  if Buffer_some (fun c => (c <? 32) || (126 <? c))%N body
  then (Buffer_toString_base64 body, true)
  else (Buffer_toString body, false).

Definition _lambdaStatusCode (r : t) : option number :=
  match statusCode r with
  | Some (StatusString s) => Some (parseInt s)
  | Some (StatusNumber n) => Some n
  | None => None
  end.

(** The v1 serializer; [_lambdaStatusCode() || 200]. *)
Definition lambdaResponse (r : t) : APIGatewayResult :=
  let headers := _makeHeaders r in
  let '(body, isBase64Encoded) := _makeBodyResponse r in
  let statusCode :=
    match _lambdaStatusCode r with
    | Some n => if number_truthy n then n else Num 200
    | None => Num 200
    end in
  {| result_statusCode := Some statusCode;
     result_body := body;
     result_headers := headers;
     result_isBase64Encoded := isBase64Encoded;
     result_cookies := None |}.

(** The v2 serializer.  [split] is called on the [set-cookie] value taken
    as a string; a number has no such method, and the call throws. *)
Definition lambdaResponseV2 (r : t) : completion APIGatewayResult :=
  let headers := _makeHeaders r in
  let '(body, isBase64Encoded) := _makeBodyResponse r in
  let statusCode := _lambdaStatusCode r in
  let split :=
    match headers !! "set-cookie" with
    | Some (ValueString s) =>
        Returns (String_split "; " s, delete "set-cookie" headers)
    | Some (ValueNumber _) => Throws "split is not a function"
    | None => Returns ([], headers)
    end in
  match split with
  | Throws message => Throws message
  | Returns (cookies, headers) =>
      Returns {| result_statusCode := statusCode;
                 result_body := body;
                 result_headers := headers;
                 result_isBase64Encoded := isBase64Encoded;
                 result_cookies :=
                   if (0 <? length cookies)%nat then Some cookies else None |}
  end.

Definition toLambdaResponse (r : t) : completion APIGatewayResult :=
  match detectApiGatewayVersion (LambdaIncomingMessage.lambdaEvent (req r)) with
  | v1 => Returns (lambdaResponse r)
  | v2 => lambdaResponseV2 r
  end.

(** The constructor: a fresh body sink is assigned as socket.  The
    inherited state starts without headers; [statusCode] is what the
    inherited constructor leaves there. *)
Definition new (status : option StatusCode) (request : LambdaIncomingMessage.t) : t :=
  {| statusCode := status; getHeaders := ∅;
     socket := EventResponseBodyWriter.new; req := request |}.

End LambdaResponse.

(** * The vocabulary of the properties *)

(** ** Bodies and headers *)

(** The octets one [_write] call contributes: a buffer as it is, a string
    through [Buffer.from] with the encoding of the call. *)
Definition call_octets (call : Chunk * BufferEncoding) : Buffer :=
  match call.1 with
  | ChunkBuffer b => b
  | ChunkString s => Buffer_from s call.2
  end.

(** An octet in the printable ASCII range 32..126. *)
Definition printable_ascii (b : byte) : bool :=
  ((32 <=? Byte.to_N b) && (Byte.to_N b <=? 126))%N.

(** The text a stored [set-cookie] value is carried as after
    [_makeHeaders]: a string as it is, an array joined with "; ". *)
Definition set_cookie_text (value : OutgoingHttpHeader) : option string :=
  match value with
  | HeaderString s => Some s
  | HeaderArray l => Some (Array_join "; " l)
  | HeaderNumber _ | HeaderUndefined => None
  end.

(** The header store holds no number under [set-cookie]. *)
Definition set_cookie_not_numeric (r : LambdaResponse.t) : Prop :=
  forall n, LambdaResponse.getHeaders r !! "set-cookie" <> Some (HeaderNumber n).

(** A numeric string: the decimal digits of [d], most significant first
    (the single digit 0 for no digits). *)
Definition numeric_string (d : Decimal.uint) : string :=
  NilZero.string_of_uint d.

(** A numeral of an integer that a number holds exactly: up to 2^53. *)
Definition exact_numeral (d : Decimal.uint) : Prop :=
  (N.of_uint d <= 2 ^ 53)%N.

(** ** Reading to the end *)

(** The empty chunk of the kind of [like], and the concatenation of chunks
    of that kind; [None] when a chunk is of the other kind. *)
Definition Chunk_empty (like : Chunk) : Chunk :=
  match like with
  | ChunkBuffer _ => ChunkBuffer []
  | ChunkString _ => ChunkString ""
  end.

Fixpoint Chunk_join (like : Chunk) (chunks : list Chunk) : option Chunk :=
  match chunks with
  | [] => Some (Chunk_empty like)
  | c :: rest =>
      match c, Chunk_join like rest with
      | ChunkBuffer b, Some (ChunkBuffer r) => Some (ChunkBuffer (b ++ r))
      | ChunkString s, Some (ChunkString r) => Some (ChunkString (s +:+ r))
      | _, _ => None
      end
  end.

(** The chunks pushed by a sequence of [_read] calls, in order. *)
Definition pushed_chunks (calls : list EventWrapperSocket.ReadCall) : list Chunk :=
  flat_map (fun call =>
              omap (fun p => match p with
                             | PushChunk c => Some c
                             | PushNull => None
                             end) (EventWrapperSocket.pushed call)) calls.

(** Each call starts where the one before it ended: from [first], to
    [last]. *)
Fixpoint offsets_linked (first : nat) (calls : list EventWrapperSocket.ReadCall)
    (last : nat) : Prop :=
  match calls with
  | [] => first = last
  | call :: rest =>
      EventWrapperSocket.start_offset call = first
      /\ offsets_linked (EventWrapperSocket.end_offset call) rest last
  end.

(** What one call does on body [B] with chunk size [n]: before the end it
    pushes the slice of at most [n] units that starts at its start offset
    and advances by the length of that slice; it pushes [null], after the
    slice and within the same call, exactly when the offset it leaves is the
    end of the body. *)
Definition read_call_ok (B : Chunk) (n : nat) (call : EventWrapperSocket.ReadCall) : Prop :=
  let start := EventWrapperSocket.start_offset call in
  let stop := EventWrapperSocket.end_offset call in
  let chunk := Chunk_slice start (start + n) B in
  stop = start + (if (start <? Chunk_length B)%nat then Chunk_length chunk else 0)
  /\ EventWrapperSocket.pushed call
     = (if (start <? Chunk_length B)%nat then [PushChunk chunk] else [])
         ++ (if (Chunk_length B <=? stop)%nat then [PushNull] else []).

(** ** Schedules and timers *)

(** An action that installs no timer: anything but [setTimeout] with a
    non-zero duration. *)
Definition installs_no_timer (a : Action) : Prop :=
  match a with
  | CallSetTimeout timeout _ => timeout = 0%Z
  | _ => True
  end.


(** A schedule of writes, reads, waiting and timer phases in which less
    than [n] milliseconds pass between one write and the next; [idle] is the
    time passed since the timer was last started. *)
Fixpoint well_spaced (n : Z) (idle : Z) (schedule : list Action) : bool :=
  match schedule with
  | [] => true
  | CallWrite _ _ :: rest => well_spaced n 0 rest
  | Elapse ms :: rest =>
      (idle + Z.of_nat ms <? n)%Z && well_spaced n (idle + Z.of_nat ms) rest
  | CallRead _ :: rest | RunTimers :: rest => well_spaced n idle rest
  | CallSetTimeout _ _ :: _ => false
  end.


(** ** Concrete events, responses and worlds *)

(** The format-B event of the test fixtures, without its query map. *)
Definition format_B_event : APIGatewayEvent :=
  {| version := Some "2.0"; httpMethod := None; path := None;
     rawPath := Some "/hello"; queryStringParameters := Absent;
     rawQueryString := Some "name=test&id=123"; body := None |}.

(** A response to a format-B request with two cookies set, whose body sink
    holds "ok". *)
Definition response_with_cookies : LambdaResponse.t :=
  LambdaResponse.mk
    (Some (StatusNumber (Num 201)))
    {[ "set-cookie" := HeaderArray ["a=1"; "b=2"] ]}
    (EventResponseBodyWriter._write (ChunkString "ok") utf8 EventResponseBodyWriter.new)
    (LambdaIncomingMessage.new format_B_event).

(** A format-B event as the platform delivers it, for a request to
    [/y?q=a%20b]: the raw query string and the decoded query map. *)
Definition event_with_raw_and_structured_query : APIGatewayEvent :=
  {| version := Some "2.0";
     httpMethod := None;
     path := None;
     rawPath := Some "/y";
     queryStringParameters := Present [("q", Some "a b")];
     rawQueryString := Some "q=a%20b";
     body := None |}.

(** The format-A event of the test fixtures: GET /hello with two query
    parameters and no body. *)
Definition format_A_event : APIGatewayEvent :=
  {| version := None; httpMethod := Some "GET"; path := Some "/hello";
     rawPath := None;
     queryStringParameters := Present [("name", Some "test"); ("id", Some "123")];
     rawQueryString := None; body := None |}.

(** A fresh endpoint without a body, at clock reading 0. *)
Definition idle_world : World :=
  {| clock := 0; endpoint := EventWrapperSocket.new None |}.

(** * More of the sources *)

(** ** The runtime: [toLowerCase] and property lookup *)

(** [toLowerCase] on a code unit below 256: the letters A-Z and the
    accented capitals 192-222, the multiplication sign 215 apart, move up
    by 32. *)
Definition toLowerCase_unit (c : Ascii.ascii) : Ascii.ascii :=
  let n := code_unit c in
  if ((65 <=? n) && (n <=? 90) || (192 <=? n) && (n <=? 222) && negb (n =? 215))%N
  then ascii_of_N (n + 32)
  else c.

Fixpoint String_toLowerCase (s : string) : string :=
  match s with
  | EmptyString => EmptyString
  | String c rest => String (toLowerCase_unit c) (String_toLowerCase rest)
  end.

(** An object with string values, some of which may be [undefined], as its
    entries in the order of [Object.entries]; the keys of an object are
    distinct.  [obj[key]]: *)
Definition Object_get (key : string) (entries : list (string * option string))
    : option string :=
  match list_find (fun kv => kv.1 = key) entries with
  | Some (_, (_, value)) => value
  | None => None
  end.

(** [object[key] = value] on an object made with [{}], as far as the own
    properties of the object go: under the key [__proto__] the assignment
    reaches the setter the object inherits, and no property is created. *)
Definition Object_set {A : Type} (key : string) (value : A) (object : gmap string A)
    : gmap string A :=
  if String.eqb key "__proto__" then object else <[key := value]> object.

(** [a || b] on values that are a string or [undefined]. *)
Definition or_else (a b : option string) : option string :=
  if string_truthy a then a else b.

(** [s.replace(pattern, replacement)] with a string as pattern and a
    replacement without [$]: the first occurrence is replaced; the empty
    pattern occurs at the start. *)
Fixpoint String_drop (n : nat) (s : string) : string :=
  match n, s with
  | S n, String _ rest => String_drop n rest
  | _, _ => s
  end.

Fixpoint String_replace (pattern replacement s : string) : string :=
  if String.eqb pattern "" then replacement +:+ s
  else
    match s with
    | EmptyString => EmptyString
    | String c rest =>
        if String.prefix pattern s
        then replacement +:+ String_drop (String.length pattern) s
        else String c (String_replace pattern replacement rest)
    end.

(** ** [types.ts] and the events in full *)

Module Event.

(** [requestContext.http] of a format-B event. *)
Record Http : Type := {
  method : string;
  protocol : string;
  sourceIp : option string;
}.

(** [requestContext]: [protocol] is there for format A, [http] for format
    B; [identity_sourceIp] is [requestContext.identity?.sourceIp]. *)
Record RequestContext : Type := {
  context_protocol : option string;
  http : option Http;
  identity_sourceIp : option string;
}.

(** An event with the properties the getters and the utilities read,
    besides those of [APIGatewayEvent]. *)
Record t : Type := mk {
  base : APIGatewayEvent;
  headers : Field (list (string * option string));
  routeKey : option string;
  requestContext : option RequestContext;
}.

End Event.

(** [isAPIGatewayV1] and [isAPIGatewayV2], the structural type guards. *)
Definition isAPIGatewayV1 (event : Event.t) : bool :=
  bool_decide (is_Some (httpMethod (Event.base event))).

Definition isAPIGatewayV2 (event : Event.t) : bool :=
  match Event.requestContext event with
  | Some context => bool_decide (is_Some (Event.http context))
  | None => false
  end.

(** [isApiGatewayV1] and [isApiGatewayV2], the guards by detected version. *)
Definition isApiGatewayV1 (event : Event.t) : bool :=
  match detectApiGatewayVersion (Event.base event) with
  | v1 => true
  | v2 => false
  end.

Definition isApiGatewayV2 (event : Event.t) : bool :=
  match detectApiGatewayVersion (Event.base event) with
  | v2 => true
  | v1 => false
  end.

Definition validateApiGatewayEvent (event : Event.t) : bool :=
  match detectApiGatewayVersion (Event.base event) with
  | v1 => string_truthy (httpMethod (Event.base event))
          && string_truthy (path (Event.base event))
  | v2 => string_truthy (Event.routeKey event)
          && string_truthy (rawPath (Event.base event))
  end.

(** ** [lambda-incoming-message.ts]: the getters *)

Module IncomingMessage.

(** The loop shared by the three header getters: the entries of
    [event.headers] whose value is not [undefined].  With [headers] holding
    [null], [Object.entries] throws. *)
Definition defined_entries (event : Event.t) : completion (list (string * string)) :=
  match Event.headers event with
  | Absent => Returns []
  | Null => Throws "Cannot convert undefined or null to object"
  | Present entries =>
      Returns (omap (fun kv => match kv.2 with
                               | Some value => Some (kv.1, value)
                               | None => None
                               end) entries)
  end.

(** [get headers()]: [headers[key.toLowerCase()] = value], entry after
    entry; the own properties of the object returned. *)
Definition headers (event : Event.t) : completion (gmap string string) :=
  match defined_entries event with
  | Returns entries =>
      Returns (fold_left (fun h kv => Object_set (String_toLowerCase kv.1) kv.2 h)
                 entries ∅)
  | Throws message => Throws message
  end.

(** [get headersDistinct()]: [headers[key.toLowerCase()] = [value]]; the
    own properties of the object returned. *)
Definition headersDistinct (event : Event.t) : completion (gmap string (list string)) :=
  match defined_entries event with
  | Returns entries =>
      Returns (fold_left (fun h kv => Object_set (String_toLowerCase kv.1) [kv.2] h)
                 entries ∅)
  | Throws message => Throws message
  end.

(** [get rawHeaders()]: [rawHeaders.push(key, value)]. *)
Definition rawHeaders (event : Event.t) : completion (list string) :=
  match defined_entries event with
  | Returns entries =>
      Returns (fold_left (fun raw kv => raw ++ [kv.1; kv.2]) entries [])
  | Throws message => Throws message
  end.

(** [get method()]. *)
Definition method (event : Event.t) : option string :=
  match httpMethod (Event.base event) with
  | Some m => Some m
  | None =>
      match Event.requestContext event with
      | Some context => Event.method <$> Event.http context
      | None => None
      end
  end.

(** [get httpVersion()]: the protocol of the context, or else of
    [requestContext.http], without its first "HTTP/"; "1.1" without
    either. *)
Definition httpVersion (event : Event.t) : string :=
  match Event.requestContext event with
  | Some context =>
      match Event.context_protocol context with
      | Some protocol => String_replace "HTTP/" "" protocol
      | None =>
          match Event.http context with
          | Some http => String_replace "HTTP/" "" (Event.protocol http)
          | None => "1.1"
          end
      end
  | None => "1.1"
  end.

(** [get httpVersionMajor()] and [get httpVersionMinor()]: [parseInt] of
    the first and of the second piece between dots; of [undefined], which
    is not a number, without a second piece. *)
Definition httpVersionMajor (event : Event.t) : number :=
  match String_split "." (httpVersion event) !! 0 with
  | Some piece => parseInt piece
  | None => NaN
  end.

Definition httpVersionMinor (event : Event.t) : number :=
  match String_split "." (httpVersion event) !! 1 with
  | Some piece => parseInt piece
  | None => NaN
  end.

(** [destroy(error)] of the adapter calls [this._socket.destroy(error)],
    and [_socket] is the adapter itself: as with [setTimeout], the call
    comes back to this method until the call stack, [depth] frames deep, is
    used up. *)
Fixpoint destroy (depth : nat) (error : option string) (m : LambdaIncomingMessage.t)
    : LambdaIncomingMessage.t * completion unit :=
  match depth with
  | O => (m, Throws "Maximum call stack size exceeded")
  | S depth => destroy depth error m
  end.

End IncomingMessage.

(** ** [util.ts]: the utilities *)

(** [normalizeHeaders(headers)]; [None] is [null].  The own properties of
    the object returned. *)
Definition normalizeHeaders (headers : option (list (string * string)))
    : gmap string string :=
  match headers with
  | None => ∅
  | Some entries =>
      fold_left (fun normalized kv =>
                   Object_set (String_toLowerCase kv.1) kv.2 normalized)
        entries ∅
  end.

(** [event.headers || {}]. *)
Definition headers_or_empty (event : Event.t) : list (string * option string) :=
  match Event.headers event with
  | Present entries => entries
  | Absent | Null => []
  end.

Definition isSecure (event : Event.t) : bool :=
  let headers := headers_or_empty event in
  let forwardedProto :=
    or_else (Object_get "x-forwarded-proto" headers)
            (Object_get "X-Forwarded-Proto" headers) in
  bool_decide (forwardedProto = Some "https").

Definition isXHR (event : Event.t) : bool :=
  let headers := headers_or_empty event in
  let xRequestedWith :=
    or_else (Object_get "x-requested-with" headers)
            (Object_get "X-Requested-With" headers) in
  bool_decide (xRequestedWith = Some "XMLHttpRequest").

(** [event.requestContext?.identity?.sourceIp] and
    [event.requestContext?.http?.sourceIp]. *)
Definition identity_sourceIp (event : Event.t) : option string :=
  match Event.requestContext event with
  | Some context => Event.identity_sourceIp context
  | None => None
  end.

Definition http_sourceIp (event : Event.t) : option string :=
  match Event.requestContext event with
  | Some context =>
      match Event.http context with
      | Some http => Event.sourceIp http
      | None => None
      end
  | None => None
  end.

(** [getClientIP(event)]: the first truthy of the two spellings of the
    header and the source address of the context, else 127.0.0.1. *)
Definition getClientIP (event : Event.t) : string :=
  let headers := headers_or_empty event in
  let forwarded :=
    or_else (Object_get "x-forwarded-for" headers)
            (Object_get "X-Forwarded-For" headers) in
  if isAPIGatewayV1 event then
    default "127.0.0.1"
      (or_else (or_else forwarded (identity_sourceIp event))
               (Some "127.0.0.1"))
  else if isAPIGatewayV2 event then
    default "127.0.0.1"
      (or_else (or_else forwarded (http_sourceIp event))
               (Some "127.0.0.1"))
  else "127.0.0.1".

(** [getHostname(event)]: the host header up to its first colon. *)
Definition getHostname (event : Event.t) : string :=
  let headers := headers_or_empty event in
  let host := or_else (Object_get "host" headers) (Object_get "Host" headers) in
  if string_truthy host
  then default "" (head (String_split ":" (default "" host)))
  else "localhost".

(** [parsePath(event)]. *)
Definition parsePath (event : Event.t) : string :=
  if isAPIGatewayV1 event then
    default "/" (or_else (path (Event.base event)) (Some "/"))
  else if isAPIGatewayV2 event then
    default "/" (or_else (rawPath (Event.base event)) (Some "/"))
  else "/".

(** [getSubdomains(hostname, offset)], with the module variable
    [AppSubdomainLength] (2 unless [setAppSubdomainLength] changed it) as
    first argument. *)
Definition getSubdomains (AppSubdomainLength : Z) (hostname : string) (offset : Z)
    : list string :=
  let offset := if (0 <? AppSubdomainLength)%Z then (offset + AppSubdomainLength)%Z
                else offset in
  let parts := String_split "." hostname in
  if (Z.of_nat (length parts) <=? offset)%Z then []
  else take (Z.to_nat (Z.of_nat (length parts) - offset)) parts.

(** [prettyPrintBuffer(buffer)]. *)
Definition prettyPrintBuffer (buffer : Chunk) : string :=
  match buffer with
  | ChunkString s => "String[" +:+ s +:+ "]"
  | ChunkBuffer b =>
      "Buffer["
        +:+ string_of_list_ascii
              (map (fun char => if ((Byte.to_N char <? 32) || (126 <? Byte.to_N char))%N
                                then "."%char
                                else char_of_octet char) b)
        +:+ "]"
  end.

(** ** [util.ts]: the response transport *)

(** [String(n)] for a number: the decimal digits of an integer (below
    10^21 in size, from where on the runtime prints an exponent). *)
Definition Number_toString (n : number) : string :=
  match n with
  | NaN => "NaN"
  | Num z => NilZero.string_of_int (Z.to_int z)
  end.

Module ResponseTransport.

(** A header value, [string | number | (string | number)[]]. *)
Inductive Scalar : Type :=
  | ScalarString (s : string)
  | ScalarNumber (n : number).

Inductive Header : Type :=
  | Single (value : Scalar)
  | Several (values : list Scalar).

(** [_body]: [null], one chunk, or an array of chunks.  A chunk is a buffer
    or a string. *)
Inductive Body : Type :=
  | BodyNull
  | BodyChunk (chunk : Chunk)
  | BodyArray (chunks : list Chunk).

(** What the transport lets the outside observe, oldest first: the events
    it emits on its event emitter and the calls of the callbacks it was
    given, with the error passed, if any.  A callback is known by a tag; it
    returns, and does not call back into the transport. *)
Inductive Output : Type :=
  | OnError (message : string)
  | OnClose
  | OnFinish
  | OnTimeout
  | Called (tag : nat) (error : option string).

(** The timer held in [_timeout]: the runtime timer, the callback of the
    closure, and whether the timer is still to fire. *)
Record Timer : Type := {
  handle : Timeout;
  timer_callback : option nat;
  pending : bool;
}.

(** The header store is an object made with [{}] and keyed by lower-cased
    names; [_headers] holds its own properties.  The header functions are
    modelled for names that are, in lower case, neither [constructor] nor
    [__proto__]: these two every object inherits, so that a lookup finds
    them in a store that does not hold them, and an assignment under
    [__proto__] creates no property. *)
Record t : Type := mk {
  _headers : gmap string Header;
  _body : Body;
  _statusCode : number;
  _headersSent : bool;
  _timeout : option Timer;
  _destroyed : bool;
  output : list Output;
}.

Definition new : t :=
  {| _headers := ∅; _body := BodyNull; _statusCode := Num 200;
     _headersSent := false; _timeout := None; _destroyed := false;
     output := [] |}.

Definition set_headers (headers : gmap string Header) (r : t) : t :=
  {| _headers := headers; _body := _body r; _statusCode := _statusCode r;
     _headersSent := _headersSent r; _timeout := _timeout r;
     _destroyed := _destroyed r; output := output r |}.

Definition set_body (body : Body) (r : t) : t :=
  {| _headers := _headers r; _body := body; _statusCode := _statusCode r;
     _headersSent := _headersSent r; _timeout := _timeout r;
     _destroyed := _destroyed r; output := output r |}.

(** [set statusCode(value)] and [set headersSent(value)]. *)
Definition set_statusCode (value : number) (r : t) : t :=
  {| _headers := _headers r; _body := _body r; _statusCode := value;
     _headersSent := _headersSent r; _timeout := _timeout r;
     _destroyed := _destroyed r; output := output r |}.

Definition set_headersSent (value : bool) (r : t) : t :=
  {| _headers := _headers r; _body := _body r; _statusCode := _statusCode r;
     _headersSent := value; _timeout := _timeout r;
     _destroyed := _destroyed r; output := output r |}.

Definition set_timeout (timer : option Timer) (r : t) : t :=
  {| _headers := _headers r; _body := _body r; _statusCode := _statusCode r;
     _headersSent := _headersSent r; _timeout := timer;
     _destroyed := _destroyed r; output := output r |}.

Definition set_destroyed (value : bool) (r : t) : t :=
  {| _headers := _headers r; _body := _body r; _statusCode := _statusCode r;
     _headersSent := _headersSent r; _timeout := _timeout r;
     _destroyed := value; output := output r |}.

Definition emit (outputs : list Output) (r : t) : t :=
  {| _headers := _headers r; _body := _body r; _statusCode := _statusCode r;
     _headersSent := _headersSent r; _timeout := _timeout r;
     _destroyed := _destroyed r; output := output r ++ outputs |}.

(** [get headersSent()] and [get statusCode()]. *)
Definition headersSent (r : t) : bool := _headersSent r.

Definition statusCode (r : t) : number := _statusCode r.

(** *** Headers *)

Definition setHeader (name : string) (value : Header) (r : t) : t :=
  set_headers (<[String_toLowerCase name := value]> (_headers r)) r.

(** [setHeaders(headers)], over the entries of the object given. *)
Definition setHeaders (headers : list (string * Header)) (r : t) : t :=
  fold_left (fun r entry => setHeader entry.1 entry.2 r) headers r.

(** [getHeader(name)] and [hasHeader(name)], for a name that is not
    inherited. *)
Definition getHeader (name : string) (r : t) : option Header :=
  _headers r !! String_toLowerCase name.

Definition getHeaders (r : t) : gmap string Header := _headers r.

Definition hasHeader (name : string) (r : t) : bool :=
  bool_decide (is_Some (_headers r !! String_toLowerCase name)).

Definition removeHeader (name : string) (r : t) : t :=
  set_headers (delete (String_toLowerCase name) (_headers r)) r.

(** Truthiness of a string or a number: the empty string, 0 and [NaN] are
    falsy. *)
Definition Scalar_truthy (v : Scalar) : bool :=
  match v with
  | ScalarString s => negb (String.eqb s "")
  | ScalarNumber n => number_truthy n
  end.

(** [appendHeader(name, value)]: what is there is kept when it is truthy,
    as an array is, and [undefined] is not. *)
Definition appendHeader (name : string) (value : Header) (r : t) : t :=
  let newValue := match value with
                  | Several values => values
                  | Single v => [v]
                  end in
  match getHeader name r with
  | Some (Several existing) => setHeader name (Several (existing ++ newValue)) r
  | Some (Single existing) =>
      if Scalar_truthy existing then setHeader name (Several (existing :: newValue)) r
      else setHeader name value r
  | None => setHeader name value r
  end.

(** The second argument of [writeHead]: nothing, a status message, or
    headers. *)
Inductive HeadArgument : Type :=
  | NoHeadArgument
  | StatusMessage (message : string)
  | HeadHeaders (headers : list (string * Header)).

Definition writeHead (statusCode : number) (statusMessageOrHeaders : HeadArgument)
    (headers : option (list (string * Header))) (r : t) : t :=
  let r := set_statusCode statusCode r in
  let r :=
    match statusMessageOrHeaders with
    | StatusMessage _ =>
        match headers with
        | Some headers => setHeaders headers r
        | None => r
        end
    | HeadHeaders headers => setHeaders headers r
    | NoHeadArgument => r
    end in
  set_headersSent true r.

Definition flushHeaders (r : t) : t := set_headersSent true r.

(** *** The body *)

(** The second argument of [write] and of [end]: nothing, an encoding, or
    a callback. *)
Inductive WriteArgument : Type :=
  | NoArgument
  | Encoding (encoding : string)
  | Callback (tag : nat).

(** The callback [write] reports to: the second argument when that is a
    function, else the third. *)
Definition write_callback (encodingOrCallback : WriteArgument)
    (callback : option nat) : option nat :=
  match encodingOrCallback with
  | Callback tag => Some tag
  | _ => callback
  end.

Definition report (callback : option nat) (error : option string) (r : t) : t :=
  match callback with
  | Some tag => emit [Called tag error] r
  | None => r
  end.

Definition write (chunk : Chunk) (encodingOrCallback : WriteArgument)
    (callback : option nat) (r : t) : t * bool :=
  if _destroyed r then
    (report (write_callback encodingOrCallback callback)
       (Some "Cannot write to destroyed stream") r,
     false)
  else
    let r :=
      match _body r, chunk with
      | BodyNull, _ => set_body (BodyChunk chunk) r
      | BodyChunk (ChunkString body), ChunkString s =>
          set_body (BodyChunk (ChunkString (body +:+ s))) r
      | BodyChunk body, _ => set_body (BodyArray ([body] ++ [chunk])) r
      | BodyArray body, _ => set_body (BodyArray (body ++ [chunk])) r
      end in
    (report (write_callback encodingOrCallback callback) None r, true).

(** [end(chunk, encodingOrCallback, callback)] with a chunk or without. *)
Definition end_ (chunk : option Chunk) (encodingOrCallback : WriteArgument)
    (callback : option nat) (r : t) : t :=
  let r :=
    match chunk with
    | Some chunk =>
        (write chunk
           (match encodingOrCallback with
            | Encoding e => Encoding e
            | _ => NoArgument
            end) None r).1
    | None => r
    end in
  let r := set_headersSent true r in
  let r := report (write_callback encodingOrCallback callback) None r in
  emit [OnFinish; OnClose] r.

(** *** Timeout and destruction *)

(** [clearTimeout(this._timeout)] where there is one. *)
Definition clear_timer (r : t) : t :=
  match _timeout r with
  | Some timer =>
      set_timeout (Some {| handle := handle timer;
                           timer_callback := timer_callback timer;
                           pending := false |}) r
  | None => r
  end.

Definition setTimeout (now : Z) (msecs : Z) (callback : option nat) (r : t) : t :=
  let r := clear_timer r in
  set_timeout (Some {| handle := runtime_setTimeout now msecs;
                       timer_callback := callback;
                       pending := true |}) r.

(** The event loop's timer phase at clock reading [now]: a pending timer
    that is due runs its closure, which calls the callback, if any, and
    then emits [timeout]. *)
Definition run_timers (now : Z) (r : t) : t :=
  match _timeout r with
  | Some timer =>
      if pending timer && Timeout_due now (handle timer) then
        let r := set_timeout (Some {| handle := handle timer;
                                      timer_callback := timer_callback timer;
                                      pending := false |}) r in
        emit [OnTimeout] (report (timer_callback timer) None r)
      else r
  | None => r
  end.

Definition destroy (error : option string) (r : t) : t :=
  if _destroyed r then r
  else
    let r := set_destroyed true r in
    let r := clear_timer r in
    let r := match error with
             | Some message => emit [OnError message] r
             | None => r
             end in
    emit [OnClose] r.

(** *** The result *)

Record Result : Type := {
  result_statusCode : number;
  result_headers : gmap string Scalar;
  result_body : string;
  result_isBase64Encoded : bool;
}.

Definition Scalar_toString (v : Scalar) : string :=
  match v with
  | ScalarString s => s
  | ScalarNumber n => Number_toString n
  end.

(** [String(chunk)]. *)
Definition Chunk_toString (chunk : Chunk) : string :=
  match chunk with
  | ChunkString s => s
  | ChunkBuffer b => Buffer_toString b
  end.

(** [this._body ? String(this._body) : ''].  An array prints its elements
    with commas between them. *)
Definition body_text (body : Body) : string :=
  match body with
  | BodyNull => ""
  | BodyChunk (ChunkString s) => if negb (String.eqb s "") then s else ""
  | BodyChunk chunk => Chunk_toString chunk
  | BodyArray chunks => Array_join "," (map Chunk_toString chunks)
  end.

Definition toAPIGatewayResult (r : t) : Result :=
  let headers :=
    map_fold (fun key value headers =>
                match value with
                | Several values =>
                    <[key := ScalarString (Array_join ", " (map Scalar_toString values))]>
                      headers
                | Single v => <[key := v]> headers
                end) ∅ (_headers r) in
  {| result_statusCode := _statusCode r;
     result_headers := headers;
     result_body := body_text (_body r);
     result_isBase64Encoded := false |}.

End ResponseTransport.

(** Calls on a response transport and the passing of time, and where they
    lead from a clock reading and a transport. *)
Inductive TransportCall : Type :=
  | TransportSetHeader (name : string) (value : ResponseTransport.Header)
  | TransportSetHeaders (headers : list (string * ResponseTransport.Header))
  | TransportAppendHeader (name : string) (value : ResponseTransport.Header)
  | TransportRemoveHeader (name : string)
  | TransportWriteHead (statusCode : number)
      (statusMessageOrHeaders : ResponseTransport.HeadArgument)
      (headers : option (list (string * ResponseTransport.Header)))
  | TransportFlushHeaders
  | TransportWrite (chunk : Chunk) (encodingOrCallback : ResponseTransport.WriteArgument)
      (callback : option nat)
  | TransportEnd (chunk : option Chunk)
      (encodingOrCallback : ResponseTransport.WriteArgument) (callback : option nat)
  | TransportDestroy (error : option string)
  | TransportSetTimeout (msecs : Z) (callback : option nat)
  | TransportWait (ms : nat)
  | TransportTimers.

Definition transport_step (call : TransportCall) (w : Z * ResponseTransport.t)
    : Z * ResponseTransport.t :=
  match call with
  | TransportSetHeader name value => (w.1, ResponseTransport.setHeader name value w.2)
  | TransportSetHeaders headers => (w.1, ResponseTransport.setHeaders headers w.2)
  | TransportAppendHeader name value =>
      (w.1, ResponseTransport.appendHeader name value w.2)
  | TransportRemoveHeader name => (w.1, ResponseTransport.removeHeader name w.2)
  | TransportWriteHead statusCode statusMessageOrHeaders headers =>
      (w.1, ResponseTransport.writeHead statusCode statusMessageOrHeaders headers w.2)
  | TransportFlushHeaders => (w.1, ResponseTransport.flushHeaders w.2)
  | TransportWrite chunk encodingOrCallback callback =>
      (w.1, (ResponseTransport.write chunk encodingOrCallback callback w.2).1)
  | TransportEnd chunk encodingOrCallback callback =>
      (w.1, ResponseTransport.end_ chunk encodingOrCallback callback w.2)
  | TransportDestroy error => (w.1, ResponseTransport.destroy error w.2)
  | TransportSetTimeout msecs callback =>
      (w.1, ResponseTransport.setTimeout w.1 msecs callback w.2)
  | TransportWait ms => ((w.1 + Z.of_nat ms)%Z, w.2)
  | TransportTimers => (w.1, ResponseTransport.run_timers w.1 w.2)
  end.

Definition transport_run (calls : list TransportCall) (w : Z * ResponseTransport.t)
    : Z * ResponseTransport.t :=
  fold_left (fun w call => transport_step call w) calls w.

(** ** [index.ts] *)

(** [createRequestResponsePair(event)]: the request adapter of the event
    and a response bound to it; [status] is what the inherited constructor
    of the response leaves as [statusCode]. *)
Definition createRequestResponsePair (status : option StatusCode) (event : Event.t)
    : LambdaIncomingMessage.t * LambdaResponse.t :=
  let request := LambdaIncomingMessage.new (Event.base event) in
  let response := LambdaResponse.new status request in
  (request, response).

(** [appify(event, context, options)] up to the pair it returns: an event
    that is not valid is refused. *)
Definition appify (status : option StatusCode) (event : Event.t)
    : completion (LambdaIncomingMessage.t * LambdaResponse.t) :=
  if negb (validateApiGatewayEvent event) then Throws "Invalid API Gateway event"
  else Returns (createRequestResponsePair status event).

(** The listener [appify] registers for [finish], run on the response as it
    is when the event is emitted: what it resolves the result with, or what
    it throws. *)
Definition appify_on_finish (event : Event.t) (response : LambdaResponse.t)
    : completion APIGatewayResult :=
  match detectApiGatewayVersion (Event.base event) with
  | v2 => LambdaResponse.lambdaResponseV2 response
  | v1 => Returns (LambdaResponse.lambdaResponse response)
  end.

(** * Further vocabulary: the endpoint *)

(** The length of the read source of an endpoint; 0 without one. *)
Definition read_source_length (s : EventWrapperSocket.t) : nat :=
  from_option Chunk_length 0 (EventWrapperSocket._readBody s).

(** The octets the write calls of a sequence of actions contribute, and
    the lengths they are counted with, in order. *)
Definition written_octets (actions : list Action) : Buffer :=
  concat (omap (fun a => match a with
                         | CallWrite chunk encoding => Some (call_octets (chunk, encoding))
                         | _ => None
                         end) actions).

Definition written_lengths (actions : list Action) : nat :=
  sum_list (omap (fun a => match a with
                           | CallWrite chunk _ => Some (Chunk_length chunk)
                           | _ => None
                           end) actions).

(** Every code unit of a string is below 128. *)
Fixpoint all_ascii (s : string) : bool :=
  match s with
  | EmptyString => true
  | String c rest => (code_unit c <? 128)%N && all_ascii rest
  end.

(** A write whose string, if it is one, becomes one octet per code unit:
    any string in [latin1] or [ascii], an ASCII string in [utf8]. *)
Definition one_octet_per_unit (call : Chunk * BufferEncoding) : bool :=
  match call with
  | (ChunkBuffer _, _) => true
  | (ChunkString _, (latin1 | ascii)) => true
  | (ChunkString s, utf8) => all_ascii s
  | (ChunkString _, _) => false
  end.


(** * Further vocabulary: results *)

(** A character in the printable ASCII range, and a string of such
    characters only. *)
Definition printable_char (c : Ascii.ascii) : bool :=
  ((32 <=? code_unit c) && (code_unit c <=? 126))%N.

Fixpoint all_printable (s : string) : bool :=
  match s with
  | EmptyString => true
  | String c rest => printable_char c && all_printable rest
  end.

(** What [_makeHeaders] makes of the value stored under a key. *)
Definition materialized_header (key : string) (stored : option OutgoingHttpHeader)
    : option HeaderValue :=
  match stored with
  | Some (HeaderString s) => Some (ValueString s)
  | Some (HeaderNumber n) => Some (ValueNumber n)
  | Some (HeaderArray l) =>
      Some (ValueString (Array_join (if String.eqb key "set-cookie" then "; " else ",") l))
  | Some HeaderUndefined | None => None
  end.

(** A cookie that [split] on "; " leaves in one piece. *)
Definition single_cookie (cookie : string) : Prop :=
  String_split "; " cookie = [cookie].

(** * Further vocabulary: headers and host names *)

(** The defined values the entries of an object hold under keys that are
    [key] in lower case, in the order of the entries. *)
Definition header_values (key : string) (entries : list (string * option string))
    : list string :=
  omap (fun kv => if decide (String_toLowerCase kv.1 = key) then kv.2 else None) entries.

(** The pairs of a list of alternating keys and values. *)
Fixpoint pairs_of_raw (raw : list string) : list (string * string) :=
  match raw with
  | key :: value :: rest => (key, value) :: pairs_of_raw rest
  | _ => []
  end.

(** The host header [getHostname] goes by. *)
Definition host_header (event : Event.t) : option string :=
  or_else (Object_get "host" (headers_or_empty event))
          (Object_get "Host" (headers_or_empty event)).

(** The number of trailing labels [getSubdomains] leaves out. *)
Definition effective_offset (AppSubdomainLength offset : Z) : Z :=
  if (0 <? AppSubdomainLength)%Z then (offset + AppSubdomainLength)%Z else offset.

(** * Further vocabulary: the URL *)

(** The path [_parseUrl] starts from: [path] where the event has one, else
    [rawPath], else empty. *)
Definition url_path (event : APIGatewayEvent) : string :=
  match path event with
  | Some p => p
  | None => default "" (rawPath event)
  end.

(** The characters of a form-encoded query: letters, digits and [* - . _]
    as they are, [+] for a space, [%] with two hexadecimal digits for the
    rest, [=] and [&] between names and values. *)
Definition query_char (c : Ascii.ascii) : bool :=
  let n := code_unit c in
  ((48 <=? n) && (n <=? 57) || (65 <=? n) && (n <=? 90)
   || (97 <=? n) && (n <=? 122)
   || (n =? 42) || (n =? 45) || (n =? 46) || (n =? 95)
   || (n =? 43) || (n =? 37) || (n =? 61) || (n =? 38))%N.

Fixpoint all_query_chars (s : string) : bool :=
  match s with
  | EmptyString => true
  | String c rest => query_char c && all_query_chars rest
  end.

(** The protocol [httpVersion] goes by: that of the context, or else that
    of [requestContext.http]. *)
Definition event_protocol (event : Event.t) : option string :=
  match Event.requestContext event with
  | Some context =>
      match Event.context_protocol context with
      | Some protocol => Some protocol
      | None => Event.protocol <$> Event.http context
      end
  | None => None
  end.

(** The number a numeric string stands for. *)
Definition numeric_value (d : Decimal.uint) : number :=
  Num (Z.of_N (N.of_uint d)).

(** * Further vocabulary: the response transport *)

(** The chunks a sequence of calls writes, in order. *)
Definition written_chunks (calls : list TransportCall) : list Chunk :=
  omap (fun call => match call with
                    | TransportWrite chunk _ _ => Some chunk
                    | TransportEnd chunk _ _ => chunk
                    | _ => None
                    end) calls.

Definition is_destroy (call : TransportCall) : bool :=
  match call with
  | TransportDestroy _ => true
  | _ => false
  end.

(** A chunk whose text is read off its octets one by one: a string, or a
    buffer of octets below 128. *)
Definition ascii_chunk (chunk : Chunk) : bool :=
  match chunk with
  | ChunkString _ => true
  | ChunkBuffer b => forallb (fun o => (Byte.to_N o <? 128)%N) b
  end.

(** The strings a list of chunks starts with, run together, and the chunks
    from the first buffer on. *)
Fixpoint leading_text (chunks : list Chunk) : string * list Chunk :=
  match chunks with
  | ChunkString s :: rest =>
      let '(text, others) := leading_text rest in (s +:+ text, others)
  | _ => ("", chunks)
  end.

(** The pieces of a body: the strings written first as one piece, and one
    piece for every chunk from the first buffer on. *)
Definition body_pieces (chunks : list Chunk) : list string :=
  match chunks with
  | [] => []
  | ChunkString _ :: _ =>
      let '(text, others) := leading_text chunks in
      text :: map ResponseTransport.Chunk_toString others
  | ChunkBuffer _ :: _ => map ResponseTransport.Chunk_toString chunks
  end.

(** Calls that neither end the response, nor install a timeout, nor touch
    the status and the headers. *)
Definition write_destroy_or_wait (call : TransportCall) : bool :=
  match call with
  | TransportWrite _ _ _ | TransportDestroy _ | TransportWait _ | TransportTimers => true
  | _ => false
  end.

(** The report of a refused write to the callback [tag]. *)
Definition refused_write (o : ResponseTransport.Output) : Prop :=
  exists tag, o = ResponseTransport.Called tag (Some "Cannot write to destroyed stream").

(** A header name that is not one every object inherits. *)
Definition own_header_name (name : string) : Prop :=
  String_toLowerCase name <> "constructor"
  /\ String_toLowerCase name <> "__proto__".

(** [appendHeader] for each of the names and string values, in order. *)
Definition append_all (values : list (string * string)) (r : ResponseTransport.t)
    : ResponseTransport.t :=
  fold_left (fun r nv =>
               ResponseTransport.appendHeader nv.1
                 (ResponseTransport.Single (ResponseTransport.ScalarString nv.2)) r)
    values r.

(** Every key of the header store is in lower case. *)
Definition lower_case_keys (r : ResponseTransport.t) : Prop :=
  forall key, is_Some (ResponseTransport._headers r !! key) ->
              String_toLowerCase key = key.

(** Waiting and timer phases only. *)
Definition wait_or_timers (call : TransportCall) : bool :=
  match call with
  | TransportWait _ | TransportTimers => true
  | _ => false
  end.

(** What one firing of the transport's timer gives: the call of the
    callback, if there is one, and then [timeout]. *)
Definition transport_firing (callback : option nat) : list ResponseTransport.Output :=
  match callback with
  | Some tag => [ResponseTransport.Called tag None]
  | None => []
  end ++ [ResponseTransport.OnTimeout].

(** * Properties *)

(** ** Octets and base64 *)

Ltac Zify.zify_post_hook ::= Z.to_euclidean_division_equations.

Lemma to_N_lt_256 (b : byte) : (Byte.to_N b < 256)%N.
Proof. pose proof (Byte.to_N_bounded b). lia. Qed.


Lemma to_N_octet (n : N) : (n < 256)%N -> Byte.to_N (octet n) = n.
Proof.
  intros Hn. unfold octet. rewrite N.mod_small by done.
  destruct (Byte.of_N n) as [b|] eqn:Hb.
  - by apply Byte.to_of_N.
  - apply Byte.of_N_None_iff in Hb. lia.
Qed.




(** A three-step induction principle for buffers, following the encoder. *)
Lemma Buffer_ind3 (P : Buffer -> Prop) :
  P [] ->
  (forall a, P [a]) ->
  (forall a b, P [a; b]) ->
  (forall a b c rest, P rest -> P (a :: b :: c :: rest)) ->
  forall bs, P bs.
Proof.
  intros H0 H1 H2 H3.
  assert (H : forall bs, P bs /\ (forall a, P (a :: bs)) /\ (forall a b, P (a :: b :: bs))).
  { induction bs as [|c bs (IH0 & IH1 & IH2)]; [by auto|].
    repeat split; auto. }
  intros bs. apply H.
Qed.



(** ** The response body sink *)

Lemma writer_write_body (chunk : Chunk) (encoding : BufferEncoding)
    (w : EventResponseBodyWriter.t) :
  EventResponseBodyWriter.body (EventResponseBodyWriter._write chunk encoding w)
  = EventResponseBodyWriter.body w ++ call_octets (chunk, encoding).
Proof.
  unfold EventResponseBodyWriter.body, Buffer_concat, call_octets.
  destruct chunk; cbn; by rewrite concat_app; cbn; rewrite app_nil_r.
Qed.

Lemma writer_writes_body (calls : list (Chunk * BufferEncoding))
    (w : EventResponseBodyWriter.t) :
  EventResponseBodyWriter.body (EventResponseBodyWriter.writes calls w)
  = EventResponseBodyWriter.body w ++ concat (map call_octets calls).
Proof.
  revert w. induction calls as [|[chunk encoding] calls IH]; intros w.
  - cbn. by rewrite app_nil_r.
  - cbn [EventResponseBodyWriter.writes fold_left map concat fst snd].
    fold (EventResponseBodyWriter.writes calls).
    rewrite IH, writer_write_body. by rewrite <- app_assoc.
Qed.

(** C5.  After any sequence of writes to a fresh body sink, the
    materialized body is the concatenation, in call order, of what each call
    contributes: the buffer itself, or the octets of the string in the
    encoding supplied with it. *)
Theorem writer_body_is_concatenation_of_writes
    (calls : list (Chunk * BufferEncoding)) :
  EventResponseBodyWriter.body
    (EventResponseBodyWriter.writes calls EventResponseBodyWriter.new)
  = concat (map call_octets calls).
Proof. by rewrite writer_writes_body. Qed.

(** The counter adds up [chunk.length] of the chunks as they were given. *)
Lemma writer_bytesWritten_sum (calls : list (Chunk * BufferEncoding))
    (w : EventResponseBodyWriter.t) :
  EventResponseBodyWriter.bytesWritten (EventResponseBodyWriter.writes calls w)
  = EventResponseBodyWriter.bytesWritten w
    + sum_list (map (fun call => Chunk_length call.1) calls).
Proof.
  revert w. induction calls as [|[chunk encoding] calls IH]; intros w.
  - cbn. lia.
  - cbn [EventResponseBodyWriter.writes fold_left map sum_list fst snd].
    fold (EventResponseBodyWriter.writes calls).
    rewrite IH. destruct chunk; cbn; lia.
Qed.

(** For buffer chunks the counter is the length of the body. *)
Lemma writer_bytesWritten_buffers (buffers : list Buffer) :
  let calls := map (fun b => (ChunkBuffer b, utf8)) buffers in
  let w := EventResponseBodyWriter.writes calls EventResponseBodyWriter.new in
  EventResponseBodyWriter.bytesWritten w = length (EventResponseBodyWriter.body w).
Proof.
  cbn zeta. rewrite writer_bytesWritten_sum, writer_writes_body.
  change (EventResponseBodyWriter.body EventResponseBodyWriter.new) with (@nil byte).
  rewrite app_nil_l.
  cbn [EventResponseBodyWriter.bytesWritten EventResponseBodyWriter.new].
  rewrite Nat.add_0_l.
  induction buffers as [|b buffers IH]; [done|].
  cbn [map concat sum_list fst]. rewrite length_app, IH. reflexivity.
Qed.

(** The [_write] hook called with a string, as the stream does not call
    it, counts the length of the string and not the octets it pushes: the
    hexadecimal string "4142" gives two octets and is counted as four; the
    one-character string of code unit 233 (e with acute accent) gives two
    octets in UTF-8 and is counted as one. *)
Remark write_hook_counts_string_length :
  let e_acute := String (ascii_of_N 233) EmptyString in
  let w := EventResponseBodyWriter._write (ChunkString "4142") hex
             EventResponseBodyWriter.new in
  let w' := EventResponseBodyWriter._write (ChunkString e_acute) utf8
              EventResponseBodyWriter.new in
  (EventResponseBodyWriter.body w = ["A"%byte; "B"%byte]
   /\ EventResponseBodyWriter.bytesWritten w = 4)
  /\ (length (EventResponseBodyWriter.body w') = 2
      /\ EventResponseBodyWriter.bytesWritten w' = 1).
Proof. repeat split; reflexivity. Qed.

(** The endpoint accumulates and counts as the body sink does. *)
Lemma socket_write_accumulates (now : Z) (chunk : Chunk) (encoding : BufferEncoding)
    (s : EventWrapperSocket.t) :
  EventWrapperSocket._writeBufferContents (EventWrapperSocket._write now chunk encoding s)
  = EventWrapperSocket._writeBufferContents s ++ call_octets (chunk, encoding)
  /\ EventWrapperSocket.bytesWritten (EventWrapperSocket._write now chunk encoding s)
     = EventWrapperSocket.bytesWritten s + Chunk_length chunk.
Proof.
  unfold EventWrapperSocket._writeBufferContents, Buffer_concat, call_octets.
  destruct chunk; cbn; by rewrite concat_app; cbn; rewrite app_nil_r.
Qed.

Lemma writer_write_all (calls : list (Chunk * BufferEncoding))
    (w : EventResponseBodyWriter.t) :
  EventResponseBodyWriter.body (EventResponseBodyWriter.write_all calls w)
  = EventResponseBodyWriter.body w ++ concat (map call_octets calls)
  /\ EventResponseBodyWriter.bytesWritten (EventResponseBodyWriter.write_all calls w)
     = EventResponseBodyWriter.bytesWritten w + length (concat (map call_octets calls)).
Proof.
  revert w. induction calls as [|[chunk encoding] calls IH]; intros w.
  - cbn. rewrite app_nil_r. split; [done|lia].
  - change (EventResponseBodyWriter.write_all ((chunk, encoding) :: calls) w)
      with (EventResponseBodyWriter.write_all calls
              (EventResponseBodyWriter.write chunk encoding w)).
    cbn [map concat].
    destruct (IH (EventResponseBodyWriter.write chunk encoding w)) as [-> ->].
    rewrite length_app.
    destruct chunk as [b|s]; cbn [EventResponseBodyWriter.write];
      rewrite writer_write_body; unfold call_octets;
      cbn [fst snd EventResponseBodyWriter._write EventResponseBodyWriter.bytesWritten];
      (split; [by rewrite <- app_assoc|lia]).
Qed.

Lemma socket_write_all (calls : list (Z * (Chunk * BufferEncoding)))
    (s : EventWrapperSocket.t) :
  EventWrapperSocket._writeBufferContents (EventWrapperSocket.write_all calls s)
  = EventWrapperSocket._writeBufferContents s
    ++ concat (map (fun call => call_octets call.2) calls)
  /\ EventWrapperSocket.bytesWritten (EventWrapperSocket.write_all calls s)
     = EventWrapperSocket.bytesWritten s
       + length (concat (map (fun call => call_octets call.2) calls)).
Proof.
  revert s. induction calls as [|[now [chunk encoding]] calls IH]; intros s.
  - cbn. rewrite app_nil_r. split; [done|lia].
  - change (EventWrapperSocket.write_all ((now, (chunk, encoding)) :: calls) s)
      with (EventWrapperSocket.write_all calls
              (EventWrapperSocket.write now chunk encoding s)).
    cbn [map concat snd].
    destruct (IH (EventWrapperSocket.write now chunk encoding s)) as [-> ->].
    rewrite length_app.
    destruct chunk as [b|str]; cbn [EventWrapperSocket.write];
      match goal with
      | |- context [EventWrapperSocket._write ?n ?c ?e ?x] =>
          destruct (socket_write_accumulates n c e x) as [-> ->]
      end;
      unfold call_octets; cbn [fst snd Chunk_length];
      (split; [by rewrite <- app_assoc|lia]).
Qed.

(** C8.  After every sequence of [write(chunk, encoding)] calls, on the
    body sink and on the endpoint alike, the counter [bytesWritten] is the
    length in octets of the accumulated body, and the body is what the
    calls contribute in their order: a buffer as it is, a string as its
    octets in the encoding supplied with it.  A string chunk is so counted
    after its conversion, as a buffer chunk is. *)
Theorem bytesWritten_is_body_length_through_write
    (calls : list (Chunk * BufferEncoding))
    (timed_calls : list (Z * (Chunk * BufferEncoding))) (read_body : option Chunk) :
  let w := EventResponseBodyWriter.write_all calls EventResponseBodyWriter.new in
  let s := EventWrapperSocket.write_all timed_calls (EventWrapperSocket.new read_body) in
  EventResponseBodyWriter.body w = concat (map call_octets calls)
  /\ EventResponseBodyWriter.bytesWritten w = length (EventResponseBodyWriter.body w)
  /\ EventWrapperSocket._writeBufferContents s
     = concat (map (fun call => call_octets call.2) timed_calls)
  /\ EventWrapperSocket.bytesWritten s
     = length (EventWrapperSocket._writeBufferContents s).
Proof.
  cbn zeta.
  destruct (writer_write_all calls EventResponseBodyWriter.new) as [Hb Hc].
  destruct (socket_write_all timed_calls (EventWrapperSocket.new read_body)) as [Hb' Hc'].
  rewrite Hb, Hc, Hb', Hc'. repeat split.
Qed.

(** ** Body materialization *)

Lemma Buffer_some_unprintable (body : Buffer) :
  Buffer_some (fun c => (c <? 32) || (126 <? c))%N body
  = negb (forallb printable_ascii body).
Proof.
  unfold Buffer_some. induction body as [|b body IH]; [done|].
  cbn [existsb forallb]. rewrite IH, negb_andb. f_equal.
  unfold printable_ascii. rewrite negb_andb.
  by rewrite !N.ltb_antisym.
Qed.


Lemma code_unit_char_of_octet (b : byte) :
  code_unit (char_of_octet b) = Byte.to_N b.
Proof.
  unfold code_unit, char_of_octet. rewrite ascii_of_byte_via_N.
  apply N_ascii_embedding, to_N_lt_256.
Qed.



(** The content type, like every other header, has no part in it. *)
Lemma makeBodyResponse_octets_only (r r' : LambdaResponse.t) :
  EventResponseBodyWriter.body (LambdaResponse.socket r)
  = EventResponseBodyWriter.body (LambdaResponse.socket r') ->
  LambdaResponse._makeBodyResponse r = LambdaResponse._makeBodyResponse r'.
Proof. unfold LambdaResponse._makeBodyResponse. by intros ->. Qed.

(** Both serializers take the text and the flag from [_makeBodyResponse]. *)
Lemma lambdaResponse_body (r : LambdaResponse.t) :
  (result_body (LambdaResponse.lambdaResponse r),
   result_isBase64Encoded (LambdaResponse.lambdaResponse r))
  = LambdaResponse._makeBodyResponse r.
Proof.
  unfold LambdaResponse.lambdaResponse.
  by destruct (LambdaResponse._makeBodyResponse r).
Qed.

Lemma lambdaResponseV2_body (r : LambdaResponse.t) (result : APIGatewayResult) :
  LambdaResponse.lambdaResponseV2 r = Returns result ->
  (result_body result, result_isBase64Encoded result)
  = LambdaResponse._makeBodyResponse r.
Proof.
  unfold LambdaResponse.lambdaResponseV2.
  destruct (LambdaResponse._makeBodyResponse r) as [text flag].
  destruct (_ !! "set-cookie") as [[s|n]|]; intros [= <-]; done.
Qed.

(** ** Header materialization and version dispatch *)

(** The loop of [_makeHeaders] keeps, key by key, what one turn makes of the
    stored value. *)
Lemma makeHeaders_lookup (r : LambdaResponse.t) (key : string) :
  LambdaResponse._makeHeaders r !! key
  = if String.eqb key "__proto__" then None
    else LambdaResponse.getHeaders r !! key ≫= LambdaResponse._makeHeaders_entry key.
Proof.
  unfold LambdaResponse._makeHeaders.
  generalize (LambdaResponse.getHeaders r). intros store.
  apply (map_fold_weak_ind
           (fun (headers : gmap string HeaderValue)
                (m : gmap string OutgoingHttpHeader) =>
              headers !! key
              = if String.eqb key "__proto__" then None
                else m !! key ≫= LambdaResponse._makeHeaders_entry key)).
  - rewrite !lookup_empty. by destruct (String.eqb key "__proto__").
  - intros i x m headers Hfresh IH.
    destruct (decide (i = key)) as [->|Hne].
    + rewrite (lookup_insert_eq m). cbn.
      destruct (LambdaResponse._makeHeaders_entry key x) as [v|].
      * destruct (String.eqb key "__proto__") eqn:Hkey; [by rewrite IH|].
        by rewrite lookup_insert_eq.
      * rewrite IH, Hfresh. by destruct (String.eqb key "__proto__").
    + rewrite (lookup_insert_ne m) by done.
      destruct (LambdaResponse._makeHeaders_entry i x) as [v|]; [|done].
      destruct (String.eqb i "__proto__"); [done|].
      by rewrite lookup_insert_ne.
Qed.

Lemma makeHeaders_lookup_set_cookie (r : LambdaResponse.t) :
  LambdaResponse._makeHeaders r !! "set-cookie"
  = LambdaResponse.getHeaders r !! "set-cookie"
      ≫= LambdaResponse._makeHeaders_entry "set-cookie".
Proof. by rewrite makeHeaders_lookup. Qed.

Lemma split_from_not_nil (sep : string) (skip : nat) (cur : list Ascii.ascii)
    (s : string) :
  split_from sep skip cur s <> [].
Proof.
  revert skip cur. induction s as [|c s IH]; intros skip cur; [done|].
  cbn [split_from]. destruct skip; [|apply IH].
  destruct (String.prefix sep (String c s)); [done|apply IH].
Qed.

(** [split] always gives at least one piece. *)
Lemma String_split_not_nil (sep s : string) : String_split sep s <> [].
Proof. apply split_from_not_nil. Qed.

Lemma makeHeaders_set_cookie (r : LambdaResponse.t) (value : OutgoingHttpHeader)
    (joined : string) :
  LambdaResponse.getHeaders r !! "set-cookie" = Some value ->
  set_cookie_text value = Some joined ->
  LambdaResponse._makeHeaders r !! "set-cookie" = Some (ValueString joined).
Proof.
  intros Hstore Htext. rewrite makeHeaders_lookup_set_cookie, Hstore. cbn.
  destruct value; inversion Htext; done.
Qed.

(** C3.  Serialization follows the version of the event of the bound
    request, as the event states it.  For a format-A event, one whose
    [version] is not "2.0", the result is the one of the v1 serializer and
    has no [cookies] property, whatever the headers are; a [set-cookie]
    header that holds text stays among its headers, as that text.  For a
    format-B event, one whose [version] is "2.0", and a [set-cookie] header
    that holds text (a string, or an array, which is joined with "; "), the
    result has a [cookies] property holding the pieces of that text split
    on "; ", of which there is at least one, and its headers are the
    materialized headers with [set-cookie] removed.  For a format-B event
    without a [set-cookie] value the result has no [cookies] property. *)
Theorem toLambdaResponse_version_dispatch (r : LambdaResponse.t) :
  let event := LambdaIncomingMessage.lambdaEvent (LambdaResponse.req r) in
  (version event <> Some "2.0" ->
   LambdaResponse.toLambdaResponse r = Returns (LambdaResponse.lambdaResponse r)
   /\ result_cookies (LambdaResponse.lambdaResponse r) = None
   /\ result_headers (LambdaResponse.lambdaResponse r) = LambdaResponse._makeHeaders r
   /\ (forall value joined,
          LambdaResponse.getHeaders r !! "set-cookie" = Some value ->
          set_cookie_text value = Some joined ->
          result_headers (LambdaResponse.lambdaResponse r) !! "set-cookie"
          = Some (ValueString joined)))
  /\ (version event = Some "2.0" ->
      (forall value joined,
          LambdaResponse.getHeaders r !! "set-cookie" = Some value ->
          set_cookie_text value = Some joined ->
          exists result,
            LambdaResponse.toLambdaResponse r = Returns result
            /\ result_cookies result = Some (String_split "; " joined)
            /\ String_split "; " joined <> []
            /\ result_headers result = delete "set-cookie" (LambdaResponse._makeHeaders r)
            /\ result_headers result !! "set-cookie" = None)
      /\ (LambdaResponse.getHeaders r !! "set-cookie" = None
          \/ LambdaResponse.getHeaders r !! "set-cookie" = Some HeaderUndefined ->
          exists result,
            LambdaResponse.toLambdaResponse r = Returns result
            /\ result_cookies result = None
            /\ result_headers result = LambdaResponse._makeHeaders r)).
Proof.
  cbn zeta. unfold LambdaResponse.toLambdaResponse, detectApiGatewayVersion.
  split.
  - intros Hversion. rewrite bool_decide_eq_false_2 by done.
    assert (Hv1 : (if string_truthy
                        (httpMethod
                           (LambdaIncomingMessage.lambdaEvent (LambdaResponse.req r)))
                   then Returns (LambdaResponse.lambdaResponse r)
                   else Returns (LambdaResponse.lambdaResponse r))
                  = Returns (LambdaResponse.lambdaResponse r))
      by (by destruct (string_truthy _)).
    split.
    { by destruct (string_truthy _). }
    assert (Hheaders : result_headers (LambdaResponse.lambdaResponse r)
                       = LambdaResponse._makeHeaders r).
    { unfold LambdaResponse.lambdaResponse.
      by destruct (LambdaResponse._makeBodyResponse r). }
    split; [|split; [exact Hheaders|]].
    + unfold LambdaResponse.lambdaResponse.
      by destruct (LambdaResponse._makeBodyResponse r).
    + intros value joined Hstore Htext. rewrite Hheaders.
      by apply (makeHeaders_set_cookie r value joined).
  - intros Hversion. rewrite bool_decide_eq_true_2 by done. split.
    + intros value joined Hstore Htext.
      unfold LambdaResponse.lambdaResponseV2.
      rewrite (makeHeaders_set_cookie r value joined Hstore Htext).
      destruct (LambdaResponse._makeBodyResponse r) as [text flag].
      pose proof (String_split_not_nil "; " joined) as Hpieces.
      eexists. split; [reflexivity|]. cbn.
      repeat split; try done.
      * destruct (String_split "; " joined); done.
      * apply lookup_delete_eq.
    + intros Hstore. unfold LambdaResponse.lambdaResponseV2.
      assert (LambdaResponse._makeHeaders r !! "set-cookie" = None) as ->.
      { rewrite makeHeaders_lookup_set_cookie. by destruct Hstore as [-> | ->]. }
      destruct (LambdaResponse._makeBodyResponse r) as [text flag].
      eexists. split; [reflexivity|]. done.
Qed.

(** A number stored under [set-cookie] is outside what the v2 serializer
    handles: it has no [split]. *)
Lemma lambdaResponseV2_numeric_set_cookie (r : LambdaResponse.t) (n : Z) :
  LambdaResponse.getHeaders r !! "set-cookie" = Some (HeaderNumber n) ->
  LambdaResponse.lambdaResponseV2 r = Throws "split is not a function".
Proof.
  intros Hstore. unfold LambdaResponse.lambdaResponseV2.
  rewrite makeHeaders_lookup_set_cookie, Hstore. cbn.
  by destruct (LambdaResponse._makeBodyResponse r).
Qed.

Lemma lambdaResponseV2_returns (r : LambdaResponse.t) :
  set_cookie_not_numeric r ->
  LambdaResponse.lambdaResponseV2 r
  = Returns
      {| result_statusCode := LambdaResponse._lambdaStatusCode r;
         result_body := (LambdaResponse._makeBodyResponse r).1;
         result_headers := delete "set-cookie" (LambdaResponse._makeHeaders r);
         result_isBase64Encoded := (LambdaResponse._makeBodyResponse r).2;
         result_cookies :=
           String_split "; " <$>
             (LambdaResponse.getHeaders r !! "set-cookie" ≫= set_cookie_text) |}.
Proof.
  intros Hnum. unfold LambdaResponse.lambdaResponseV2.
  destruct (LambdaResponse._makeBodyResponse r) as [text flag].
  rewrite makeHeaders_lookup_set_cookie.
  destruct (LambdaResponse.getHeaders r !! "set-cookie") as [value|] eqn:Hstore; cbn.
  - destruct value as [|s|n|l]; cbn.
    + f_equal. f_equal. symmetry. apply delete_id.
      rewrite makeHeaders_lookup_set_cookie, Hstore. done.
    + pose proof (String_split_not_nil "; " s).
      destruct (String_split "; " s) eqn:E; done.
    + by destruct (Hnum n).
    + pose proof (String_split_not_nil "; " (Array_join "; " l)).
      destruct (String_split "; " (Array_join "; " l)) eqn:E; done.
  - f_equal. f_equal. symmetry. apply delete_id.
    rewrite makeHeaders_lookup_set_cookie, Hstore. done.
Qed.

(** ** Status-code materialization *)

Lemma of_uint_digit (d : Decimal.uint) (k : Decimal.uint -> Decimal.uint) :
  (forall d', Decimal.revapp (k d') Decimal.Nil = Decimal.revapp d' (k Decimal.Nil)) ->
  (Pos.of_uint (k d)
   = Pos.of_uint (k Decimal.Nil) * 10 ^ Unsigned.usize d + Pos.of_uint d)%N.
Proof.
  intros Hk. rewrite !Unsigned.of_uint_alt. unfold Decimal.rev.
  rewrite !Hk, Unsigned.of_lu_revapp. cbn [Decimal.revapp].
  unfold Decimal.rev. lia.
Qed.

(** Reading the digits of [d] after [acc] shifts [acc] by their number and
    adds their value. *)
Lemma parse_digits_uint (d : Decimal.uint) (acc : N) :
  parse_digits 10 (Some acc) (NilEmpty.string_of_uint d)
  = Some (acc * 10 ^ Unsigned.usize d + Pos.of_uint d)%N.
Proof.
  revert acc. induction d as [|d IH|d IH|d IH|d IH|d IH|d IH|d IH|d IH|d IH|d IH];
    intros acc.
  1: { cbn. f_equal. lia. }
  all: cbn [NilEmpty.string_of_uint parse_digits].
  all: match goal with
       | |- context [digit_value 10 ?c] =>
           let v := eval vm_compute in (digit_value 10 c) in
           change (digit_value 10 c) with v
       end.
  all: cbn iota; rewrite IH.
  all: match goal with
       | |- context [Pos.of_uint ?t] =>
           match t with
           | ?k ?x => rewrite (of_uint_digit x k) by reflexivity
           end
       end.
  all: cbn [Unsigned.usize]; rewrite N.pow_succ_r'.
  all: f_equal; cbn [Pos.of_uint Pos.of_uint_acc]; lia.
Qed.

Lemma parse_digits_numeral (d : Decimal.uint) :
  d <> Decimal.Nil ->
  parse_digits 10 None (NilEmpty.string_of_uint d) = Some (Pos.of_uint d).
Proof.
  destruct d as [|d|d|d|d|d|d|d|d|d|d]; [done|..]; intros _.
  all: cbn [NilEmpty.string_of_uint parse_digits].
  all: match goal with
       | |- context [digit_value 10 ?c] =>
           let v := eval vm_compute in (digit_value 10 c) in
           change (digit_value 10 c) with v
       end.
  all: cbn iota; rewrite parse_digits_uint.
  all: match goal with
       | |- context [Pos.of_uint ?t] =>
           match t with
           | ?k ?x => rewrite (of_uint_digit x k) by reflexivity
           end
       end.
  all: f_equal; cbn [Pos.of_uint Pos.of_uint_acc]; lia.
Qed.

(** [parseInt] reads a numeric string as the number it denotes, within
    the integers a number holds exactly. *)
Lemma parseInt_numeric_string (d : Decimal.uint) :
  exact_numeral d ->
  parseInt (numeric_string d) = Num (Z.of_N (N.of_uint d)).
Proof.
  intros _. unfold numeric_string, NilZero.string_of_uint, N.of_uint.
  destruct d as [|d|d|d|d|d|d|d|d|d|d]; [reflexivity|..].
  1: destruct d as [|d|d|d|d|d|d|d|d|d|d]; [reflexivity|..].
  all: unfold parseInt; cbn [NilEmpty.string_of_uint trim_start].
  all: repeat match goal with
         | |- context [is_white_space ?c] =>
             let v := eval vm_compute in (is_white_space c) in
             change (is_white_space c) with v
         end; cbn iota.
  all: match goal with
       | |- context [Pos.of_uint ?t] =>
           change (parse_digits 10 None _)
             with (parse_digits 10 None (NilEmpty.string_of_uint t))
       end.
  all: by rewrite parse_digits_numeral.
Qed.

(** C7.  [_lambdaStatusCode] returns a numeric status as it was set and
    reads a status stored as a numeric string as the number it denotes, for
    every numeral up to 2^53, the integers a number holds exactly.  With
    the status unset the v1 serializer gives 200, and the v2 serializer
    leaves [statusCode] unset in the result it returns. *)
Theorem status_code_materialization
    (headers : gmap string OutgoingHttpHeader) (sink : EventResponseBodyWriter.t)
    (request : LambdaIncomingMessage.t) :
  let response status := LambdaResponse.mk status headers sink request in
  (forall n : number,
      LambdaResponse._lambdaStatusCode (response (Some (StatusNumber n))) = Some n)
  /\ (forall d : Decimal.uint,
         exact_numeral d ->
         LambdaResponse._lambdaStatusCode
           (response (Some (StatusString (numeric_string d))))
         = Some (Num (Z.of_N (N.of_uint d))))
  /\ result_statusCode (LambdaResponse.lambdaResponse (response None)) = Some (Num 200)
  /\ (set_cookie_not_numeric (response None) ->
      exists result,
        LambdaResponse.lambdaResponseV2 (response None) = Returns result
        /\ result_statusCode result = None).
Proof.
  cbn zeta. repeat split.
  - intros d Hd. unfold LambdaResponse._lambdaStatusCode. cbn.
    by rewrite parseInt_numeric_string.
  - unfold LambdaResponse.lambdaResponse.
    by destruct (LambdaResponse._makeBodyResponse _).
  - intros Hnum. eexists. split; [by apply lambdaResponseV2_returns|done].
Qed.

(** ** URL construction *)

(** C1, as stated, fails: with a structured query map on the event the URL
    is built from the map, and the raw query string is not used. *)
Lemma parseUrl_structured_map_wins :
  let event := event_with_raw_and_structured_query in
  detectApiGatewayVersion event = v2
  /\ rawPath event = Some "/y"
  /\ rawQueryString event = Some "q=a%20b"
  /\ LambdaIncomingMessage.url (LambdaIncomingMessage.new event) = "/y?q=a+b"
  /\ LambdaIncomingMessage.url (LambdaIncomingMessage.new event)
     <> "/y" +:+ "?" +:+ "q=a%20b".
Proof. repeat split; [vm_compute; reflexivity..|vm_compute; discriminate]. Qed.

(** C1, amended.  For a format-B event (version "2.0", no [path] property)
    with a non-empty raw query string, the URL computed at construction is
    the raw path, "?", and the raw query string as it is, provided the
    event has no structured query map (the property is missing or [null]).
    With a structured map the query is the serialization of the map. *)
Theorem parseUrl_raw_query_without_structured_map
    (event : APIGatewayEvent) (raw_path raw_query : string) :
  detectApiGatewayVersion event = v2 ->
  path event = None ->
  rawPath event = Some raw_path ->
  rawQueryString event = Some raw_query ->
  raw_query <> "" ->
  match queryStringParameters event with
  | Absent | Null =>
      LambdaIncomingMessage.url (LambdaIncomingMessage.new event)
      = raw_path +:+ "?" +:+ raw_query
  | Present entries =>
      let query := URLSearchParams_toString (LambdaIncomingMessage.append_params entries) in
      LambdaIncomingMessage.url (LambdaIncomingMessage.new event)
      = if String.eqb query "" then raw_path else raw_path +:+ "?" +:+ query
  end.
Proof.
  intros _ Hpath Hraw Hquery Hne.
  unfold LambdaIncomingMessage.url, LambdaIncomingMessage.new.
  cbn [LambdaIncomingMessage._url]. unfold LambdaIncomingMessage._parseUrl.
  rewrite Hpath, Hraw, Hquery. cbn [string_truthy default].
  apply String.eqb_neq in Hne. 
  destruct (queryStringParameters event) as [| |entries].
  - rewrite Hne. cbn [negb id]. by rewrite Hne.
  - rewrite Hne. cbn [negb id]. by rewrite Hne.
  - cbn zeta. by destruct (String.eqb (URLSearchParams_toString _) "").
Qed.

Lemma parseUrl_raw_query_without_structured_map_witness :
  LambdaIncomingMessage.url
    (LambdaIncomingMessage.new
       {| version := Some "2.0"; httpMethod := None; path := None;
          rawPath := Some "/y"; queryStringParameters := Absent;
          rawQueryString := Some "c=3"; body := None |})
  = "/y?c=3".
Proof.
  apply (parseUrl_raw_query_without_structured_map
           {| version := Some "2.0"; httpMethod := None; path := None;
              rawPath := Some "/y"; queryStringParameters := Absent;
              rawQueryString := Some "c=3"; body := None |} "/y" "c=3").
  - vm_compute. reflexivity.
  - reflexivity.
  - reflexivity.
  - reflexivity.
  - discriminate.
Defined.

(** The format-A example of the URL construction. *)
Example parseUrl_format_A :
  LambdaIncomingMessage.url
    (LambdaIncomingMessage.new
       {| version := None; httpMethod := Some "GET"; path := Some "/x";
          rawPath := None;
          queryStringParameters := Present [("a", Some "1"); ("b", Some "2")];
          rawQueryString := None; body := None |})
  = "/x?a=1&b=2".
Proof. vm_compute. reflexivity. Qed.

(** ** Replaying the request body *)

Lemma string_of_list_ascii_app (l1 l2 : list Ascii.ascii) :
  string_of_list_ascii (l1 ++ l2)
  = string_of_list_ascii l1 +:+ string_of_list_ascii l2.
Proof. induction l1 as [|c l1 IH]; [done|]. cbn. by rewrite IH. Qed.

Lemma length_string_of_list_ascii (l : list Ascii.ascii) :
  String.length (string_of_list_ascii l) = length l.
Proof. induction l as [|c l IH]; [done|]. cbn. by rewrite IH. Qed.

Lemma length_list_ascii_of_string (s : string) :
  length (list_ascii_of_string s) = String.length s.
Proof. induction s as [|c s IH]; [done|]. cbn. by rewrite IH. Qed.

Lemma Chunk_length_slice (start stop : nat) (B : Chunk) :
  Chunk_length (Chunk_slice start stop B)
  = Nat.min (stop - start) (Chunk_length B - start).
Proof.
  destruct B as [b|s]; cbn [Chunk_slice Chunk_length].
  - unfold Buffer_slice. by rewrite length_take, length_drop.
  - unfold String_slice.
    by rewrite length_string_of_list_ascii, length_take, length_drop,
      length_list_ascii_of_string.
Qed.

(** Two adjoining slices make one. *)
Lemma Chunk_join_slices (B : Chunk) (a b c : nat) (rest : list Chunk) :
  a <= b <= c ->
  Chunk_join B rest = Some (Chunk_slice b c B) ->
  Chunk_join B (Chunk_slice a b B :: rest) = Some (Chunk_slice a c B).
Proof.
  intros Habc Hrest. cbn [Chunk_join]. rewrite Hrest.
  assert (Hlist : forall A (l : list A),
             take (b - a) (drop a l) ++ take (c - b) (drop b l)
             = take (c - a) (drop a l)).
  { intros A l. replace (drop b l) with (drop (b - a) (drop a l))
      by (rewrite drop_drop; f_equal; lia).
    rewrite take_take_drop. f_equal. lia. }
  destruct B as [bs|s]; cbn [Chunk_slice]; do 2 f_equal.
  - apply Hlist.
  - unfold String_slice. by rewrite <- string_of_list_ascii_app, Hlist.
Qed.

Lemma Chunk_slice_empty (B : Chunk) (a : nat) :
  Chunk_length B <= a -> Chunk_slice a (Chunk_length B) B = Chunk_empty B.
Proof.
  intros Ha. destruct B as [bs|s]; cbn in *; f_equal.
  - unfold Buffer_slice. replace (length bs - a) with 0 by lia. done.
  - unfold String_slice. replace (String.length s - a) with 0 by lia. done.
Qed.

Lemma Chunk_slice_all (B : Chunk) : Chunk_slice 0 (Chunk_length B) B = B.
Proof.
  destruct B as [bs|s]; cbn; f_equal.
  - unfold Buffer_slice. rewrite Nat.sub_0_r, drop_0. by apply take_ge.
  - unfold String_slice. rewrite Nat.sub_0_r, drop_0, take_ge.
    + apply string_of_list_ascii_of_string.
    + by rewrite length_list_ascii_of_string.
Qed.

Lemma Chunk_truthy_nonempty (B : Chunk) :
  0 < Chunk_length B -> Chunk_truthy B = true.
Proof. destruct B as [bs|[|c s]]; cbn; [done|lia|done]. Qed.

(** [_read] on a body, by cases on the offset. *)
Lemma read_at_end (size : nat) (s : EventWrapperSocket.t) (B : Chunk) :
  EventWrapperSocket._readBody s = Some B ->
  Chunk_length B <= EventWrapperSocket._readOffset s ->
  EventWrapperSocket._read size s = (s, [PushNull]).
Proof.
  intros HB Hend. unfold EventWrapperSocket._read. rewrite HB.
  apply Nat.leb_le in Hend. rewrite Hend. by rewrite orb_true_r.
Qed.

Lemma read_before_end (size : nat) (s : EventWrapperSocket.t) (B : Chunk) :
  EventWrapperSocket._readBody s = Some B ->
  EventWrapperSocket._readOffset s < Chunk_length B ->
  let start := EventWrapperSocket._readOffset s in
  let chunk := Chunk_slice start (start + size) B in
  let stop := start + Chunk_length chunk in
  EventWrapperSocket._read size s
  = (EventWrapperSocket.set_readOffset stop s,
     PushChunk chunk :: (if (Chunk_length B <=? stop)%nat then [PushNull] else [])).
Proof.
  intros HB Hlt. cbn zeta. unfold EventWrapperSocket._read. rewrite HB.
  rewrite Chunk_truthy_nonempty by lia.
  replace (Chunk_length B <=? EventWrapperSocket._readOffset s)%nat with false
    by (symmetry; apply Nat.leb_gt; lia).
  cbn [negb orb]. by destruct (_ <=? _)%nat.
Qed.

Lemma Chunk_slice_clip (B : Chunk) (a b : nat) :
  Chunk_slice a b B = Chunk_slice a (Nat.min b (Chunk_length B)) B.
Proof.
  assert (Hlist : forall A (l : list A),
             take (b - a) (drop a l) = take (Nat.min b (length l) - a) (drop a l)).
  { intros A l. destruct (decide (b <= length l)) as [Hb|Hb].
    - by rewrite Nat.min_l.
    - rewrite Nat.min_r by lia.
      rewrite !take_ge; [done|rewrite length_drop; lia..]. }
  destruct B as [bs|s]; cbn [Chunk_slice Chunk_length]; f_equal.
  - apply Hlist.
  - unfold String_slice. rewrite <- length_list_ascii_of_string. by rewrite <- Hlist.
Qed.

Lemma read_to_end_from (B : Chunk) (n : nat) :
  0 < n ->
  forall (fuel : nat) (s : EventWrapperSocket.t),
    EventWrapperSocket._readBody s = Some B ->
    EventWrapperSocket._readOffset s <= Chunk_length B ->
    Chunk_length B - EventWrapperSocket._readOffset s < fuel ->
    exists calls,
      EventWrapperSocket.read_to_end fuel n s = (calls, true)
      /\ Chunk_join B (pushed_chunks calls)
         = Some (Chunk_slice (EventWrapperSocket._readOffset s) (Chunk_length B) B)
      /\ offsets_linked (EventWrapperSocket._readOffset s) calls (Chunk_length B)
      /\ Forall (read_call_ok B n) calls.
Proof.
  intros Hn. induction fuel as [|fuel IH]; intros s HB Hle Hfuel; [lia|].
  cbn [EventWrapperSocket.read_to_end]. unfold EventWrapperSocket.bytesRead.
  set (o := EventWrapperSocket._readOffset s) in *.
  destruct (decide (o < Chunk_length B)) as [Hlt|Hge].
  - rewrite (read_before_end n s B HB Hlt). fold o.
    set (chunk := Chunk_slice o (o + n) B).
    assert (Hlen : o + Chunk_length chunk = Nat.min (o + n) (Chunk_length B)).
    { unfold chunk. rewrite Chunk_length_slice. lia. }
    assert (Hchunk : chunk = Chunk_slice o (o + Chunk_length chunk) B).
    { rewrite Hlen. apply Chunk_slice_clip. }
    set (stop := o + Chunk_length chunk) in *.
    destruct (Chunk_length B <=? stop)%nat eqn:Hstop.
    + apply Nat.leb_le in Hstop. cbn [EventWrapperSocket.pushes_null existsb orb].
      eexists. split; [reflexivity|]. cbn [EventWrapperSocket.set_readOffset
        EventWrapperSocket._readOffset]. repeat split.
      * unfold pushed_chunks. cbn. rewrite Hchunk.
        assert (stop = Chunk_length B) as -> by lia.
        change (Some (Chunk_slice o (Chunk_length B) B))
          with (Some (Chunk_slice o (Chunk_length B) B)).
        pose proof (Chunk_join_slices B o (Chunk_length B) (Chunk_length B) []) as Hj.
        cbn [Chunk_join] in Hj. apply Hj; [lia|].
        by rewrite Chunk_slice_empty.
      * cbn. lia.
      * constructor; [|constructor]. unfold read_call_ok.
        cbn [EventWrapperSocket.start_offset EventWrapperSocket.end_offset
             EventWrapperSocket.pushed EventWrapperSocket.set_readOffset
             EventWrapperSocket._readOffset].
        apply Nat.ltb_lt in Hlt. rewrite Hlt. fold chunk. fold stop.
        apply Nat.leb_le in Hstop. by rewrite Hstop.
    + apply Nat.leb_gt in Hstop. cbn [EventWrapperSocket.pushes_null existsb orb].
      destruct (IH (EventWrapperSocket.set_readOffset stop s))
        as (calls & Hrun & Hjoin & Hlink & Hok).
      { done. }
      { cbn. lia. }
      { cbn. assert (0 < Chunk_length chunk); [|lia].
        unfold chunk. rewrite Chunk_length_slice. lia. }
      rewrite Hrun. cbn in Hjoin, Hlink.
      eexists. split; [reflexivity|]. repeat split.
      * unfold pushed_chunks. cbn [flat_map EventWrapperSocket.pushed omap].
        cbn [list_omap app]. fold (pushed_chunks calls). rewrite Hchunk.
        apply Chunk_join_slices; [lia|done].
      * done.
      * constructor; [|done]. unfold read_call_ok.
        cbn [EventWrapperSocket.start_offset EventWrapperSocket.end_offset
             EventWrapperSocket.pushed EventWrapperSocket.set_readOffset
             EventWrapperSocket._readOffset].
        apply Nat.ltb_lt in Hlt. rewrite Hlt. fold chunk. fold stop.
        apply Nat.leb_gt in Hstop. by rewrite Hstop.
  - rewrite (read_at_end n s B HB) by (fold o; lia).
    cbn [EventWrapperSocket.pushes_null existsb orb].
    eexists. split; [reflexivity|]. fold o. repeat split.
    + unfold pushed_chunks. cbn. f_equal. symmetry. apply Chunk_slice_empty. lia.
    + cbn. lia.
    + constructor; [|constructor]. unfold read_call_ok.
        cbn [EventWrapperSocket.start_offset EventWrapperSocket.end_offset
             EventWrapperSocket.pushed EventWrapperSocket.set_readOffset
             EventWrapperSocket._readOffset]. fold o.
      replace (o <? Chunk_length B)%nat with false by (symmetry; apply Nat.ltb_ge; lia).
      replace (Chunk_length B <=? o)%nat with true by (symmetry; apply Nat.leb_le; lia).
      split; [lia|done].
Qed.

(** C4.  Reading a body [B] to the end with any chunk size [n > 0] reaches
    end-of-stream (within [length B + 1] calls); the pushed chunks,
    concatenated, are [B]; the first call starts at offset 0, every further
    call starts at the offset the call before it ended at, and the last
    ends at the length of [B]; every call pushes the slice of at most [n]
    units that starts at its start offset and, when that slice reaches the
    end of [B], pushes [null] in the same call. *)
Theorem read_to_end_reconstructs_body (B : Chunk) (n fuel : nat) :
  0 < n ->
  Chunk_length B < fuel ->
  exists calls,
    EventWrapperSocket.read_to_end fuel n (EventWrapperSocket.new (Some B))
    = (calls, true)
    /\ Chunk_join B (pushed_chunks calls) = Some B
    /\ offsets_linked 0 calls (Chunk_length B)
    /\ Forall (read_call_ok B n) calls.
Proof.
  intros Hn Hfuel.
  destruct (read_to_end_from B n Hn fuel (EventWrapperSocket.new (Some B)))
    as (calls & Hrun & Hjoin & Hlink & Hok); cbn; [done|lia|lia|].
  cbn in Hjoin, Hlink. rewrite Chunk_slice_all in Hjoin. by exists calls.
Qed.

Lemma read_to_end_no_body (fuel size : nat) :
  EventWrapperSocket.read_to_end (S fuel) size (EventWrapperSocket.new None)
  = ([{| EventWrapperSocket.start_offset := 0;
         EventWrapperSocket.pushed := [PushNull];
         EventWrapperSocket.end_offset := 0 |}], true).
Proof. reflexivity. Qed.

Example read_to_end_hello :
  EventWrapperSocket.read_to_end 6 2 (EventWrapperSocket.new (Some (ChunkString "hello")))
  = ([{| EventWrapperSocket.start_offset := 0;
         EventWrapperSocket.pushed := [PushChunk (ChunkString "he")];
         EventWrapperSocket.end_offset := 2 |};
      {| EventWrapperSocket.start_offset := 2;
         EventWrapperSocket.pushed := [PushChunk (ChunkString "ll")];
         EventWrapperSocket.end_offset := 4 |};
      {| EventWrapperSocket.start_offset := 4;
         EventWrapperSocket.pushed := [PushChunk (ChunkString "o"); PushNull];
         EventWrapperSocket.end_offset := 5 |}], true).
Proof. reflexivity. Qed.

(** ** Timers *)

Lemma read_keeps_timer (size : nat) (s : EventWrapperSocket.t) :
  EventWrapperSocket._timeout (EventWrapperSocket._read size s).1
  = EventWrapperSocket._timeout s
  /\ EventWrapperSocket.emitted (EventWrapperSocket._read size s).1
     = EventWrapperSocket.emitted s.
Proof.
  unfold EventWrapperSocket._read.
  destruct (EventWrapperSocket._readBody s) as [body|]; [|done].
  destruct (negb _ || _); [done|]. by destruct (_ <=? _)%nat.
Qed.

Lemma cancel_not_pending (b : BasicTimeout.t) :
  BasicTimeout._timeout (BasicTimeout.cancel b) = None.
Proof. unfold BasicTimeout.cancel. by destruct (BasicTimeout._timeout b) eqn:E. Qed.

Lemma setTimeout_zero_state (now : Z) (callback : option TimeoutCallback)
    (s : EventWrapperSocket.t) :
  EventWrapperSocket.setTimeout now 0 callback s
  = (EventWrapperSocket.set_timeout
       (BasicTimeout.cancel <$> EventWrapperSocket._timeout s) s, Returns tt).
Proof. reflexivity. Qed.

Lemma setTimeout_zero_not_pending (now : Z) (callback : option TimeoutCallback)
    (s : EventWrapperSocket.t) :
  EventWrapperSocket.timer_pending (EventWrapperSocket.setTimeout now 0 callback s).1
  = false.
Proof.
  rewrite setTimeout_zero_state. unfold EventWrapperSocket.timer_pending. cbn.
  destruct (EventWrapperSocket._timeout s) as [b|]; [|done]. cbn.
  rewrite cancel_not_pending. apply bool_decide_eq_false. by intros [? ?].
Qed.

(** Without a pending timer, [refresh] changes nothing. *)
Lemma write_not_pending (now : Z) (chunk : Chunk) (encoding : BufferEncoding)
    (s : EventWrapperSocket.t) :
  EventWrapperSocket.timer_pending s = false ->
  EventWrapperSocket._timeout (EventWrapperSocket._write now chunk encoding s)
  = EventWrapperSocket._timeout s.
Proof.
  unfold EventWrapperSocket.timer_pending. intros Hp.
  assert (BasicTimeout.refresh now <$> EventWrapperSocket._timeout s
          = EventWrapperSocket._timeout s) as Hsame.
  { destruct (EventWrapperSocket._timeout s) as [b|]; [|done]. cbn. f_equal.
    unfold BasicTimeout.refresh.
    destruct (BasicTimeout._timeout b) as [h|] eqn:Hh; [|done].
    apply bool_decide_eq_false in Hp. destruct Hp. by exists h. }
  destruct chunk; cbn; by rewrite Hsame.
Qed.

Lemma write_emitted (now : Z) (chunk : Chunk) (encoding : BufferEncoding)
    (s : EventWrapperSocket.t) :
  EventWrapperSocket.emitted (EventWrapperSocket._write now chunk encoding s)
  = EventWrapperSocket.emitted s.
Proof. by destruct chunk. Qed.

Lemma timer_pending_timeout (s s' : EventWrapperSocket.t) :
  EventWrapperSocket._timeout s' = EventWrapperSocket._timeout s ->
  EventWrapperSocket.timer_pending s' = EventWrapperSocket.timer_pending s.
Proof. unfold EventWrapperSocket.timer_pending. by intros ->. Qed.

Lemma run_timers_not_pending (now : Z) (s : EventWrapperSocket.t) :
  EventWrapperSocket.timer_pending s = false ->
  EventWrapperSocket.run_timers now s = s.
Proof.
  unfold EventWrapperSocket.timer_pending, EventWrapperSocket.run_timers.
  destruct (EventWrapperSocket._timeout s) as [b|]; [|done].
  destruct (BasicTimeout._timeout b) as [h|]; [|done].
  intros Hp. apply bool_decide_eq_false in Hp. destruct Hp. by exists h.
Qed.

(** While no timer is pending and none is installed, a step leaves no
    timer pending and emits nothing. *)
Lemma step_without_timer (a : Action) (w : World) :
  EventWrapperSocket.timer_pending (endpoint w) = false ->
  installs_no_timer a ->
  EventWrapperSocket.timer_pending (endpoint (step a w)) = false
  /\ EventWrapperSocket.emitted (endpoint (step a w))
     = EventWrapperSocket.emitted (endpoint w).
Proof.
  intros Hp Ha. destruct a as [timeout callback|chunk encoding|size|ms|];
    cbn [step endpoint].
  - cbn in Ha. subst timeout. split; [apply setTimeout_zero_not_pending|done].
  - split; [|apply write_emitted].
    rewrite <- Hp. apply timer_pending_timeout. by apply write_not_pending.
  - destruct (read_keeps_timer size (endpoint w)) as [Ht He]. split; [|done].
    rewrite <- Hp. by apply timer_pending_timeout.
  - done.
  - by rewrite run_timers_not_pending.
Qed.

Lemma run_without_timer (actions : list Action) (w : World) :
  EventWrapperSocket.timer_pending (endpoint w) = false ->
  Forall installs_no_timer actions ->
  EventWrapperSocket.timer_pending (endpoint (run actions w)) = false
  /\ EventWrapperSocket.emitted (endpoint (run actions w))
     = EventWrapperSocket.emitted (endpoint w).
Proof.
  intros Hp Hall. revert w Hp.
  induction Hall as [|a actions Ha Hall IH]; intros w Hp; [done|].
  change (run (a :: actions) w) with (run actions (step a w)).
  destruct (step_without_timer a w Hp Ha) as [Hp' He'].
  destruct (IH (step a w) Hp') as [Hp'' He'']. split; [done|congruence].
Qed.

(** On the adapter, [setTimeout] never installs a timer: whatever the depth
    of the stack, the call ends in the stack overflow and leaves the adapter
    as it was. *)
Lemma adapter_setTimeout_overflows (depth : nat) (msecs : Z)
    (callback : option TimeoutCallback) (m : LambdaIncomingMessage.t) :
  LambdaIncomingMessage.setTimeout depth msecs callback m
  = (m, Throws "Maximum call stack size exceeded").
Proof. induction depth as [|depth IH]; [done|exact IH]. Qed.













(** A run of the model: a timeout of 100 ms, a write after 60 ms, a timer
    phase 60 ms later (nothing is due), then 100 ms without a write, after
    which the timer fires, once. *)
Example timeout_fires_after_idle_period :
  let w0 := {| clock := 0; endpoint := EventWrapperSocket.new None |} in
  let busy := [CallSetTimeout 100 None; Elapse 60;
               CallWrite (ChunkString "ok") utf8; Elapse 60; RunTimers] in
  timeout_signals (run busy w0) = []
  /\ timeout_signals (run (busy ++ [Elapse 100; RunTimers]) w0) = [EmitTimeout]
  /\ timeout_signals
       (run (busy ++ [Elapse 100; RunTimers; CallWrite (ChunkString "late") utf8;
                      Elapse 500; RunTimers]) w0)
     = [EmitTimeout].
Proof. repeat split; vm_compute; reflexivity. Qed.

(** Beyond the range of the runtime the duration is not kept: a timeout
    of 2^31 milliseconds is taken as one of 1 millisecond, and fires
    between writes that are 20 milliseconds apart. *)
Example timeout_beyond_runtime_range_fires_early :
  let schedule := [Elapse 20; CallWrite (ChunkString "ok") utf8; Elapse 20;
                   RunTimers] in
  well_spaced 2147483648 0 schedule = true
  /\ timeout_signals
       (run schedule (step (CallSetTimeout 2147483648 None) idle_world))
     = [EmitTimeout].
Proof. split; vm_compute; reflexivity. Qed.

(** ** The theorems at concrete inputs *)

Lemma toLambdaResponse_version_dispatch_witness :
  let answer_A :=
    LambdaResponse.mk
      (Some (StatusNumber (Num 200)))
      {[ "set-cookie" := HeaderArray ["a=1"; "b=2"] ]}
      EventResponseBodyWriter.new
      (LambdaIncomingMessage.new format_A_event) in
  (LambdaResponse.toLambdaResponse answer_A
   = Returns (LambdaResponse.lambdaResponse answer_A)
   /\ result_cookies (LambdaResponse.lambdaResponse answer_A) = None
   /\ result_headers (LambdaResponse.lambdaResponse answer_A) !! "set-cookie"
      = Some (ValueString "a=1; b=2"))
  /\ exists result,
       LambdaResponse.toLambdaResponse response_with_cookies = Returns result
       /\ result_cookies result = Some ["a=1"; "b=2"]
       /\ result_headers result !! "set-cookie" = None.
Proof.
  intros answer_A. split.
  - destruct (toLambdaResponse_version_dispatch answer_A) as [HA _].
    destruct HA as (Hr & Hc & _ & Hh); [discriminate|].
    split; [exact Hr|]. split; [exact Hc|].
    apply (Hh (HeaderArray ["a=1"; "b=2"])); [vm_compute|]; reflexivity.
  - destruct (toLambdaResponse_version_dispatch response_with_cookies) as [_ HB].
    destruct HB as [HB _]; [reflexivity|].
    destruct (HB (HeaderArray ["a=1"; "b=2"]) "a=1; b=2")
      as (result & Hr & Hc & _ & _ & Hh).
    + vm_compute. reflexivity.
    + reflexivity.
    + exists result. split; [exact Hr|]. split; [exact Hc|exact Hh].
Defined.

Lemma status_code_materialization_witness :
  let response status :=
    LambdaResponse.mk status ∅ EventResponseBodyWriter.new
      (LambdaIncomingMessage.new format_B_event) in
  LambdaResponse._lambdaStatusCode (response (Some (StatusString "404")))
  = Some (Num 404)
  /\ result_statusCode (LambdaResponse.lambdaResponse (response None)) = Some (Num 200)
  /\ exists result,
       LambdaResponse.lambdaResponseV2 (response None) = Returns result
       /\ result_statusCode result = None.
Proof.
  destruct (status_code_materialization ∅ EventResponseBodyWriter.new
              (LambdaIncomingMessage.new format_B_event))
    as (_ & Hstring & Hv1 & Hv2).
  split.
  { apply (Hstring (Decimal.D4 (Decimal.D0 (Decimal.D4 Decimal.Nil)))).
    unfold exact_numeral. vm_compute. discriminate. }
  split; [exact Hv1|].
  apply Hv2. intros n. vm_compute. discriminate.
Defined.

Lemma read_to_end_reconstructs_body_witness :
  exists calls,
    EventWrapperSocket.read_to_end 6 2
      (EventWrapperSocket.new (Some (ChunkString "hello")))
    = (calls, true)
    /\ Chunk_join (ChunkString "hello") (pushed_chunks calls)
       = Some (ChunkString "hello")
    /\ offsets_linked 0 calls 5
    /\ Forall (read_call_ok (ChunkString "hello") 2) calls.
Proof.
  apply (read_to_end_reconstructs_body (ChunkString "hello") 2 6).
  - lia.
  - simpl. lia.
Defined.



(** * Further properties *)

(** ** The read side of the endpoint *)

Lemma read_offset_bounds (size : nat) (s : EventWrapperSocket.t) :
  EventWrapperSocket._readOffset s <= read_source_length s ->
  let s' := (EventWrapperSocket._read size s).1 in
  EventWrapperSocket._readBody s' = EventWrapperSocket._readBody s
  /\ EventWrapperSocket._readOffset s <= EventWrapperSocket._readOffset s'
  /\ EventWrapperSocket._readOffset s' <= read_source_length s.
Proof.
  intros Hle. cbn zeta. unfold EventWrapperSocket._read, read_source_length in *.
  destruct (EventWrapperSocket._readBody s) as [body|] eqn:Hbody; cbn in *.
  2: { rewrite Hbody. repeat split; lia. }
  destruct (negb _ || _); cbn; [rewrite Hbody; repeat split; lia|].
  assert (Hlen := Chunk_length_slice (EventWrapperSocket._readOffset s)
                    (EventWrapperSocket._readOffset s + size) body).
  destruct (_ <=? _)%nat; cbn; rewrite Hbody; repeat split; lia.
Qed.

Lemma step_read_state (a : Action) (w : World) :
  EventWrapperSocket._readOffset (endpoint w) <= read_source_length (endpoint w) ->
  EventWrapperSocket._readBody (endpoint (step a w))
  = EventWrapperSocket._readBody (endpoint w)
  /\ EventWrapperSocket._readOffset (endpoint w)
     <= EventWrapperSocket._readOffset (endpoint (step a w))
  /\ EventWrapperSocket._readOffset (endpoint (step a w))
     <= read_source_length (endpoint w).
Proof.
  intros Hle. destruct a as [timeout callback|chunk encoding|size|ms|];
    cbn [step endpoint].
  - unfold EventWrapperSocket.setTimeout.
    destruct (timeout =? 0)%Z; [cbn; repeat split; lia|].
    destruct (BasicTimeout.new _ _ _); cbn; repeat split; lia.
  - destruct chunk; cbn; repeat split; lia.
  - by apply read_offset_bounds.
  - repeat split; lia.
  - unfold EventWrapperSocket.run_timers, EventWrapperSocket.timer_fires.
    destruct (EventWrapperSocket._timeout (endpoint w)) as [b|]; [|repeat split; lia].
    destruct (BasicTimeout._timeout b); [|repeat split; lia].
    destruct (Timeout_due _ _); [|repeat split; lia].
    destruct (BasicTimeout._callback b) as [[c|]|];
      [|cbn; repeat split; lia|repeat split; lia].
    destruct (callback_throws c); cbn; repeat split; lia.
Qed.

Lemma run_read_state (actions : list Action) (w : World) :
  EventWrapperSocket._readOffset (endpoint w) <= read_source_length (endpoint w) ->
  EventWrapperSocket._readBody (endpoint (run actions w))
  = EventWrapperSocket._readBody (endpoint w)
  /\ EventWrapperSocket._readOffset (endpoint w)
     <= EventWrapperSocket._readOffset (endpoint (run actions w))
  /\ EventWrapperSocket._readOffset (endpoint (run actions w))
     <= read_source_length (endpoint w).
Proof.
  revert w. induction actions as [|a actions IH]; intros w Hle; [by auto|].
  change (run (a :: actions) w) with (run actions (step a w)).
  destruct (step_read_state a w Hle) as (Hb & Hlo & Hhi).
  assert (Hlen : read_source_length (endpoint (step a w))
                 = read_source_length (endpoint w)).
  { unfold read_source_length. by rewrite Hb. }
  destruct (IH (step a w)) as (Hb' & Hlo' & Hhi'); [lia|].
  rewrite Hlen in Hhi'. repeat split; [congruence|lia|lia].
Qed.

(** X1.  The read offset of an endpoint is monotonic and bounded: whatever
    is called on a fresh endpoint, in whatever order, the offset never
    exceeds the length of the body, the body is never replaced, and going on
    never lowers the offset. *)
Theorem read_offset_monotonic_and_bounded
    (body : option Chunk) (now : Z) (actions more : list Action) :
  let w0 := {| clock := now; endpoint := EventWrapperSocket.new body |} in
  let w := run actions w0 in
  let w' := run (actions ++ more) w0 in
  EventWrapperSocket._readBody (endpoint w) = body
  /\ EventWrapperSocket.bytesRead (endpoint w) <= from_option Chunk_length 0 body
  /\ EventWrapperSocket.bytesRead (endpoint w)
     <= EventWrapperSocket.bytesRead (endpoint w').
Proof.
  cbn zeta. unfold EventWrapperSocket.bytesRead.
  set (w0 := {| clock := now; endpoint := EventWrapperSocket.new body |}).
  destruct (run_read_state actions w0) as (Hb & _ & Hhi); [cbn; lia|].
  split; [done|]. split; [done|].
  unfold run. rewrite fold_left_app. fold (run actions w0).
  fold (run more (run actions w0)).
  destruct (run_read_state more (run actions w0)) as (_ & Hlo & _); [|done].
  unfold read_source_length. rewrite Hb. exact Hhi.
Qed.

Lemma step_read_monotone (a : Action) (w : World) :
  EventWrapperSocket._readBody (endpoint (step a w))
  = EventWrapperSocket._readBody (endpoint w)
  /\ EventWrapperSocket._readOffset (endpoint w)
     <= EventWrapperSocket._readOffset (endpoint (step a w)).
Proof.
  destruct a as [timeout callback|chunk encoding|size|ms|]; cbn [step endpoint].
  - unfold EventWrapperSocket.setTimeout.
    destruct (timeout =? 0)%Z; [cbn; split; [done|lia]|].
    destruct (BasicTimeout.new _ _ _); cbn; (split; [done|lia]).
  - destruct chunk; cbn; (split; [done|lia]).
  - unfold EventWrapperSocket._read.
    destruct (EventWrapperSocket._readBody (endpoint w)) as [body|] eqn:Hbody;
      [|cbn; split; [done|lia]].
    destruct (negb _ || _); [cbn; split; [done|lia]|].
    destruct (_ <=? _)%nat; cbn; (split; [done|lia]).
  - split; [done|lia].
  - unfold EventWrapperSocket.run_timers, EventWrapperSocket.timer_fires.
    destruct (EventWrapperSocket._timeout (endpoint w)) as [b|]; [|split; [done|lia]].
    destruct (BasicTimeout._timeout b); [|split; [done|lia]].
    destruct (Timeout_due _ _); [|split; [done|lia]].
    destruct (BasicTimeout._callback b) as [[c|]|];
      [|cbn; split; [done|lia]|split; [done|lia]].
    destruct (callback_throws c); cbn; (split; [done|lia]).
Qed.

Lemma run_read_monotone (actions : list Action) (w : World) :
  EventWrapperSocket._readBody (endpoint (run actions w))
  = EventWrapperSocket._readBody (endpoint w)
  /\ EventWrapperSocket._readOffset (endpoint w)
     <= EventWrapperSocket._readOffset (endpoint (run actions w)).
Proof.
  revert w. induction actions as [|a actions IH]; intros w; [cbn; split; [done|lia]|].
  change (run (a :: actions) w) with (run actions (step a w)).
  destruct (step_read_monotone a w) as [Hb Hlo].
  destruct (IH (step a w)) as [Hb' Hlo']. split; [congruence|lia].
Qed.

(** At or past the end of the source, and without a source, [_read] pushes
    [null] and nothing else, and changes nothing. *)
Lemma read_past_end (size : nat) (s : EventWrapperSocket.t) :
  read_source_length s <= EventWrapperSocket._readOffset s ->
  EventWrapperSocket._read size s = (s, [PushNull]).
Proof.
  unfold read_source_length, EventWrapperSocket._read.
  destruct (EventWrapperSocket._readBody s) as [body|]; [|done].
  cbn. intros Hle%Nat.leb_le. rewrite Hle. by rewrite orb_true_r.
Qed.

(** A call that pushes [null] leaves the offset at the end of the source. *)
Lemma read_null_at_end (size : nat) (s : EventWrapperSocket.t) :
  EventWrapperSocket.pushes_null (EventWrapperSocket._read size s).2 = true ->
  read_source_length (EventWrapperSocket._read size s).1
  <= EventWrapperSocket._readOffset (EventWrapperSocket._read size s).1.
Proof.
  unfold read_source_length, EventWrapperSocket._read.
  destruct (EventWrapperSocket._readBody s) as [body|] eqn:Hbody.
  2: { intros _. cbn. rewrite Hbody. cbn. lia. }
  destruct (negb (Chunk_truthy body)) eqn:Hfalsy.
  { intros _. cbn. rewrite Hbody. cbn.
    destruct body as [b|[|c str]]; cbn in *; try done. lia. }
  cbn [orb]. destruct (Chunk_length body <=? _)%nat eqn:Hend.
  { intros _. cbn. rewrite Hbody. cbn. by apply Nat.leb_le. }
  destruct (Chunk_length body <=? _ + _)%nat eqn:Hstop; cbn; [|done].
  intros _. rewrite Hbody. cbn. by apply Nat.leb_le.
Qed.

(** X2.  End-of-stream is final: once a [_read] has pushed [null], every
    later [_read], of any size and after any other calls on the endpoint,
    pushes [null] and no chunk, and leaves the endpoint as it is. *)
Theorem end_of_stream_is_final
    (size size' : nat) (s : EventWrapperSocket.t) (now : Z) (actions : list Action) :
  EventWrapperSocket.pushes_null (EventWrapperSocket._read size s).2 = true ->
  let w := run actions {| clock := now; endpoint := (EventWrapperSocket._read size s).1 |} in
  EventWrapperSocket._read size' (endpoint w) = (endpoint w, [PushNull]).
Proof.
  intros Hnull. cbn zeta. apply read_past_end.
  pose proof (read_null_at_end size s Hnull) as Hend.
  set (w0 := {| clock := now; endpoint := (EventWrapperSocket._read size s).1 |}).
  destruct (run_read_monotone actions w0) as [Hb Hlo].
  unfold read_source_length in *. rewrite Hb. cbn [endpoint w0] in *. lia.
Qed.

Lemma end_of_stream_is_final_witness :
  let s := EventWrapperSocket.new (Some (ChunkString "hello")) in
  let w := run [CallWrite (ChunkString "ok") utf8; Elapse 5; CallRead 3]
             {| clock := 0; endpoint := (EventWrapperSocket._read 16 s).1 |} in
  EventWrapperSocket._read 4 (endpoint w) = (endpoint w, [PushNull]).
Proof.
  apply (end_of_stream_is_final 16 4
           (EventWrapperSocket.new (Some (ChunkString "hello"))) 0
           [CallWrite (ChunkString "ok") utf8; Elapse 5; CallRead 3]).
  reflexivity.
Defined.

(** X3.  A read of size 0 makes no progress: on a body that is not empty it
    pushes an empty chunk, pushes no [null] and leaves the offset at 0, so
    reading to the end with size 0 does not reach end-of-stream, however
    many calls are made. *)
Theorem read_size_zero_never_ends (B : Chunk) (fuel : nat) :
  0 < Chunk_length B ->
  EventWrapperSocket.read_to_end fuel 0 (EventWrapperSocket.new (Some B))
  = (replicate fuel
       {| EventWrapperSocket.start_offset := 0;
          EventWrapperSocket.pushed := [PushChunk (Chunk_empty B)];
          EventWrapperSocket.end_offset := 0 |}, false).
Proof.
  intros Hlen.
  assert (Hread : EventWrapperSocket._read 0 (EventWrapperSocket.new (Some B))
                  = (EventWrapperSocket.new (Some B), [PushChunk (Chunk_empty B)])).
  { rewrite (read_before_end 0 _ B) by (cbn; done || lia). cbn.
    assert (Hslice : Chunk_slice 0 0 B = Chunk_empty B) by (by destruct B).
    rewrite Hslice.
    assert (Chunk_length (Chunk_empty B) = 0) as -> by (by destruct B).
    replace (Chunk_length B <=? 0)%nat with false
      by (symmetry; apply Nat.leb_gt; lia).
    done. }
  induction fuel as [|fuel IH]; [done|].
  cbn [EventWrapperSocket.read_to_end replicate]. rewrite Hread.
  cbn [EventWrapperSocket.pushes_null existsb orb]. by rewrite IH.
Qed.

Lemma read_size_zero_never_ends_witness :
  (EventWrapperSocket.read_to_end 50 0
     (EventWrapperSocket.new (Some (ChunkString "hello")))).2 = false.
Proof.
  rewrite (read_size_zero_never_ends (ChunkString "hello") 50); [reflexivity|].
  simpl. lia.
Defined.

(** ** The write side of the endpoint *)

Lemma step_written (a : Action) (w : World) :
  EventWrapperSocket._writeBufferContents (endpoint (step a w))
  = EventWrapperSocket._writeBufferContents (endpoint w) ++ written_octets [a]
  /\ EventWrapperSocket.bytesWritten (endpoint (step a w))
     = EventWrapperSocket.bytesWritten (endpoint w) + written_lengths [a].
Proof.
  unfold written_octets, written_lengths.
  destruct a as [timeout callback|chunk encoding|size|ms|]; cbn [step endpoint].
  - unfold EventWrapperSocket.setTimeout.
    destruct (timeout =? 0)%Z; [cbn; rewrite app_nil_r; split; [done|lia]|].
    destruct (BasicTimeout.new _ _ _); cbn; rewrite app_nil_r; (split; [done|lia]).
  - destruct (socket_write_accumulates (clock w) chunk encoding (endpoint w))
      as [-> ->]. cbn. rewrite app_nil_r. split; [done|lia].
  - unfold EventWrapperSocket._read.
    destruct (EventWrapperSocket._readBody (endpoint w)) as [body|];
      [|cbn; rewrite app_nil_r; split; [done|lia]].
    destruct (negb _ || _); [cbn; rewrite app_nil_r; split; [done|lia]|].
    destruct (_ <=? _)%nat; cbn; rewrite app_nil_r; (split; [done|lia]).
  - cbn. rewrite app_nil_r. split; [done|lia].
  - unfold EventWrapperSocket.run_timers, EventWrapperSocket.timer_fires.
    destruct (EventWrapperSocket._timeout (endpoint w)) as [b|];
      [|cbn; rewrite app_nil_r; split; [done|lia]].
    destruct (BasicTimeout._timeout b); [|cbn; rewrite app_nil_r; split; [done|lia]].
    destruct (Timeout_due _ _); [|cbn; rewrite app_nil_r; split; [done|lia]].
    destruct (BasicTimeout._callback b) as [[c|]|];
      [|cbn; rewrite app_nil_r; split; [done|lia]
       |cbn; rewrite app_nil_r; split; [done|lia]].
    destruct (callback_throws c); cbn; rewrite app_nil_r; (split; [done|lia]).
Qed.

(** X4.  The write accumulator is append-only and sees nothing but the
    writes: after any sequence of calls, waiting and timer phases, the
    written contents are the contents before, followed by what the write
    calls of the sequence contribute, in their order; the counter has grown
    by the lengths of the chunks of those calls. *)
Theorem written_contents_follow_the_writes (actions : list Action) (w : World) :
  EventWrapperSocket._writeBufferContents (endpoint (run actions w))
  = EventWrapperSocket._writeBufferContents (endpoint w) ++ written_octets actions
  /\ EventWrapperSocket.bytesWritten (endpoint (run actions w))
     = EventWrapperSocket.bytesWritten (endpoint w) + written_lengths actions.
Proof.
  revert w. induction actions as [|a actions IH]; intros w.
  - cbn. rewrite app_nil_r. split; [done|lia].
  - change (run (a :: actions) w) with (run actions (step a w)).
    destruct (IH (step a w)) as [-> ->].
    destruct (step_written a w) as [-> ->].
    assert (Ho : written_octets (a :: actions)
                 = written_octets [a] ++ written_octets actions).
    { unfold written_octets. destruct a; cbn; by rewrite ?app_nil_r. }
    assert (Hl : written_lengths (a :: actions)
                 = written_lengths [a] + written_lengths actions).
    { unfold written_lengths. destruct a; cbn; lia. }
    rewrite Ho, Hl. split; [by rewrite app_assoc|lia].
Qed.

Lemma length_latin1_encode (s : string) :
  length (latin1_encode s) = String.length s.
Proof. induction s as [|c s IH]; [done|]. cbn. by rewrite IH. Qed.

Lemma length_utf8_encode_ascii (s : string) :
  all_ascii s = true -> length (utf8_encode s) = String.length s.
Proof.
  induction s as [|c s IH]; [done|]. cbn [all_ascii utf8_encode String.length].
  intros [Hc Hs]%andb_prop. rewrite length_app, (IH Hs).
  unfold utf8_encode_unit. by rewrite Hc.
Qed.

Lemma one_octet_per_unit_length (call : Chunk * BufferEncoding) :
  one_octet_per_unit call = true ->
  length (call_octets call) = Chunk_length call.1.
Proof.
  destruct call as [[b|s] encoding]; [done|].
  unfold call_octets. cbn [fst snd one_octet_per_unit Chunk_length].
  destruct encoding; try done; cbn [Buffer_from].
  - apply length_utf8_encode_ascii.
  - intros _. apply length_latin1_encode.
  - intros _. apply length_latin1_encode.
Qed.

(** X5.  When the counter is right: if every chunk written to the body sink
    is a buffer, a string in [latin1] or [ascii], or an ASCII string in
    [utf8], then [bytesWritten] is the length of the body. *)
Theorem bytesWritten_is_body_length_for_single_octet_chunks
    (calls : list (Chunk * BufferEncoding)) :
  forallb one_octet_per_unit calls = true ->
  let w := EventResponseBodyWriter.writes calls EventResponseBodyWriter.new in
  EventResponseBodyWriter.bytesWritten w = length (EventResponseBodyWriter.body w).
Proof.
  intros Hall. cbn zeta. rewrite writer_bytesWritten_sum, writer_writes_body.
  change (EventResponseBodyWriter.body EventResponseBodyWriter.new) with (@nil byte).
  change (EventResponseBodyWriter.bytesWritten EventResponseBodyWriter.new) with 0.
  rewrite app_nil_l, Nat.add_0_l.
  induction calls as [|call calls IH]; [done|].
  cbn [forallb] in Hall. apply andb_prop in Hall as [Hcall Hcalls].
  cbn [map concat sum_list]. rewrite length_app, (IH Hcalls).
  by rewrite (one_octet_per_unit_length call Hcall).
Qed.

Lemma bytesWritten_is_body_length_for_single_octet_chunks_witness :
  let w := EventResponseBodyWriter.writes
             [(ChunkString "HTTP/1.1 200 OK", latin1); (ChunkString "ok", utf8);
              (ChunkBuffer ["!"%byte; x00], hex)]
             EventResponseBodyWriter.new in
  EventResponseBodyWriter.bytesWritten w = length (EventResponseBodyWriter.body w).
Proof.
  apply (bytesWritten_is_body_length_for_single_octet_chunks
           [(ChunkString "HTTP/1.1 200 OK", latin1); (ChunkString "ok", utf8);
            (ChunkBuffer ["!"%byte; x00], hex)]).
  reflexivity.
Defined.

(** ** Timers of the endpoint *)





(** ** The results of the response adapter *)

Lemma b64_char_printable (n : N) : (n < 64)%N -> printable_char (b64_char n) = true.
Proof.
  intros Hn. rewrite <- (N2Nat.id n).
  assert (Hk : (N.to_nat n < 64)%nat) by lia.
  revert Hk. generalize (N.to_nat n). intros k Hk.
  do 64 (destruct k as [|k]; [by vm_compute|]). lia.
Qed.

Lemma b64_encode_printable (bs : Buffer) : all_printable (b64_encode bs) = true.
Proof.
  induction bs as [|a|a b|a b c rest IH] using Buffer_ind3.
  - reflexivity.
  - pose proof (to_N_lt_256 a). cbn [b64_encode all_printable].
    rewrite !b64_char_printable by lia. reflexivity.
  - pose proof (to_N_lt_256 a). pose proof (to_N_lt_256 b).
    cbn [b64_encode all_printable].
    rewrite !b64_char_printable by lia. reflexivity.
  - pose proof (to_N_lt_256 a). pose proof (to_N_lt_256 b).
    pose proof (to_N_lt_256 c). cbn [b64_encode all_printable].
    rewrite !b64_char_printable by lia. by rewrite IH.
Qed.

Lemma toString_printable (body : Buffer) :
  forallb printable_ascii body = true -> all_printable (Buffer_toString body) = true.
Proof.
  unfold Buffer_toString. induction body as [|b body IH]; [done|].
  cbn [forallb map string_of_list_ascii all_printable].
  intros [Hb Hbody]%andb_prop. rewrite (IH Hbody), andb_true_r.
  unfold printable_char. by rewrite code_unit_char_of_octet.
Qed.

(** X8.  The body text of a result is always printable ASCII: whatever was
    written, [_makeBodyResponse] returns a string of characters in 32..126
    only, the written text itself or its base64 form. *)
Theorem makeBodyResponse_text_is_printable (r : LambdaResponse.t) :
  all_printable (LambdaResponse._makeBodyResponse r).1 = true.
Proof.
  unfold LambdaResponse._makeBodyResponse. rewrite Buffer_some_unprintable.
  destruct (forallb printable_ascii _) eqn:Hp; cbn [negb fst].
  - by apply toString_printable.
  - apply b64_encode_printable.
Qed.

(** X9.  Header materialization, key by key: a stored string or number is
    kept, a stored array is joined into one string, with "; " under
    [set-cookie] and with "," under every other key, and a key without a
    defined value is absent from the result; so is the key [__proto__],
    whatever is stored under it. *)
Theorem makeHeaders_pointwise (r : LambdaResponse.t) (key : string) :
  LambdaResponse._makeHeaders r !! key
  = if String.eqb key "__proto__" then None
    else materialized_header key (LambdaResponse.getHeaders r !! key).
Proof.
  rewrite makeHeaders_lookup. destruct (String.eqb key "__proto__"); [done|].
  destruct (LambdaResponse.getHeaders r !! key) as [[|s|n|l]|]; cbn; try done.
  - unfold LambdaResponse._makeHeaders_entry. by destruct (String.eqb key _).
  - unfold LambdaResponse._makeHeaders_entry. by destruct (String.eqb key _).
  - unfold LambdaResponse._makeHeaders_entry. by destruct (String.eqb key _).
  - unfold LambdaResponse._makeHeaders_entry. by destruct (String.eqb key _).
Qed.

Lemma prefix_empty (s : string) : String.prefix "" s = true.
Proof. by destruct s. Qed.

(** Splitting on "; " a string made of a piece without "; ", then "; ",
    then more: the piece comes off whole. *)
Lemma split_from_piece (x : string) :
  forall (cur : list Ascii.ascii) (v : string) (rest : string),
    split_from "; " 0 cur x = [v] ->
    split_from "; " 0 cur (x +:+ "; " +:+ rest)
    = string_of_list_ascii (rev cur ++ list_ascii_of_string x)
        :: split_from "; " 0 [] rest.
Proof.
  induction x as [|c x IH]; intros cur v rest Hone.
  - change ("" +:+ "; " +:+ rest) with (String ";" (String " " rest)).
    rewrite app_nil_r. cbn [split_from String.prefix].
    destruct (ascii_dec ";" ";") as [_|Hne]; [|done].
    destruct (ascii_dec " " " ") as [_|Hne]; [|done].
    by rewrite prefix_empty.
  - cbn [split_from] in Hone.
    change (String c x +:+ "; " +:+ rest) with (String c (x +:+ "; " +:+ rest)).
    cbn [split_from].
    destruct (String.prefix "; " (String c x)) eqn:Hpre.
    { injection Hone as _ Hnil. by apply split_from_not_nil in Hnil. }
    assert (Hpre' : String.prefix "; " (String c (x +:+ "; " +:+ rest)) = false).
    { cbn [String.prefix] in Hpre |- *.
      destruct (ascii_dec ";" c) as [_|_]; [|done].
      destruct x as [|c' x].
      - change ("" +:+ "; " +:+ rest) with (String ";" (String " " rest)).
        cbn [String.prefix]. by destruct (ascii_dec " " ";").
      - change (String c' x +:+ "; " +:+ rest)
          with (String c' (x +:+ "; " +:+ rest)).
        cbn [String.prefix] in Hpre |- *.
        destruct (ascii_dec " " c') as [_|_]; [|done].
        by rewrite prefix_empty in Hpre. }
    rewrite Hpre'. rewrite (IH (c :: cur) v rest Hone).
    cbn [rev list_ascii_of_string]. by rewrite <- app_assoc.
Qed.

(** Joining cookies with "; " and splitting again gives the cookies back,
    when there is at least one and none contains "; ". *)
Lemma split_join_cookies (cookies : list string) :
  cookies <> [] ->
  Forall single_cookie cookies ->
  String_split "; " (Array_join "; " cookies) = cookies.
Proof.
  intros Hne Hall. induction Hall as [|x l Hx Hl IH]; [done|].
  destruct l as [|y l]; [exact Hx|].
  change (Array_join "; " (x :: y :: l))
    with (x +:+ "; " +:+ Array_join "; " (y :: l)).
  unfold String_split. rewrite (split_from_piece x [] x _ Hx).
  cbn [rev app]. rewrite string_of_list_ascii_of_string.
  f_equal. by apply IH.
Qed.

(** X10.  Cookies survive the v2 serializer when none of them contains
    "; ": for a [set-cookie] header holding a non-empty array of such
    cookies, the [cookies] property of the result is that array, in
    order. *)
Theorem lambdaResponseV2_cookies_round_trip
    (r : LambdaResponse.t) (cookies : list string) :
  LambdaResponse.getHeaders r !! "set-cookie" = Some (HeaderArray cookies) ->
  cookies <> [] ->
  Forall single_cookie cookies ->
  exists result,
    LambdaResponse.lambdaResponseV2 r = Returns result
    /\ result_cookies result = Some cookies
    /\ result_headers result !! "set-cookie" = None.
Proof.
  intros Hstore Hne Hall.
  assert (Hnum : set_cookie_not_numeric r).
  { intros n. by rewrite Hstore. }
  rewrite (lambdaResponseV2_returns r Hnum). eexists. split; [reflexivity|].
  cbn [result_cookies result_headers]. rewrite Hstore. cbn.
  split; [|apply lookup_delete_eq].
  f_equal. by apply split_join_cookies.
Qed.

Lemma lambdaResponseV2_cookies_round_trip_witness :
  exists result,
    LambdaResponse.lambdaResponseV2 response_with_cookies = Returns result
    /\ result_cookies result = Some ["a=1"; "b=2"]
    /\ result_headers result !! "set-cookie" = None.
Proof.
  apply (lambdaResponseV2_cookies_round_trip response_with_cookies ["a=1"; "b=2"]).
  - vm_compute. reflexivity.
  - discriminate.
  - repeat constructor.
Defined.

(** X11.  The v1 serializer never returns a falsy status: whatever the
    status of the response is (unset, zero, not a number, a string that does
    not parse), the [statusCode] of the result is a number other than 0,
    and it is 200 whenever the materialized status is unset, 0 or [NaN]. *)
Theorem lambdaResponse_status_is_never_falsy (r : LambdaResponse.t) :
  exists z : Z,
    result_statusCode (LambdaResponse.lambdaResponse r) = Some (Num z)
    /\ z <> 0%Z
    /\ (LambdaResponse._lambdaStatusCode r = Some (Num z)
        \/ (z = 200%Z
            /\ LambdaResponse._lambdaStatusCode r
               ∈ [None; Some NaN; Some (Num 0)])).
Proof.
  unfold LambdaResponse.lambdaResponse.
  destruct (LambdaResponse._makeBodyResponse r) as [text flag].
  cbn [result_statusCode].
  destruct (LambdaResponse._lambdaStatusCode r) as [[|z]|].
  - exists 200%Z. cbn. repeat split; [done|]. right. split; [done|set_solver].
  - cbn [number_truthy]. destruct (Z.eqb_spec z 0) as [->|Hz]; cbn.
    + exists 200%Z. repeat split; [done|]. right. split; [done|set_solver].
    + exists z. repeat split; [done|by left].
  - exists 200%Z. repeat split; [done|]. right. split; [done|set_solver].
Qed.

(** ** Header getters of the request adapter *)

Lemma toLowerCase_unit_idempotent (c : Ascii.ascii) :
  toLowerCase_unit (toLowerCase_unit c) = toLowerCase_unit c.
Proof.
  destruct c as [b0 b1 b2 b3 b4 b5 b6 b7].
  destruct b0, b1, b2, b3, b4, b5, b6, b7; reflexivity.
Qed.

Lemma String_toLowerCase_idempotent (s : string) :
  String_toLowerCase (String_toLowerCase s) = String_toLowerCase s.
Proof.
  induction s as [|c s IH]; [done|]. cbn.
  by rewrite toLowerCase_unit_idempotent, IH.
Qed.

(** Setting entries under lower-cased keys, one after the other: a key is
    bound to the value of the last entry that lower-cases to it, and the
    key [__proto__] is left as it was. *)
Lemma fold_insert_lower_lookup {A : Type} (f : string -> A)
    (entries : list (string * string)) (h : gmap string A) (key : string) :
  fold_left (fun h kv => Object_set (String_toLowerCase kv.1) (f kv.2) h) entries h
    !! key
  = if String.eqb key "__proto__" then h !! key
    else match last (omap (fun kv => if decide (String_toLowerCase kv.1 = key)
                                     then Some kv.2 else None) entries) with
         | Some value => Some (f value)
         | None => h !! key
         end.
Proof.
  revert h. induction entries as [|[k v] entries IH]; intros h.
  { cbn. by destruct (String.eqb key "__proto__"). }
  cbn [fold_left omap list_omap fst snd]. rewrite IH. unfold Object_set.
  destruct (String.eqb key "__proto__") eqn:Hkey.
  - apply String.eqb_eq in Hkey.
    destruct (String.eqb (String_toLowerCase k) "__proto__") eqn:Hk; [done|].
    apply String.eqb_neq in Hk. rewrite lookup_insert_ne; [done|congruence].
  - destruct (decide (String_toLowerCase k = key)) as [Heq|Hne].
    + rewrite Heq, Hkey.
      cbn. destruct (omap _ entries) as [|x l] eqn:E.
      * cbn. apply lookup_insert_eq.
      * change (last (v :: x :: l)) with (last (x :: l)).
        destruct (last (x :: l)) eqn:El; [done|].
        by apply last_None in El.
    + destruct (last _); [done|].
      destruct (String.eqb (String_toLowerCase k) "__proto__"); [done|].
      by rewrite lookup_insert_ne.
Qed.

Lemma defined_entries_values (key : string) (raw : list (string * option string)) :
  omap (fun kv : string * string =>
          if decide (String_toLowerCase kv.1 = key) then Some kv.2 else None)
       (omap (fun kv : string * option string =>
                match kv.2 with
                | Some value => Some (kv.1, value)
                | None => None
                end) raw)
  = header_values key raw.
Proof.
  unfold header_values. induction raw as [|[k [v|]] raw IH]; [done|..].
  - cbn. destruct (decide _); cbn; by rewrite IH.
  - cbn. destruct (decide _); cbn; by rewrite IH.
Qed.

(** X12.  The [headers] getter is a case-insensitive view of the event's
    headers: every key of the result is in lower case, and a key other than
    [__proto__] is bound to the value of the last entry of the event, among
    those with a defined value, whose name is that key when lower-cased;
    without such an entry the key is absent.  The key [__proto__] is
    absent, whatever the event holds under it. *)
Theorem headers_getter_is_case_insensitive
    (event : Event.t) (raw : list (string * option string)) :
  Event.headers event = Present raw ->
  exists h,
    IncomingMessage.headers event = Returns h
    /\ (forall key,
          h !! key = if String.eqb key "__proto__" then None
                     else last (header_values key raw))
    /\ (forall key value, h !! key = Some value -> String_toLowerCase key = key).
Proof.
  intros Hraw. unfold IncomingMessage.headers, IncomingMessage.defined_entries.
  rewrite Hraw. eexists. split; [reflexivity|].
  assert (Hlookup : forall key,
             fold_left (fun h kv => Object_set (String_toLowerCase kv.1) kv.2 h)
               (omap (fun kv : string * option string =>
                        match kv.2 with
                        | Some value => Some (kv.1, value)
                        | None => None
                        end) raw) (∅ : gmap string string) !! key
             = if String.eqb key "__proto__" then None
               else last (header_values key raw)).
  { intros key. rewrite (fold_insert_lower_lookup (fun v => v)).
    rewrite defined_entries_values, lookup_empty.
    destruct (String.eqb key "__proto__"); [done|]. by destruct (last _). }
  split; [exact Hlookup|].
  intros key value. rewrite Hlookup.
  destruct (String.eqb key "__proto__"); [done|]. intros Hlast.
  apply last_Some_elem_of in Hlast. unfold header_values in Hlast.
  apply list_elem_of_omap in Hlast as ([k v] & _ & Hkv). cbn in Hkv.
  destruct (decide (String_toLowerCase k = key)) as [<-|]; [|done].
  apply String_toLowerCase_idempotent.
Qed.

Lemma headers_getter_is_case_insensitive_witness :
  let raw := [("Content-Type", Some "text/plain"); ("X-Trace", None);
              ("__proto__", Some "polluted");
              ("content-type", Some "application/json")] in
  exists h,
    IncomingMessage.headers (Event.mk format_A_event (Present raw) None None)
    = Returns h
    /\ (forall key,
          h !! key = if String.eqb key "__proto__" then None
                     else last (header_values key raw))
    /\ (forall key value, h !! key = Some value -> String_toLowerCase key = key).
Proof.
  intros raw.
  apply (headers_getter_is_case_insensitive
           (Event.mk format_A_event (Present raw) None None) raw).
  reflexivity.
Defined.

Lemma fold_insert_fmap {A B : Type} (f : A -> B) (g : string -> A)
    (entries : list (string * string)) (h : gmap string A) :
  fold_left (fun h kv => Object_set (String_toLowerCase kv.1) (f (g kv.2)) h)
    entries (f <$> h)
  = f <$> fold_left (fun h kv => Object_set (String_toLowerCase kv.1) (g kv.2) h)
            entries h.
Proof.
  revert h. induction entries as [|[k v] entries IH]; intros h; [done|].
  cbn [fold_left fst snd]. rewrite <- IH. unfold Object_set.
  destruct (String.eqb (String_toLowerCase k) "__proto__"); [done|].
  by rewrite fmap_insert.
Qed.

(** X13.  [headersDistinct] is [headers] with every value wrapped in a
    list of one: the two getters have the same keys, and fail together. *)
Theorem headersDistinct_wraps_headers (event : Event.t) :
  IncomingMessage.headersDistinct event
  = match IncomingMessage.headers event with
    | Returns h => Returns ((fun value => [value]) <$> h)
    | Throws message => Throws message
    end.
Proof.
  unfold IncomingMessage.headersDistinct, IncomingMessage.headers.
  destruct (IncomingMessage.defined_entries event) as [entries|message]; [|done].
  f_equal.
  rewrite <- (fold_insert_fmap (fun value => [value]) (fun v => v)).
  by rewrite fmap_empty.
Qed.

Lemma fold_push_raw (entries : list (string * string)) (raw : list string) :
  fold_left (fun raw kv => raw ++ [kv.1; kv.2]) entries raw
  = raw ++ flat_map (fun kv => [kv.1; kv.2]) entries.
Proof.
  revert raw. induction entries as [|[k v] entries IH]; intros raw.
  - cbn. by rewrite app_nil_r.
  - cbn [fold_left flat_map fst snd]. rewrite IH. by rewrite <- app_assoc.
Qed.

Lemma pairs_of_raw_flat (entries : list (string * string)) :
  pairs_of_raw (flat_map (fun kv => [kv.1; kv.2]) entries) = entries.
Proof. induction entries as [|[k v] entries IH]; [done|]. cbn. by rewrite IH. Qed.

(** X14.  [rawHeaders] lists the entries with a defined value as
    alternating names and values, names as the event spells them, so its
    length is even; and normalizing the pairs it lists gives the [headers]
    of the request. *)
Theorem rawHeaders_pairs_give_headers
    (event : Event.t) (raw : list (string * option string)) :
  Event.headers event = Present raw ->
  exists list h,
    IncomingMessage.rawHeaders event = Returns list
    /\ IncomingMessage.headers event = Returns h
    /\ length list = 2 * length (pairs_of_raw list)
    /\ Forall (fun kv => (kv.1, Some kv.2) ∈ raw) (pairs_of_raw list)
    /\ normalizeHeaders (Some (pairs_of_raw list)) = h.
Proof.
  intros Hraw.
  unfold IncomingMessage.rawHeaders, IncomingMessage.headers,
    IncomingMessage.defined_entries.
  rewrite Hraw. eexists _, _. split; [reflexivity|]. split; [reflexivity|].
  rewrite fold_push_raw, app_nil_l, pairs_of_raw_flat.
  split; [|split; [|done]].
  - generalize (omap (fun kv : string * option string =>
                        match kv.2 with
                        | Some value => Some (kv.1, value)
                        | None => None
                        end) raw).
    intros l. induction l as [|[k v] l IH]; [done|]. cbn in *. lia.
  - apply Forall_forall. intros [k v] Hin.
    apply list_elem_of_omap in Hin as ([k' [v'|]] & Hin & Heq); cbn in Heq; [|done].
    by injection Heq as -> ->.
Qed.

Lemma rawHeaders_pairs_give_headers_witness :
  exists list h,
    IncomingMessage.rawHeaders
      (Event.mk format_A_event
         (Present [("Host", Some "api.example.com"); ("X-Trace", None)]) None None)
    = Returns list
    /\ IncomingMessage.headers
         (Event.mk format_A_event
            (Present [("Host", Some "api.example.com"); ("X-Trace", None)]) None None)
       = Returns h
    /\ length list = 2 * length (pairs_of_raw list)
    /\ normalizeHeaders (Some (pairs_of_raw list)) = h.
Proof.
  destruct (rawHeaders_pairs_give_headers
              (Event.mk format_A_event
                 (Present [("Host", Some "api.example.com"); ("X-Trace", None)])
                 None None)
              [("Host", Some "api.example.com"); ("X-Trace", None)] eq_refl)
    as (list & h & Hl & Hh & Hlen & _ & Hn).
  exists list, h. split; [exact Hl|]. split; [exact Hh|].
  split; [exact Hlen|exact Hn].
Defined.

(** ** [normalizeHeaders] *)

Lemma normalize_lookup (entries : list (string * string)) (key : string) :
  normalizeHeaders (Some entries) !! key
  = if String.eqb key "__proto__" then None
    else last (omap (fun kv => if decide (String_toLowerCase kv.1 = key)
                               then Some kv.2 else None) entries).
Proof.
  unfold normalizeHeaders. rewrite (fold_insert_lower_lookup (fun v => v)).
  rewrite lookup_empty. destruct (String.eqb key "__proto__"); [done|].
  by destruct (last _).
Qed.

Lemma no_values_for_missing_key (entries : list (string * string)) (key : string) :
  key ∉ entries.*1 ->
  Forall (fun kv => String_toLowerCase kv.1 = kv.1) entries ->
  omap (fun kv : string * string =>
          if decide (String_toLowerCase kv.1 = key) then Some kv.2 else None) entries
  = [].
Proof.
  intros Hnot Hlow. induction Hlow as [|[k v] entries Hk Hlow IH]; [done|].
  cbn in *. apply not_elem_of_cons in Hnot as [Hne Hnot].
  rewrite Hk. destruct (decide (k = key)); [done|]. by apply IH.
Qed.

(** For entries with distinct keys in lower case, none of them [__proto__],
    normalizing is the map of the entries. *)
Lemma normalize_lower_entries (entries : list (string * string)) :
  NoDup entries.*1 ->
  Forall (fun kv => String_toLowerCase kv.1 = kv.1) entries ->
  Forall (fun kv => kv.1 <> "__proto__") entries ->
  normalizeHeaders (Some entries) = list_to_map entries.
Proof.
  intros Hdup Hlow Hown. apply map_eq. intros key. rewrite normalize_lookup.
  destruct (String.eqb_spec key "__proto__") as [->|Hkey].
  { symmetry. apply not_elem_of_list_to_map_1. intros Hin.
    apply list_elem_of_fmap in Hin as ([k v] & Heq & Hin).
    by apply (proj1 (Forall_forall _ _) Hown (k, v) Hin). }
  clear Hown. induction Hlow as [|[k v] entries Hk Hlow IH]; [done|].
  cbn in Hk. apply NoDup_cons in Hdup as [Hnot Hdup].
  cbn [omap list_omap fst snd list_to_map foldr]. rewrite Hk.
  destruct (decide (k = key)) as [->|Hne].
  - rewrite (no_values_for_missing_key entries key Hnot Hlow).
    cbn. by rewrite lookup_insert_eq.
  - rewrite lookup_insert_ne by done. by apply IH.
Qed.

(** X15.  [normalizeHeaders] lower-cases the keys and is idempotent: every
    key of the result is in lower case, normalizing the entries of the
    result gives the result again, and [null] gives the empty object. *)
Theorem normalizeHeaders_idempotent (headers : option (list (string * string))) :
  (forall key value,
      normalizeHeaders headers !! key = Some value -> String_toLowerCase key = key)
  /\ normalizeHeaders (Some (map_to_list (normalizeHeaders headers)))
     = normalizeHeaders headers
  /\ normalizeHeaders None = ∅.
Proof.
  assert (Hkeys : forall key value,
             normalizeHeaders headers !! key = Some value ->
             String_toLowerCase key = key /\ key <> "__proto__").
  { destruct headers as [entries|];
      [|intros key value; unfold normalizeHeaders; by rewrite lookup_empty].
    intros key value. rewrite normalize_lookup.
    destruct (String.eqb_spec key "__proto__") as [|Hkey]; [done|].
    intros Hlast. split; [|done].
    apply last_Some_elem_of, list_elem_of_omap in Hlast as ([k v] & _ & Hkv).
    cbn in Hkv. destruct (decide (String_toLowerCase k = key)) as [<-|]; [|done].
    apply String_toLowerCase_idempotent. }
  split; [intros key value Hkey; by apply (Hkeys key value)|]. split; [|done].
  rewrite normalize_lower_entries.
  - apply list_to_map_to_list.
  - apply NoDup_fst_map_to_list.
  - apply Forall_forall. intros [k v] Hin. cbn.
    apply elem_of_map_to_list in Hin. by apply (Hkeys k v).
  - apply Forall_forall. intros [k v] Hin. cbn.
    apply elem_of_map_to_list in Hin. by apply (Hkeys k v).
Qed.

(** ** The utilities *)

Lemma Array_join_cons (sep x : string) (l : list string) :
  l <> [] -> Array_join sep (x :: l) = x +:+ sep +:+ Array_join sep l.
Proof. by destruct l. Qed.

Lemma string_app_cons (c : Ascii.ascii) (s t : string) :
  String c s +:+ t = String c (s +:+ t).
Proof. reflexivity. Qed.

Lemma string_app_empty_l (s : string) : "" +:+ s = s.
Proof. reflexivity. Qed.

Lemma string_app_empty_r (s : string) : s +:+ "" = s.
Proof.
  induction s as [|x s IH]; [done|].
  change (String x (s +:+ "") = String x s). by rewrite IH.
Qed.

Lemma string_of_list_ascii_snoc (l : list Ascii.ascii) (c : Ascii.ascii) (s : string) :
  string_of_list_ascii (l ++ [c]) +:+ s = string_of_list_ascii l +:+ String c s.
Proof.
  induction l as [|x l IH]; [done|].
  change (String x (string_of_list_ascii (l ++ [c]) +:+ s)
          = String x (string_of_list_ascii l +:+ String c s)).
  by rewrite IH.
Qed.

(** Splitting on a separator of one character and joining again with it
    gives the string back. *)
Lemma join_split_char (c : Ascii.ascii) (s : string) :
  forall cur : list Ascii.ascii,
    Array_join (String c "") (split_from (String c "") 0 cur s)
    = string_of_list_ascii (rev cur) +:+ s.
Proof.
  induction s as [|a s IH]; intros cur.
  - cbn [split_from Array_join]. by rewrite string_app_empty_r.
  - cbn [split_from String.prefix].
    destruct (ascii_dec c a) as [->|Hne].
    + rewrite prefix_empty. cbn [String.length Nat.sub].
      rewrite Array_join_cons by apply split_from_not_nil.
      rewrite (IH []). reflexivity.
    + rewrite (IH (a :: cur)). cbn [rev]. apply string_of_list_ascii_snoc.
Qed.

Lemma not_elem_of_rev {A} (x : A) (l : list A) : x ∉ l -> x ∉ rev l.
Proof.
  intros Hl Hrev. apply Hl. apply list_elem_of_In. apply in_rev.
  by apply list_elem_of_In.
Qed.

(** No piece contains the separator. *)
Lemma split_char_pieces (c : Ascii.ascii) (s : string) :
  forall cur : list Ascii.ascii,
    c ∉ cur ->
    Forall (fun piece => c ∉ list_ascii_of_string piece)
      (split_from (String c "") 0 cur s).
Proof.
  induction s as [|a s IH]; intros cur Hcur.
  - cbn. constructor; [|constructor].
    rewrite list_ascii_of_string_of_list_ascii. by apply not_elem_of_rev.
  - cbn [split_from String.prefix].
    destruct (ascii_dec c a) as [->|Hne].
    + rewrite prefix_empty. cbn [String.length Nat.sub]. constructor.
      * rewrite list_ascii_of_string_of_list_ascii. by apply not_elem_of_rev.
      * apply IH. apply not_elem_of_nil.
    + apply IH. apply not_elem_of_cons. split; [done|exact Hcur].
Qed.

(** X16.  [getHostname] returns the host header up to its first colon, and
    never a colon: with a truthy host header (under [host], else [Host]),
    the result has no colon and the header is the result, or the result
    followed by a colon and more; without one the result is "localhost". *)
Theorem getHostname_stops_at_first_colon (event : Event.t) :
  match host_header event with
  | Some host =>
      if String.eqb host "" then getHostname event = "localhost"
      else (":"%char ∉ list_ascii_of_string (getHostname event))
           /\ (host = getHostname event
               \/ exists rest, host = getHostname event +:+ ":" +:+ rest)
  | None => getHostname event = "localhost"
  end.
Proof.
  unfold getHostname. fold (host_header event).
  destruct (host_header event) as [host|]; [|done].
  change (default "" (Some host)) with host.
  cbn [string_truthy]. destruct (String.eqb host ""); [done|].
  cbn [negb]. unfold String_split.
  pose proof (join_split_char ":" host []) as Hjoin.
  pose proof (split_char_pieces ":" host [] (not_elem_of_nil _)) as Hpieces.
  change (String ":" "") with ":" in *.
  destruct (split_from ":" 0 [] host) as [|piece pieces] eqn:Hsplit.
  { by apply split_from_not_nil in Hsplit. }
  apply Forall_cons in Hpieces as [Hpiece _]. cbn [head default].
  split; [exact Hpiece|].
  change (string_of_list_ascii (rev []) +:+ host) with host in Hjoin.
  destruct pieces as [|next pieces].
  - left. by rewrite <- Hjoin.
  - right. exists (Array_join ":" (next :: pieces)). by rewrite <- Hjoin.
Qed.

(** X17.  [getClientIP] and [parsePath] never return the empty string:
    empty and missing values fall through to the next candidate, and the
    last candidate is a constant. *)
Theorem client_ip_and_path_are_never_empty (event : Event.t) :
  getClientIP event <> "" /\ parsePath event <> "".
Proof.
  assert (Hor : forall (a : option string) (d : string),
             d <> "" -> default d (or_else a (Some d)) <> "").
  { intros a d Hd. unfold or_else, string_truthy.
    destruct a as [s|]; [|done].
    destruct (String.eqb_spec s ""); cbn; done. }
  unfold getClientIP, parsePath.
  split.
  - destruct (isAPIGatewayV1 event); [by apply Hor|].
    destruct (isAPIGatewayV2 event); [by apply Hor|done].
  - destruct (isAPIGatewayV1 event); [by apply Hor|].
    destruct (isAPIGatewayV2 event); [by apply Hor|done].
Qed.

(** X18.  [getSubdomains] returns the leading labels of the host name, all
    but as many trailing ones as the offset and [AppSubdomainLength] add up
    to, and none when the host name has no more labels than that: the
    result, followed by the labels left out, is the list of labels, and
    these joined with dots are the host name. *)
Theorem getSubdomains_are_the_leading_labels
    (AppSubdomainLength : Z) (hostname : string) (offset : Z) :
  let subdomains := getSubdomains AppSubdomainLength hostname offset in
  let out := effective_offset AppSubdomainLength offset in
  exists left_out,
    String_split "." hostname = subdomains ++ left_out
    /\ Array_join "." (subdomains ++ left_out) = hostname
    /\ (subdomains <> [] -> Z.of_nat (length left_out) = Z.max 0 out)
    /\ ((Z.of_nat (length (String_split "." hostname)) <= out)%Z -> subdomains = []).
Proof.
  cbn zeta. unfold getSubdomains. fold (effective_offset AppSubdomainLength offset).
  set (out := effective_offset AppSubdomainLength offset).
  set (parts := String_split "." hostname).
  assert (Hjoin : Array_join "." parts = hostname).
  { pose proof (join_split_char "." hostname []) as H. exact H. }
  destruct (Z.leb_spec (Z.of_nat (length parts)) out) as [Hle|Hgt].
  - exists parts. repeat split; try done.
  - exists (drop (Z.to_nat (Z.of_nat (length parts) - out)) parts).
    rewrite take_drop. repeat split; try done; [|lia].
    intros _. rewrite length_drop. lia.
Qed.

Lemma pretty_inner_printable (b : Buffer) :
  all_printable
    (string_of_list_ascii
       (map (fun char => if ((Byte.to_N char <? 32) || (126 <? Byte.to_N char))%N
                         then "."%char else char_of_octet char) b)
     +:+ "]") = true.
Proof.
  induction b as [|x b IH]; [done|].
  cbn [map string_of_list_ascii]. rewrite string_app_cons.
  cbn [all_printable]. rewrite IH, andb_true_r.
  destruct ((Byte.to_N x <? 32) || (126 <? Byte.to_N x))%N eqn:Hx; [done|].
  unfold printable_char. rewrite code_unit_char_of_octet.
  apply orb_false_elim in Hx as [H1%N.ltb_ge H2%N.ltb_ge].
  apply andb_true_intro. split; by apply N.leb_le.
Qed.

Lemma pretty_inner_length (b : Buffer) (s : string) :
  String.length
    (string_of_list_ascii
       (map (fun char => if ((Byte.to_N char <? 32) || (126 <? Byte.to_N char))%N
                         then "."%char else char_of_octet char) b)
     +:+ s) = length b + String.length s.
Proof.
  induction b as [|x b IH]; [done|].
  cbn [map string_of_list_ascii]. rewrite string_app_cons.
  cbn [String.length length]. by rewrite IH.
Qed.

Lemma pretty_inner_is_text (b : Buffer) :
  string_of_list_ascii
    (map (fun char => if ((Byte.to_N char <? 32) || (126 <? Byte.to_N char))%N
                      then "."%char else char_of_octet char) b)
  +:+ "]" = Buffer_toString b +:+ "]"
  <-> forallb printable_ascii b = true.
Proof.
  unfold Buffer_toString. induction b as [|x b IH]; [done|].
  cbn [map string_of_list_ascii forallb]. rewrite !string_app_cons.
  assert (Hx : (((Byte.to_N x <? 32) || (126 <? Byte.to_N x))%N)
               = negb (printable_ascii x)).
  { unfold printable_ascii. by rewrite negb_andb, !N.ltb_antisym. }
  rewrite Hx. split.
  - intros [= Hc Hrest]. apply IH in Hrest. rewrite Hrest, andb_true_r.
    destruct (printable_ascii x) eqn:Hp; [done|]. cbn [negb] in Hc.
    assert (Hcode : code_unit (char_of_octet x) = 46%N) by (by rewrite <- Hc).
    rewrite code_unit_char_of_octet in Hcode.
    unfold printable_ascii in Hp. by rewrite Hcode in Hp.
  - intros [Hp Hrest]%andb_prop. rewrite Hp. cbn [negb].
    f_equal. by apply IH.
Qed.

(** X19.  [prettyPrintBuffer] on a buffer prints printable ASCII only, as
    many characters as the buffer has octets inside "Buffer[" and "]"; and
    what it prints of a response body is the body's text exactly when the
    body is returned as text, not base64. *)
Theorem prettyPrintBuffer_prints_text_bodies (r : LambdaResponse.t) :
  let body := EventResponseBodyWriter.body (LambdaResponse.socket r) in
  all_printable (prettyPrintBuffer (ChunkBuffer body)) = true
  /\ String.length (prettyPrintBuffer (ChunkBuffer body)) = length body + 8
  /\ (prettyPrintBuffer (ChunkBuffer body) = "Buffer[" +:+ Buffer_toString body +:+ "]"
      <-> (LambdaResponse._makeBodyResponse r).2 = false).
Proof.
  cbn zeta. set (body := EventResponseBodyWriter.body _).
  unfold prettyPrintBuffer. rewrite !string_app_cons, !string_app_empty_l.
  split; [|split].
  - cbn [all_printable]. rewrite pretty_inner_printable. reflexivity.
  - cbn [String.length]. rewrite pretty_inner_length. cbn [String.length]. lia.
  - unfold LambdaResponse._makeBodyResponse. fold body.
    rewrite Buffer_some_unprintable. split.
    + intros [= Heq]. apply pretty_inner_is_text in Heq. by rewrite Heq.
    + intros Hflag. destruct (forallb printable_ascii body) eqn:Hp; [|done].
      do 7 f_equal. by apply pretty_inner_is_text.
Qed.

(** ** The URL of the request *)

Lemma all_query_chars_app (a b : string) :
  all_query_chars a = true -> all_query_chars b = true ->
  all_query_chars (a +:+ b) = true.
Proof.
  intros Ha Hb. induction a as [|c a IH]; [done|].
  rewrite string_app_cons. cbn [all_query_chars] in *.
  apply andb_prop in Ha as [Hc Ha]. by rewrite Hc, IH.
Qed.

Lemma urlencode_octet_chars (b : byte) :
  all_query_chars (urlencode_octet b) = true.
Proof. destruct b; vm_compute; reflexivity. Qed.

Lemma urlencode_chars (s : string) : all_query_chars (urlencode s) = true.
Proof.
  unfold urlencode. induction (utf8_encode s) as [|b l IH]; [done|].
  cbn [map String.concat]. destruct (map urlencode_octet l) as [|x rest] eqn:El.
  - apply urlencode_octet_chars.
  - apply all_query_chars_app; [apply urlencode_octet_chars|].
    by rewrite string_app_empty_l.
Qed.

Lemma URLSearchParams_toString_chars (params : list (string * string)) :
  all_query_chars (URLSearchParams_toString params) = true.
Proof.
  unfold URLSearchParams_toString. induction params as [|kv params IH]; [done|].
  assert (Hkv : all_query_chars (urlencode kv.1 +:+ "=" +:+ urlencode kv.2) = true).
  { apply all_query_chars_app; [apply urlencode_chars|].
    apply all_query_chars_app; [done|apply urlencode_chars]. }
  cbn [map]. destruct (map _ params) as [|x rest] eqn:El; [exact Hkv|].
  rewrite Array_join_cons by done.
  apply all_query_chars_app; [exact Hkv|].
  by apply all_query_chars_app.
Qed.

(** X20.  When the event has a structured query map, the URL of the request
    is the path alone, or the path, a question mark and a query that is
    form-encoded: it has letters, digits and the characters * - . _ + % = &
    only, whatever the names and values of the map hold. *)
Theorem parseUrl_structured_query_is_form_encoded
    (event : APIGatewayEvent) (entries : list (string * option string)) :
  queryStringParameters event = Present entries ->
  exists query,
    all_query_chars query = true
    /\ LambdaIncomingMessage._parseUrl event
       = if String.eqb query "" then url_path event
         else url_path event +:+ "?" +:+ query.
Proof.
  intros Hmap.
  exists (URLSearchParams_toString (LambdaIncomingMessage.append_params entries)).
  split; [apply URLSearchParams_toString_chars|].
  unfold LambdaIncomingMessage._parseUrl, url_path. rewrite Hmap.
  destruct (String.eqb _ ""); cbn [negb];
    destruct (path event) as [p|]; [done|idtac|done|idtac];
    by destruct (rawPath event).
Qed.

Lemma parseUrl_structured_query_is_form_encoded_witness :
  let event :=
    {| version := None; httpMethod := Some "GET"; path := Some "/find";
       rawPath := None;
       queryStringParameters := Present [("q", Some "a b&c"); ("lang", None)];
       rawQueryString := None; body := None |} in
  queryStringParameters event = Present [("q", Some "a b&c"); ("lang", None)]
  /\ exists query,
       all_query_chars query = true
       /\ LambdaIncomingMessage._parseUrl event
          = if String.eqb query "" then url_path event
            else url_path event +:+ "?" +:+ query.
Proof.
  intros event. split; [reflexivity|].
  apply (parseUrl_structured_query_is_form_encoded event
           [("q", Some "a b&c"); ("lang", None)]).
  reflexivity.
Defined.

(** ** Events through [appify] *)

(** X21.  [appify] refuses exactly the events [validateApiGatewayEvent]
    rejects, with "Invalid API Gateway event"; for the others it returns
    the request of the event and a response, and what its [finish] listener
    resolves the result with is what [toLambdaResponse] of the response
    returns, whatever the handler has made of the status, the headers and
    the body of the response by then. *)
Theorem appify_resolves_with_toLambdaResponse
    (status : option StatusCode) (event : Event.t) :
  match appify status event with
  | Throws message =>
      message = "Invalid API Gateway event"
      /\ validateApiGatewayEvent event = false
  | Returns (request, response) =>
      validateApiGatewayEvent event = true
      /\ request = LambdaIncomingMessage.new (Event.base event)
      /\ forall finished : LambdaResponse.t,
           LambdaResponse.req finished = LambdaResponse.req response ->
           appify_on_finish event finished
           = LambdaResponse.toLambdaResponse finished
  end.
Proof.
  unfold appify. destruct (validateApiGatewayEvent event); cbn [negb]; [|done].
  unfold createRequestResponsePair. repeat split.
  intros finished Hreq.
  unfold appify_on_finish, LambdaResponse.toLambdaResponse. rewrite Hreq.
  cbn [LambdaResponse.req LambdaResponse.new LambdaIncomingMessage.lambdaEvent
       LambdaIncomingMessage._event LambdaIncomingMessage.new].
  by destruct (detectApiGatewayVersion (Event.base event)).
Qed.

(** X22.  An event [validateApiGatewayEvent] accepts gives the request a
    URL that starts with a path that is not empty, provided it is of
    format A or has no [path] property: the path is [path] for format A
    and [rawPath] for format B, and the URL is the path, or the path
    followed by a question mark and a query. *)
Theorem valid_event_url_starts_with_its_path (event : Event.t) :
  validateApiGatewayEvent event = true ->
  detectApiGatewayVersion (Event.base event) = v1
  \/ path (Event.base event) = None ->
  exists p,
    p <> ""
    /\ Some p = match detectApiGatewayVersion (Event.base event) with
                | v1 => path (Event.base event)
                | v2 => rawPath (Event.base event)
                end
    /\ (LambdaIncomingMessage._parseUrl (Event.base event) = p
        \/ exists query,
             LambdaIncomingMessage._parseUrl (Event.base event) = p +:+ "?" +:+ query).
Proof.
  unfold validateApiGatewayEvent. intros Hvalid Hformat.
  assert (Hurl : forall p, url_path (Event.base event) = p ->
            LambdaIncomingMessage._parseUrl (Event.base event) = p
            \/ exists query,
                 LambdaIncomingMessage._parseUrl (Event.base event)
                 = p +:+ "?" +:+ query).
  { intros p <-. unfold LambdaIncomingMessage._parseUrl, url_path.
    set (query := match queryStringParameters (Event.base event) with
                  | Present entries => _
                  | _ => _
                  end).
    destruct (String.eqb query ""); cbn [negb].
    - left. destruct (path (Event.base event)); [done|].
      by destruct (rawPath (Event.base event)).
    - right. exists query. destruct (path (Event.base event)); [done|].
      by destruct (rawPath (Event.base event)). }
  assert (Htruthy : forall s, string_truthy s = true -> exists p, s = Some p /\ p <> "").
  { intros [p|]; [|done]. cbn. intros Hp. exists p. split; [done|].
    intros ->. done. }
  destruct (detectApiGatewayVersion (Event.base event)) eqn:Hversion.
  - apply andb_prop in Hvalid as [_ Hpath].
    destruct (Htruthy _ Hpath) as [p [Hp Hne]].
    exists p. split; [done|]. split; [done|].
    apply Hurl. unfold url_path. by rewrite Hp.
  - apply andb_prop in Hvalid as [_ Hpath].
    destruct (Htruthy _ Hpath) as [p [Hp Hne]].
    destruct Hformat as [|Hnone]; [done|].
    exists p. split; [done|]. split; [done|].
    apply Hurl. unfold url_path. by rewrite Hnone, Hp.
Qed.

Lemma valid_event_url_starts_with_its_path_witness :
  let event :=
    Event.mk
      {| version := Some "2.0"; httpMethod := None; path := None;
         rawPath := Some "/items"; queryStringParameters := Absent;
         rawQueryString := Some "page=2"; body := None |}
      Absent (Some "GET /items") None in
  exists p,
    p <> ""
    /\ Some p = match detectApiGatewayVersion (Event.base event) with
                | v1 => path (Event.base event)
                | v2 => rawPath (Event.base event)
                end
    /\ (LambdaIncomingMessage._parseUrl (Event.base event) = p
        \/ exists query,
             LambdaIncomingMessage._parseUrl (Event.base event) = p +:+ "?" +:+ query).
Proof.
  intros event.
  apply (valid_event_url_starts_with_its_path event); [reflexivity|].
  right. reflexivity.
Defined.

(** ** The adapter's own [setTimeout] and [destroy] *)

(** X23.  On the request adapter, [setTimeout] and [destroy] do not reach
    the endpoint: at any depth of the call stack both end in the stack
    overflow and leave the adapter as it was, so that after a
    [setTimeout] through the adapter no [timeout] signal is ever emitted,
    whatever is written and read and however much time passes, as long as
    no timeout is installed on the endpoint directly. *)
Theorem adapter_setTimeout_and_destroy_overflow
    (depth : nat) (msecs : Z) (callback : option TimeoutCallback)
    (error : option string) (event : APIGatewayEvent) (now : Z)
    (actions : list Action) :
  Forall installs_no_timer actions ->
  let m := LambdaIncomingMessage.new event in
  let after := LambdaIncomingMessage.setTimeout depth msecs callback m in
  after.2 = Throws "Maximum call stack size exceeded"
  /\ after.1 = m
  /\ IncomingMessage.destroy depth error m
     = (m, Throws "Maximum call stack size exceeded")
  /\ timeout_signals
       (run actions {| clock := now; endpoint := LambdaIncomingMessage.socket after.1 |})
     = [].
Proof.
  intros Hactions m after.
  assert (Hafter : after = (m, Throws "Maximum call stack size exceeded")).
  { subst after. generalize m. clear.
    induction depth as [|depth IH]; intros m; [done|apply IH]. }
  rewrite Hafter. cbn [fst snd]. repeat split.
  - generalize m. clear. induction depth as [|depth IH]; intros m; [done|apply IH].
  - unfold timeout_signals.
    destruct (run_without_timer actions
                {| clock := now; endpoint := LambdaIncomingMessage.socket m |})
      as [_ Hemitted]; [done|done|].
    by rewrite Hemitted.
Qed.

Lemma adapter_setTimeout_and_destroy_overflow_witness :
  let event :=
    {| version := None; httpMethod := Some "GET"; path := Some "/";
       rawPath := None; queryStringParameters := Absent;
       rawQueryString := None; body := Some "ping" |} in
  let m := LambdaIncomingMessage.new event in
  let after := LambdaIncomingMessage.setTimeout 100 500 None m in
  after.2 = Throws "Maximum call stack size exceeded"
  /\ after.1 = m
  /\ IncomingMessage.destroy 100 None m
     = (m, Throws "Maximum call stack size exceeded")
  /\ timeout_signals
       (run [Elapse 600; RunTimers; CallRead 16; Elapse 600; RunTimers]
          {| clock := 0; endpoint := LambdaIncomingMessage.socket after.1 |})
     = [].
Proof.
  intros event.
  apply (adapter_setTimeout_and_destroy_overflow 100 500 None None event 0
           [Elapse 600; RunTimers; CallRead 16; Elapse 600; RunTimers]).
  repeat constructor.
Defined.

(** ** The protocol version of the request *)

(** Up to the first separator, [split] collects one piece. *)
Lemma split_from_piece_then (c : Ascii.ascii) (p : string) :
  c ∉ list_ascii_of_string p ->
  forall cur : list Ascii.ascii,
    split_from (String c "") 0 cur p = [string_of_list_ascii (rev cur) +:+ p]
    /\ forall rest,
         split_from (String c "") 0 cur (p +:+ String c rest)
         = (string_of_list_ascii (rev cur) +:+ p)
             :: split_from (String c "") 0 [] rest.
Proof.
  induction p as [|a p IH]; intros Hp cur.
  - split.
    + cbn [split_from]. by rewrite string_app_empty_r.
    + intros rest. rewrite string_app_empty_l, string_app_empty_r.
      cbn [split_from String.prefix].
      destruct (ascii_dec c c) as [_|Hne]; [|done].
      by rewrite prefix_empty.
  - cbn [list_ascii_of_string] in Hp. apply not_elem_of_cons in Hp as [Hne Hp].
    destruct (IH Hp (a :: cur)) as [IH1 IH2].
    cbn [rev] in IH1, IH2. rewrite string_of_list_ascii_snoc in IH1, IH2.
    split.
    + cbn [split_from String.prefix].
      destruct (ascii_dec c a) as [Heq|_]; [done|]. exact IH1.
    + intros rest. rewrite string_app_cons. cbn [split_from String.prefix].
      destruct (ascii_dec c a) as [Heq|_]; [done|]. apply IH2.
Qed.

(** Pieces without the separator, joined with it, are split into the same
    pieces. *)
Lemma split_join_char (c : Ascii.ascii) (pieces : list string) :
  pieces <> [] ->
  Forall (fun piece => c ∉ list_ascii_of_string piece) pieces ->
  String_split (String c "") (Array_join (String c "") pieces) = pieces.
Proof.
  unfold String_split. intros Hne Hpieces.
  induction Hpieces as [|p pieces Hp Hpieces IH]; [done|].
  destruct (split_from_piece_then c p Hp []) as [Hone Hmore].
  destruct pieces as [|q pieces]; [exact Hone|].
  rewrite Array_join_cons by done.
  change (String c "" +:+ Array_join (String c "") (q :: pieces))
    with (String c (Array_join (String c "") (q :: pieces))).
  rewrite Hmore. f_equal. by apply IH.
Qed.

Lemma numeric_string_no_dot (d : Decimal.uint) :
  "."%char ∉ list_ascii_of_string (numeric_string d).
Proof.
  assert (Hdigits : forall d, "."%char ∉ list_ascii_of_string (NilEmpty.string_of_uint d)).
  { clear. induction d; cbn [NilEmpty.string_of_uint list_ascii_of_string];
      [apply not_elem_of_nil|..]; (apply not_elem_of_cons; split; [done|exact IHd]). }
  unfold numeric_string, NilZero.string_of_uint. destruct d; try apply Hdigits.
  cbn. apply not_elem_of_cons. split; [done|apply not_elem_of_nil].
Qed.

Lemma String_replace_HTTP (rest : string) :
  String_replace "HTTP/" "" ("HTTP/" +:+ rest) = rest.
Proof.
  rewrite !string_app_cons, string_app_empty_l.
  cbn [String_replace String.eqb Ascii.eqb Bool.eqb String.prefix String.length
       String_drop].
  repeat match goal with
         | |- context [ascii_dec ?a ?b] =>
             destruct (ascii_dec a b); [|done]
         end.
  by rewrite prefix_empty.
Qed.

(** X24.  For a protocol "HTTP/" followed by numbers joined with dots, as
    in HTTP/1.1 and in HTTP/2, each number up to 2^53, [httpVersion] is
    what follows the slash, [httpVersionMajor] is the first number and
    [httpVersionMinor] the second one, and not a number when there is no
    second one. *)
Theorem httpVersion_numbers (event : Event.t) (numbers : list Decimal.uint) :
  numbers <> [] ->
  Forall exact_numeral numbers ->
  event_protocol event
  = Some ("HTTP/" +:+ Array_join "." (map numeric_string numbers)) ->
  IncomingMessage.httpVersion event = Array_join "." (map numeric_string numbers)
  /\ Some (IncomingMessage.httpVersionMajor event) = numeric_value <$> numbers !! 0
  /\ IncomingMessage.httpVersionMinor event
     = default NaN (numeric_value <$> numbers !! 1).
Proof.
  intros Hne Hexact Hprotocol.
  assert (Hversion : IncomingMessage.httpVersion event
                     = Array_join "." (map numeric_string numbers)).
  { unfold IncomingMessage.httpVersion. unfold event_protocol in Hprotocol.
    destruct (Event.requestContext event) as [context|]; [|done].
    destruct (Event.context_protocol context) as [protocol|].
    - injection Hprotocol as ->. apply String_replace_HTTP.
    - destruct (Event.http context) as [http|]; [|done].
      injection Hprotocol as Hp. rewrite Hp. apply String_replace_HTTP. }
  split; [exact Hversion|].
  unfold IncomingMessage.httpVersionMajor, IncomingMessage.httpVersionMinor.
  rewrite Hversion.
  change "."%string with (String "." "").
  rewrite split_join_char.
  - rewrite !list_lookup_fmap.
    split.
    + destruct numbers as [|a numbers]; [done|]. cbn.
      apply Forall_cons in Hexact as [Ha _].
      by rewrite parseInt_numeric_string.
    + destruct (numbers !! 1) as [b|] eqn:Hb; [|done]. cbn.
      rewrite parseInt_numeric_string; [done|].
      by apply (Forall_lookup_1 _ _ _ _ Hexact Hb).
  - by destruct numbers.
  - apply Forall_fmap, Forall_forall. intros d _. apply numeric_string_no_dot.
Qed.

Lemma httpVersion_numbers_witness :
  let event :=
    Event.mk
      {| version := Some "2.0"; httpMethod := None; path := None;
         rawPath := Some "/"; queryStringParameters := Absent;
         rawQueryString := None; body := None |}
      Absent (Some "$default")
      (Some {| Event.context_protocol := None;
               Event.http := Some {| Event.method := "GET";
                                     Event.protocol := "HTTP/2";
                                     Event.sourceIp := None |};
               Event.identity_sourceIp := None |}) in
  IncomingMessage.httpVersion event = "2"
  /\ Some (IncomingMessage.httpVersionMajor event) = Some (Num 2)
  /\ IncomingMessage.httpVersionMinor event = NaN.
Proof.
  intros event.
  apply (httpVersion_numbers event [Decimal.D2 Decimal.Nil]); [done| |reflexivity].
  constructor; [|constructor]. unfold exact_numeral. vm_compute. discriminate.
Defined.

(** ** The response transport *)

Lemma string_app_assoc (a b c : string) : (a +:+ b) +:+ c = a +:+ (b +:+ c).
Proof.
  induction a as [|x a IH]; [done|].
  rewrite !string_app_cons. by rewrite IH.
Qed.

(** What a write leaves as body does not depend on the callback. *)
Lemma transport_write_state (chunk : Chunk)
    (encodingOrCallback : ResponseTransport.WriteArgument) (callback : option nat)
    (r : ResponseTransport.t) :
  ResponseTransport._destroyed r = false ->
  ResponseTransport._destroyed
    (ResponseTransport.write chunk encodingOrCallback callback r).1 = false
  /\ ResponseTransport._body
       (ResponseTransport.write chunk encodingOrCallback callback r).1
     = match ResponseTransport._body r, chunk with
       | ResponseTransport.BodyNull, _ => ResponseTransport.BodyChunk chunk
       | ResponseTransport.BodyChunk (ChunkString body), ChunkString s =>
           ResponseTransport.BodyChunk (ChunkString (body +:+ s))
       | ResponseTransport.BodyChunk body, _ =>
           ResponseTransport.BodyArray [body; chunk]
       | ResponseTransport.BodyArray body, _ =>
           ResponseTransport.BodyArray (body ++ [chunk])
       end.
Proof.
  intros Hlive. unfold ResponseTransport.write. rewrite Hlive.
  cbn [fst]. unfold ResponseTransport.report.
  destruct (ResponseTransport.write_callback encodingOrCallback callback);
    destruct (ResponseTransport._body r) as [|[b|s]|l]; destruct chunk; done.
Qed.

Lemma transport_setHeaders_body (headers : list (string * ResponseTransport.Header))
    (r : ResponseTransport.t) :
  ResponseTransport._destroyed (ResponseTransport.setHeaders headers r)
  = ResponseTransport._destroyed r
  /\ ResponseTransport._body (ResponseTransport.setHeaders headers r)
     = ResponseTransport._body r.
Proof.
  unfold ResponseTransport.setHeaders. revert r.
  induction headers as [|h headers IH]; intros r; [done|].
  cbn [fold_left]. destruct (IH (ResponseTransport.setHeader h.1 h.2 r)) as [-> ->].
  done.
Qed.

(** The body after a step that is not [destroy]. *)
Lemma transport_step_body (call : TransportCall) (w : Z * ResponseTransport.t) :
  is_destroy call = false ->
  ResponseTransport._destroyed w.2 = false ->
  ResponseTransport._destroyed (transport_step call w).2 = false
  /\ ResponseTransport._body (transport_step call w).2
     = match written_chunks [call] with
       | chunk :: _ =>
           ResponseTransport._body
             (ResponseTransport.write chunk ResponseTransport.NoArgument None w.2).1
       | [] => ResponseTransport._body w.2
       end.
Proof.
  intros Hcall Hlive. destruct w as [now r]. cbn [snd] in *.
  destruct call as [name value|headers|name value|name|status arg headers|
                    |chunk arg callback|chunk arg callback|error|msecs callback|ms|];
    try discriminate Hcall; unfold written_chunks;
    cbn [transport_step fst snd omap list_omap].
  - done.
  - destruct (transport_setHeaders_body headers r) as [-> ->]. done.
  - unfold ResponseTransport.appendHeader.
    destruct (ResponseTransport.getHeader name r) as [[existing|existing]|]; [|done|done].
    by destruct (ResponseTransport.Scalar_truthy existing).
  - done.
  - unfold ResponseTransport.writeHead.
    destruct arg as [|message|given]; [done| |].
    + destruct headers as [headers|]; [|done].
      cbn [ResponseTransport.set_headersSent ResponseTransport._destroyed
           ResponseTransport._body].
      by destruct (transport_setHeaders_body headers
                     (ResponseTransport.set_statusCode status r)) as [-> ->].
    + cbn [ResponseTransport.set_headersSent ResponseTransport._destroyed
           ResponseTransport._body].
      by destruct (transport_setHeaders_body given
                     (ResponseTransport.set_statusCode status r)) as [-> ->].
  - done.
  - destruct (transport_write_state chunk arg callback r Hlive) as [-> ->].
    by destruct (transport_write_state chunk ResponseTransport.NoArgument None r Hlive)
      as [_ ->].
  - unfold ResponseTransport.end_. destruct chunk as [chunk|].
    + set (arg' := match arg with
                   | ResponseTransport.Encoding e => ResponseTransport.Encoding e
                   | _ => ResponseTransport.NoArgument
                   end).
      destruct (transport_write_state chunk arg' None r Hlive) as [Hd Hb].
      destruct (transport_write_state chunk ResponseTransport.NoArgument None r Hlive)
        as [_ ->].
      rewrite <- Hb. unfold ResponseTransport.report.
      by destruct (ResponseTransport.write_callback arg callback).
    + unfold ResponseTransport.report.
      by destruct (ResponseTransport.write_callback arg callback).
  - unfold ResponseTransport.setTimeout, ResponseTransport.clear_timer.
    by destruct (ResponseTransport._timeout r).
  - done.
  - unfold ResponseTransport.run_timers.
    destruct (ResponseTransport._timeout r) as [timer|]; [|done].
    destruct (ResponseTransport.pending timer && _); [|done].
    unfold ResponseTransport.report. by destruct (ResponseTransport.timer_callback timer).
Qed.

Lemma written_chunks_cons (call : TransportCall) (calls : list TransportCall) :
  written_chunks (call :: calls) = written_chunks [call] ++ written_chunks calls.
Proof.
  unfold written_chunks. cbn [omap list_omap].
  by destruct call as [| | | | | | |[chunk|]| | | |].
Qed.

Lemma body_text_pieces (body : ResponseTransport.Body) :
  ResponseTransport.body_text body
  = Array_join ","
      match body with
      | ResponseTransport.BodyNull => []
      | ResponseTransport.BodyChunk chunk => [ResponseTransport.Chunk_toString chunk]
      | ResponseTransport.BodyArray chunks =>
          map ResponseTransport.Chunk_toString chunks
      end.
Proof.
  destruct body as [|[b|s]|l]; [done|done| |done].
  cbn. by destruct (String.eqb_spec s "") as [->|].
Qed.

(** The body after a sequence of calls without [destroy], from any body. *)
Lemma transport_run_body (calls : list TransportCall) :
  forall w : Z * ResponseTransport.t,
    Forall (fun call => is_destroy call = false) calls ->
    ResponseTransport._destroyed w.2 = false ->
    ResponseTransport.body_text (ResponseTransport._body (transport_run calls w).2)
    = Array_join ","
        match ResponseTransport._body w.2 with
        | ResponseTransport.BodyNull => body_pieces (written_chunks calls)
        | ResponseTransport.BodyChunk (ChunkString s) =>
            (s +:+ (leading_text (written_chunks calls)).1)
              :: map ResponseTransport.Chunk_toString
                   (leading_text (written_chunks calls)).2
        | ResponseTransport.BodyChunk chunk =>
            ResponseTransport.Chunk_toString chunk
              :: map ResponseTransport.Chunk_toString (written_chunks calls)
        | ResponseTransport.BodyArray chunks =>
            map ResponseTransport.Chunk_toString (chunks ++ written_chunks calls)
        end.
Proof.
  induction calls as [|call calls IH]; intros w Hcalls Hlive.
  - cbn [transport_run fold_left written_chunks omap leading_text fst snd map].
    rewrite body_text_pieces.
    destruct (ResponseTransport._body w.2) as [|[b|s]|l]; [done|done| |].
    + by rewrite string_app_empty_r.
    + by rewrite app_nil_r.
  - apply Forall_cons in Hcalls as [Hcall Hcalls].
    change (transport_run (call :: calls) w)
      with (transport_run calls (transport_step call w)).
    destruct (transport_step_body call w Hcall Hlive) as [Hlive' Hbody].
    rewrite (IH _ Hcalls Hlive'). rewrite Hbody. f_equal.
    rewrite (written_chunks_cons call calls).
    destruct (written_chunks [call]) as [|chunk more] eqn:Hchunk.
    { done. }
    assert (Hmore : more = []).
    { cbn in Hchunk. destruct call; try discriminate Hchunk.
      - by injection Hchunk.
      - destruct chunk0; [by injection Hchunk|done]. }
    subst more. cbn [app].
    destruct (transport_write_state chunk ResponseTransport.NoArgument None w.2 Hlive)
      as [_ ->].
    destruct (ResponseTransport._body w.2) as [|[b|s]|l]; destruct chunk as [b'|s'];
      cbn [body_pieces leading_text fst snd map ResponseTransport.Chunk_toString].
    + done.
    + by destruct (leading_text (written_chunks calls)).
    + done.
    + done.
    + by rewrite string_app_empty_r.
    + destruct (leading_text (written_chunks calls)) as [text others].
      cbn [fst snd]. by rewrite string_app_assoc.
    + by rewrite <- app_assoc.
    + by rewrite <- app_assoc.
Qed.

Lemma concat_strings_cons (s : string) (l : list string) :
  String.concat "" (s :: l) = s +:+ String.concat "" l.
Proof.
  destruct l as [|x l]; [by rewrite string_app_empty_r|].
  cbn [String.concat]. by rewrite string_app_empty_l.
Qed.

Lemma leading_text_strings (texts : list string) :
  leading_text (map ChunkString texts) = (String.concat "" texts, []).
Proof.
  induction texts as [|s texts IH]; [done|].
  cbn [map leading_text]. rewrite IH. by rewrite concat_strings_cons.
Qed.

(** X25.  On a new transport that is not destroyed, the body of the result
    is made of the chunks written by [write] and [end], in order (strings,
    and buffers of octets below 128): string chunks written one after the
    other from the start run together, and from the first buffer on every
    chunk is set off by a comma.  So strings alone give their
    concatenation, and a body with a buffer in it has commas that were
    never written. *)
Theorem transport_body_joins_the_chunks (now : Z) (calls : list TransportCall) :
  Forall (fun call => is_destroy call = false) calls ->
  forallb ascii_chunk (written_chunks calls) = true ->
  let result :=
    ResponseTransport.toAPIGatewayResult
      (transport_run calls (now, ResponseTransport.new)).2 in
  ResponseTransport.result_body result
  = Array_join "," (body_pieces (written_chunks calls))
  /\ forall texts,
       written_chunks calls = map ChunkString texts ->
       ResponseTransport.result_body result = String.concat "" texts.
Proof.
  intros Hcalls _. cbn zeta.
  cbn [ResponseTransport.toAPIGatewayResult ResponseTransport.result_body].
  rewrite (transport_run_body calls (now, ResponseTransport.new) Hcalls eq_refl).
  cbn [snd ResponseTransport.new ResponseTransport._body]. split; [done|].
  intros texts ->. destruct texts as [|s texts]; [done|].
  unfold body_pieces. cbn [map]. change (ChunkString s :: map ChunkString texts)
    with (map ChunkString (s :: texts)).
  by rewrite leading_text_strings.
Qed.

Lemma transport_body_joins_the_chunks_witness :
  let calls :=
    [TransportSetHeader "Content-Type" (ResponseTransport.Single
                                          (ResponseTransport.ScalarString "text/plain"));
     TransportWrite (ChunkString "a") ResponseTransport.NoArgument None;
     TransportWrite (ChunkString "b") (ResponseTransport.Callback 1) None;
     TransportWrite (ChunkBuffer ["c"%byte]) ResponseTransport.NoArgument None;
     TransportEnd (Some (ChunkString "d")) ResponseTransport.NoArgument None] in
  let result :=
    ResponseTransport.toAPIGatewayResult
      (transport_run calls (0%Z, ResponseTransport.new)).2 in
  ResponseTransport.result_body result = "ab,c,d"
  /\ forall texts,
       written_chunks calls = map ChunkString texts ->
       ResponseTransport.result_body result = String.concat "" texts.
Proof.
  intros calls.
  apply (transport_body_joins_the_chunks 0 calls); [|reflexivity].
  repeat constructor.
Defined.

(** A destroyed transport without a pending timer stays as it is under
    writes, further [destroy] calls and the passing of time, but for the
    reports of the refused writes. *)
Lemma destroyed_transport_step (call : TransportCall) (w : Z * ResponseTransport.t) :
  write_destroy_or_wait call = true ->
  ResponseTransport._destroyed w.2 = true ->
  (forall timer, ResponseTransport._timeout w.2 = Some timer ->
                 ResponseTransport.pending timer = false) ->
  exists reports,
    Forall refused_write reports
    /\ (transport_step call w).2 = ResponseTransport.emit reports w.2.
Proof.
  assert (Hnone : forall r, r = ResponseTransport.emit [] r).
  { intros [headers body status sent timer destroyed outputs].
    unfold ResponseTransport.emit. cbn. by rewrite app_nil_r. }
  intros Hcall Hdead Htimer. destruct w as [now r]. cbn [snd] in *.
  destruct call as [name value|headers|name value|name|status arg headers|
                    |chunk arg callback|chunk arg callback|error|msecs callback|ms|];
    try discriminate Hcall; cbn [transport_step fst snd].
  - unfold ResponseTransport.write. rewrite Hdead. cbn [fst].
    unfold ResponseTransport.report.
    destruct (ResponseTransport.write_callback arg callback) as [tag|].
    + eexists. split; [|reflexivity]. constructor; [by exists tag|constructor].
    + exists []. split; [constructor|apply Hnone].
  - unfold ResponseTransport.destroy. rewrite Hdead.
    exists []. split; [constructor|apply Hnone].
  - exists []. split; [constructor|apply Hnone].
  - unfold ResponseTransport.run_timers.
    exists []. split; [constructor|].
    destruct (ResponseTransport._timeout r) as [timer|] eqn:Ht; [|apply Hnone].
    rewrite (Htimer timer eq_refl). apply Hnone.
Qed.

(** X26.  The first [destroy] is final for writes and for the timeout:
    whatever is written afterwards, however often [destroy] is called again
    and however much time passes, the status, the headers and the body of
    the result stay what they were, no pending timeout fires, and nothing
    is emitted or called but the callbacks of the refused writes, with the
    error "Cannot write to destroyed stream". *)
Theorem first_destroy_is_final
    (w : Z * ResponseTransport.t) (error : option string)
    (calls : list TransportCall) :
  ResponseTransport._destroyed w.2 = false ->
  forallb write_destroy_or_wait calls = true ->
  let destroyed := transport_step (TransportDestroy error) w in
  let later := transport_run calls destroyed in
  ResponseTransport.toAPIGatewayResult later.2
  = ResponseTransport.toAPIGatewayResult destroyed.2
  /\ exists reports,
       Forall refused_write reports
       /\ ResponseTransport.output later.2
          = ResponseTransport.output destroyed.2 ++ reports.
Proof.
  intros Hlive Hcalls destroyed later.
  assert (Hdead : ResponseTransport._destroyed destroyed.2 = true
                  /\ forall timer, ResponseTransport._timeout destroyed.2 = Some timer ->
                                   ResponseTransport.pending timer = false).
  { subst destroyed. destruct w as [now r]. cbn [transport_step snd] in *.
    unfold ResponseTransport.destroy. rewrite Hlive.
    unfold ResponseTransport.clear_timer.
    destruct (ResponseTransport._timeout r) as [timer|] eqn:Ht; destruct error;
      cbn; rewrite ?Ht; (split; [done|]); intros timer' Htimer';
      cbn in Htimer'; rewrite ?Ht in Htimer';
      try discriminate Htimer'; by injection Htimer' as <-. }
  subst later. generalize dependent destroyed. clear Hlive w error.
  induction calls as [|call calls IH]; intros w [Hdead Htimer].
  - split; [done|]. exists []. split; [constructor|by rewrite app_nil_r].
  - cbn [forallb] in Hcalls. apply andb_prop in Hcalls as [Hcall Hcalls].
    change (transport_run (call :: calls) w)
      with (transport_run calls (transport_step call w)).
    destruct (destroyed_transport_step call w Hcall Hdead Htimer)
      as [reports [Hreports Hstep]].
    destruct (IH Hcalls (transport_step call w)) as [Hresult [more [Hmore Houtput]]].
    { rewrite Hstep. split; [exact Hdead|exact Htimer]. }
    rewrite Hresult, Houtput, Hstep. split; [done|].
    exists (reports ++ more). split; [by apply Forall_app|].
    cbn [ResponseTransport.emit ResponseTransport.output]. by rewrite app_assoc.
Qed.

Lemma first_destroy_is_final_witness :
  let w :=
    transport_run
      [TransportWrite (ChunkString "partial") ResponseTransport.NoArgument None;
       TransportSetTimeout 50 (Some 7)]
      (0%Z, ResponseTransport.new) in
  let destroyed := transport_step (TransportDestroy (Some "aborted")) w in
  let later :=
    transport_run
      [TransportWrite (ChunkString "more") (ResponseTransport.Callback 3) None;
       TransportWait 60; TransportTimers; TransportDestroy None]
      destroyed in
  ResponseTransport.toAPIGatewayResult later.2
  = ResponseTransport.toAPIGatewayResult destroyed.2
  /\ exists reports,
       Forall refused_write reports
       /\ ResponseTransport.output later.2
          = ResponseTransport.output destroyed.2 ++ reports.
Proof.
  intros w.
  apply (first_destroy_is_final w (Some "aborted")
           [TransportWrite (ChunkString "more") (ResponseTransport.Callback 3) None;
            TransportWait 60; TransportTimers; TransportDestroy None]);
    reflexivity.
Defined.

(** The header of the result under a key. *)
Lemma transport_result_header (r : ResponseTransport.t) (key : string) :
  ResponseTransport.result_headers (ResponseTransport.toAPIGatewayResult r) !! key
  = match ResponseTransport._headers r !! key with
    | Some (ResponseTransport.Several values) =>
        Some (ResponseTransport.ScalarString
                (Array_join ", " (map ResponseTransport.Scalar_toString values)))
    | Some (ResponseTransport.Single v) => Some v
    | None => None
    end.
Proof.
  cbn [ResponseTransport.toAPIGatewayResult ResponseTransport.result_headers].
  generalize (ResponseTransport._headers r). intros store.
  apply (map_fold_weak_ind
           (fun (headers : gmap string ResponseTransport.Scalar)
                (m : gmap string ResponseTransport.Header) =>
              headers !! key
              = match m !! key with
                | Some (ResponseTransport.Several values) =>
                    Some (ResponseTransport.ScalarString
                            (Array_join ", "
                               (map ResponseTransport.Scalar_toString values)))
                | Some (ResponseTransport.Single v) => Some v
                | None => None
                end)).
  - by rewrite !lookup_empty.
  - intros i x m headers Hfresh IH.
    destruct (decide (i = key)) as [->|Hne].
    + rewrite (lookup_insert_eq m). destruct x; by rewrite lookup_insert_eq.
    + rewrite (lookup_insert_ne m) by done.
      destruct x; by rewrite lookup_insert_ne.
Qed.

Lemma transport_getHeader_setHeader (name name' : string)
    (value : ResponseTransport.Header) (r : ResponseTransport.t) :
  String_toLowerCase name = String_toLowerCase name' ->
  ResponseTransport.getHeader name' (ResponseTransport.setHeader name value r)
  = Some value.
Proof.
  intros Hsame. unfold ResponseTransport.getHeader, ResponseTransport.setHeader.
  cbn [ResponseTransport.set_headers ResponseTransport._headers].
  rewrite Hsame. apply lookup_insert_eq.
Qed.

Lemma transport_getHeader_same (name name' : string) (r : ResponseTransport.t) :
  String_toLowerCase name = String_toLowerCase name' ->
  ResponseTransport.getHeader name r = ResponseTransport.getHeader name' r.
Proof. unfold ResponseTransport.getHeader. by intros ->. Qed.

(** Once an array is stored, [appendHeader] adds to it. *)
Lemma append_all_to_array (key : string) (more : list (string * string)) :
  forall (r : ResponseTransport.t) (values : list ResponseTransport.Scalar),
    Forall (fun nv => String_toLowerCase nv.1 = String_toLowerCase key) more ->
    ResponseTransport.getHeader key r = Some (ResponseTransport.Several values) ->
    ResponseTransport.getHeader key (append_all more r)
    = Some (ResponseTransport.Several
              (values ++ map (fun nv => ResponseTransport.ScalarString nv.2) more)).
Proof.
  induction more as [|nv more IH]; intros r values Hnames Hstored.
  - cbn. by rewrite app_nil_r.
  - apply Forall_cons in Hnames as [Hname Hnames].
    unfold append_all. cbn [fold_left]. fold (append_all more).
    rewrite (IH _ (values ++ [ResponseTransport.ScalarString nv.2]) Hnames).
    + by rewrite <- app_assoc.
    + unfold ResponseTransport.appendHeader.
      rewrite (transport_getHeader_same nv.1 key r Hname), Hstored.
      by apply transport_getHeader_setHeader.
Qed.

(** X27.  [appendHeader] under names that differ in case only, and are not
    among the names every object inherits ([constructor], [__proto__]),
    collects the values under one key: from a store without the header, and
    with a first value that is not the empty string, the stored value is
    the first value alone, or the array of all values in the order of the
    calls, and the header of the result is the values joined with ", ". *)
Theorem appendHeader_collects_the_values
    (key : string) (first : string * string) (more : list (string * string))
    (r : ResponseTransport.t) :
  own_header_name key ->
  ResponseTransport.getHeader key r = None ->
  Forall (fun nv => String_toLowerCase nv.1 = String_toLowerCase key) (first :: more) ->
  first.2 <> "" ->
  let appended := append_all (first :: more) r in
  ResponseTransport.getHeader key appended
  = Some match more with
         | [] => ResponseTransport.Single (ResponseTransport.ScalarString first.2)
         | _ => ResponseTransport.Several
                  (map (fun nv => ResponseTransport.ScalarString nv.2) (first :: more))
         end
  /\ ResponseTransport.result_headers (ResponseTransport.toAPIGatewayResult appended)
       !! String_toLowerCase key
     = Some (ResponseTransport.ScalarString (Array_join ", " (map snd (first :: more)))).
Proof.
  intros _ Hnone Hnames Hfirst appended.
  apply Forall_cons in Hnames as [Hname Hnames].
  assert (Hstored :
            ResponseTransport.getHeader key appended
            = Some match more with
                   | [] => ResponseTransport.Single (ResponseTransport.ScalarString first.2)
                   | _ => ResponseTransport.Several
                            (map (fun nv => ResponseTransport.ScalarString nv.2)
                               (first :: more))
                   end).
  { subst appended. unfold append_all. cbn [fold_left]. fold (append_all more).
    set (r1 := ResponseTransport.appendHeader first.1 _ r).
    assert (H1 : ResponseTransport.getHeader key r1
                 = Some (ResponseTransport.Single
                           (ResponseTransport.ScalarString first.2))).
    { subst r1. unfold ResponseTransport.appendHeader.
      rewrite (transport_getHeader_same first.1 key r Hname), Hnone.
      by apply transport_getHeader_setHeader. }
    destruct more as [|second more]; [exact H1|].
    apply Forall_cons in Hnames as [Hsecond Hnames].
    unfold append_all. cbn [fold_left]. fold (append_all more).
    rewrite (append_all_to_array key more _
               [ResponseTransport.ScalarString first.2;
                ResponseTransport.ScalarString second.2] Hnames); [done|].
    unfold ResponseTransport.appendHeader.
    rewrite (transport_getHeader_same second.1 key r1 Hsecond), H1.
    cbn [ResponseTransport.Scalar_truthy].
    destruct (String.eqb_spec first.2 "") as [|_]; [done|]. cbn [negb].
    by apply transport_getHeader_setHeader. }
  split; [exact Hstored|].
  rewrite transport_result_header.
  unfold ResponseTransport.getHeader in Hstored. rewrite Hstored.
  destruct more as [|second more]; [done|].
  do 2 f_equal. rewrite map_map. done.
Qed.

Lemma appendHeader_collects_the_values_witness :
  let appended :=
    append_all [("Vary", "Accept"); ("vary", "Origin"); ("VARY", "")]
      ResponseTransport.new in
  ResponseTransport.getHeader "Vary" appended
  = Some (ResponseTransport.Several
            [ResponseTransport.ScalarString "Accept";
             ResponseTransport.ScalarString "Origin";
             ResponseTransport.ScalarString ""])
  /\ ResponseTransport.result_headers (ResponseTransport.toAPIGatewayResult appended)
       !! "vary"
     = Some (ResponseTransport.ScalarString "Accept, Origin, ").
Proof.
  apply (appendHeader_collects_the_values "Vary" ("Vary", "Accept")
           [("vary", "Origin"); ("VARY", "")] ResponseTransport.new).
  - split; discriminate.
  - reflexivity.
  - repeat constructor.
  - discriminate.
Defined.

Lemma setHeader_lower_case_keys (name : string) (value : ResponseTransport.Header)
    (r : ResponseTransport.t) :
  lower_case_keys r -> lower_case_keys (ResponseTransport.setHeader name value r).
Proof.
  intros Hr key. unfold ResponseTransport.setHeader.
  cbn [ResponseTransport.set_headers ResponseTransport._headers].
  destruct (decide (String_toLowerCase name = key)) as [<-|Hne].
  - intros _. apply String_toLowerCase_idempotent.
  - rewrite lookup_insert_ne by done. apply Hr.
Qed.

Lemma setHeaders_lower_case_keys (headers : list (string * ResponseTransport.Header))
    (r : ResponseTransport.t) :
  lower_case_keys r -> lower_case_keys (ResponseTransport.setHeaders headers r).
Proof.
  unfold ResponseTransport.setHeaders. revert r.
  induction headers as [|h headers IH]; intros r Hr; [done|].
  cbn [fold_left]. by apply IH, setHeader_lower_case_keys.
Qed.

Lemma lower_case_keys_same_headers (r r' : ResponseTransport.t) :
  ResponseTransport._headers r' = ResponseTransport._headers r ->
  lower_case_keys r -> lower_case_keys r'.
Proof. unfold lower_case_keys. by intros ->. Qed.

Lemma transport_write_headers (chunk : Chunk) (arg : ResponseTransport.WriteArgument)
    (callback : option nat) (r : ResponseTransport.t) :
  ResponseTransport._headers (ResponseTransport.write chunk arg callback r).1
  = ResponseTransport._headers r.
Proof.
  unfold ResponseTransport.write, ResponseTransport.report.
  destruct (ResponseTransport._destroyed r); cbn [fst];
    destruct (ResponseTransport.write_callback arg callback);
    destruct (ResponseTransport._body r) as [|[b|s]|l]; destruct chunk; reflexivity.
Qed.

Lemma transport_step_lower_case_keys (call : TransportCall)
    (w : Z * ResponseTransport.t) :
  lower_case_keys w.2 -> lower_case_keys (transport_step call w).2.
Proof.
  destruct w as [now r]. cbn [snd]. intros Hr.
  destruct call as [name value|headers|name value|name|status arg headers|
                    |chunk arg callback|chunk arg callback|error|msecs callback|ms|];
    cbn [transport_step fst snd].
  - by apply setHeader_lower_case_keys.
  - by apply setHeaders_lower_case_keys.
  - unfold ResponseTransport.appendHeader.
    destruct (ResponseTransport.getHeader name r) as [[existing|existing]|];
      [destruct (ResponseTransport.Scalar_truthy existing)|..];
      by apply setHeader_lower_case_keys.
  - intros key. unfold ResponseTransport.removeHeader.
    cbn [ResponseTransport.set_headers ResponseTransport._headers].
    destruct (decide (String_toLowerCase name = key)) as [<-|Hne].
    + rewrite lookup_delete_eq. by intros [? ?].
    + rewrite lookup_delete_ne by done. apply Hr.
  - unfold ResponseTransport.writeHead.
    apply (lower_case_keys_same_headers
             match arg with
             | ResponseTransport.StatusMessage _ =>
                 match headers with
                 | Some headers =>
                     ResponseTransport.setHeaders headers
                       (ResponseTransport.set_statusCode status r)
                 | None => ResponseTransport.set_statusCode status r
                 end
             | ResponseTransport.HeadHeaders headers =>
                 ResponseTransport.setHeaders headers
                   (ResponseTransport.set_statusCode status r)
             | ResponseTransport.NoHeadArgument =>
                 ResponseTransport.set_statusCode status r
             end); [reflexivity|].
    destruct arg as [|message|given]; [exact Hr| |].
    + destruct headers as [headers|]; [|exact Hr].
      by apply setHeaders_lower_case_keys.
    + by apply setHeaders_lower_case_keys.
  - exact Hr.
  - apply (lower_case_keys_same_headers r); [|exact Hr].
    apply transport_write_headers.
  - apply (lower_case_keys_same_headers r); [|exact Hr].
    unfold ResponseTransport.end_, ResponseTransport.report.
    destruct chunk as [chunk|];
      destruct (ResponseTransport.write_callback arg callback);
      cbn [ResponseTransport.emit ResponseTransport.set_headersSent
           ResponseTransport._headers];
      first [reflexivity | apply transport_write_headers].
  - apply (lower_case_keys_same_headers r); [|exact Hr].
    unfold ResponseTransport.destroy, ResponseTransport.clear_timer.
    destruct (ResponseTransport._destroyed r); [reflexivity|].
    cbn [ResponseTransport.set_destroyed ResponseTransport._timeout].
    destruct (ResponseTransport._timeout r); destruct error; reflexivity.
  - apply (lower_case_keys_same_headers r); [|exact Hr].
    unfold ResponseTransport.setTimeout, ResponseTransport.clear_timer.
    destruct (ResponseTransport._timeout r); reflexivity.
  - exact Hr.
  - apply (lower_case_keys_same_headers r); [|exact Hr].
    unfold ResponseTransport.run_timers, ResponseTransport.report.
    destruct (ResponseTransport._timeout r) as [timer|]; [|reflexivity].
    destruct (ResponseTransport.pending timer && _); [|reflexivity].
    destruct (ResponseTransport.timer_callback timer); reflexivity.
Qed.

(** X28.  Whatever is called on a new transport, the headers of its result
    are under lower-case names, and a header that is in the result is
    found by [hasHeader] and [getHeader] under every spelling of its
    name. *)
Theorem transport_header_names_are_lower_case
    (now : Z) (calls : list TransportCall) (key : string) :
  let r := (transport_run calls (now, ResponseTransport.new)).2 in
  is_Some (ResponseTransport.result_headers (ResponseTransport.toAPIGatewayResult r)
             !! key) ->
  String_toLowerCase key = key
  /\ forall name,
       String_toLowerCase name = key ->
       ResponseTransport.hasHeader name r = true
       /\ is_Some (ResponseTransport.getHeader name r).
Proof.
  intros r Hresult.
  assert (Hkeys : lower_case_keys r).
  { subst r. clear Hresult.
    assert (Hnew : lower_case_keys (now, ResponseTransport.new).2).
    { intros k. cbn. rewrite lookup_empty. by intros [? ?]. }
    revert Hnew. generalize (now, ResponseTransport.new).
    induction calls as [|call calls IH]; intros w Hw; [exact Hw|].
    change (transport_run (call :: calls) w)
      with (transport_run calls (transport_step call w)).
    apply IH, transport_step_lower_case_keys, Hw. }
  assert (Hstored : is_Some (ResponseTransport._headers r !! key)).
  { rewrite transport_result_header in Hresult.
    destruct (ResponseTransport._headers r !! key); [done|].
    by destruct Hresult. }
  split; [by apply Hkeys|].
  intros name <-. unfold ResponseTransport.hasHeader, ResponseTransport.getHeader.
  split; [by apply bool_decide_eq_true|done].
Qed.

Lemma transport_header_names_are_lower_case_witness :
  let r :=
    (transport_run
       [TransportWriteHead (Num 201) (ResponseTransport.StatusMessage "Created")
          (Some [("Location", ResponseTransport.Single
                                (ResponseTransport.ScalarString "/items/7"))]);
        TransportAppendHeader "Set-Cookie"
          (ResponseTransport.Single (ResponseTransport.ScalarString "a=1"));
        TransportRemoveHeader "SET-COOKIE"]
       (0%Z, ResponseTransport.new)).2 in
  String_toLowerCase "location" = "location"
  /\ forall name,
       String_toLowerCase name = "location" ->
       ResponseTransport.hasHeader name r = true
       /\ is_Some (ResponseTransport.getHeader name r).
Proof.
  apply (transport_header_names_are_lower_case 0
           [TransportWriteHead (Num 201) (ResponseTransport.StatusMessage "Created")
              (Some [("Location", ResponseTransport.Single
                                    (ResponseTransport.ScalarString "/items/7"))]);
            TransportAppendHeader "Set-Cookie"
              (ResponseTransport.Single (ResponseTransport.ScalarString "a=1"));
            TransportRemoveHeader "SET-COOKIE"]
           "location").
  vm_compute. eauto.
Defined.

Lemma transport_idle_after_firing (calls : list TransportCall) :
  forall w : Z * ResponseTransport.t,
    forallb wait_or_timers calls = true ->
    (forall timer, ResponseTransport._timeout w.2 = Some timer ->
                   ResponseTransport.pending timer = false) ->
    (transport_run calls w).2 = w.2.
Proof.
  induction calls as [|call calls IH]; intros w Hcalls Hidle; [done|].
  cbn [forallb] in Hcalls. apply andb_prop in Hcalls as [Hcall Hcalls].
  change (transport_run (call :: calls) w)
    with (transport_run calls (transport_step call w)).
  assert (Hstep : (transport_step call w).2 = w.2).
  { destruct w as [now r]. destruct call; try discriminate Hcall; [done|].
    cbn [transport_step snd fst] in *. unfold ResponseTransport.run_timers.
    destruct (ResponseTransport._timeout r) as [timer|]; [|done].
    by rewrite (Hidle timer eq_refl). }
  rewrite IH; [exact Hstep|exact Hcalls|by rewrite Hstep].
Qed.

(** X29.  [setTimeout] on the transport installs one timeout, whatever the
    duration: the runtime takes a duration outside 1 .. 2^31 - 1, zero
    included, as one millisecond.  Once that time has passed, the next
    timer phase calls the callback, if there is one, and then emits
    [timeout]; after that, waiting and further timer phases give
    nothing. *)
Theorem transport_timeout_fires_once
    (now msecs : Z) (callback : option nat) (r : ResponseTransport.t)
    (ms : nat) (later : list TransportCall) :
  (_idleTimeout (runtime_setTimeout now msecs) <= Z.of_nat ms)%Z ->
  forallb wait_or_timers later = true ->
  let fired :=
    transport_run [TransportSetTimeout msecs callback; TransportWait ms; TransportTimers]
      (now, r) in
  (1 <= _idleTimeout (runtime_setTimeout now msecs) <= 2147483647)%Z
  /\ ResponseTransport.output fired.2
     = ResponseTransport.output r ++ transport_firing callback
  /\ (transport_run later fired).2 = fired.2.
Proof.
  intros Hdue Hlater fired.
  assert (Hrange : (1 <= _idleTimeout (runtime_setTimeout now msecs) <= 2147483647)%Z).
  { unfold runtime_setTimeout. cbn [_idleTimeout].
    destruct ((1 <=? msecs) && (msecs <=? 2147483647))%Z eqn:Hm; [|lia].
    apply andb_prop in Hm as [H1%Z.leb_le H2%Z.leb_le]. lia. }
  assert (Hfired : fired.2
                   = ResponseTransport.emit [ResponseTransport.OnTimeout]
                       (ResponseTransport.report callback None
                          (ResponseTransport.set_timeout
                             (Some {| ResponseTransport.handle :=
                                        runtime_setTimeout now msecs;
                                      ResponseTransport.timer_callback := callback;
                                      ResponseTransport.pending := false |})
                             r))).
  { subst fired.
    cbn [transport_run fold_left transport_step fst snd].
    unfold ResponseTransport.run_timers, ResponseTransport.setTimeout.
    cbn [ResponseTransport.set_timeout ResponseTransport._timeout
         ResponseTransport.pending ResponseTransport.handle
         ResponseTransport.timer_callback andb].
    assert (Hd : Timeout_due (now + Z.of_nat ms)
                   (runtime_setTimeout now msecs) = true).
    { unfold Timeout_due. apply Z.leb_le.
      change (_idleStart (runtime_setTimeout now msecs)) with now. lia. }
    rewrite Hd. unfold ResponseTransport.clear_timer.
    by destruct (ResponseTransport._timeout r). }
  split; [exact Hrange|]. split.
  - rewrite Hfired. unfold ResponseTransport.report, transport_firing.
    destruct callback as [tag|]; cbn; [by rewrite <- app_assoc|done].
  - apply transport_idle_after_firing; [exact Hlater|].
    rewrite Hfired. unfold ResponseTransport.report.
    destruct callback as [tag|]; cbn; by intros timer [= <-].
Qed.

Lemma transport_timeout_fires_once_witness :
  let fired :=
    transport_run [TransportSetTimeout 0 (Some 4); TransportWait 1; TransportTimers]
      (0%Z, ResponseTransport.new) in
  (1 <= _idleTimeout (runtime_setTimeout 0 0) <= 2147483647)%Z
  /\ ResponseTransport.output fired.2
     = ResponseTransport.output ResponseTransport.new ++ transport_firing (Some 4)
  /\ (transport_run [TransportWait 100; TransportTimers; TransportTimers] fired).2
     = fired.2.
Proof.
  apply (transport_timeout_fires_once 0 0 (Some 4) ResponseTransport.new 1
           [TransportWait 100; TransportTimers; TransportTimers]).
  - vm_compute. discriminate.
  - reflexivity.
Defined.
